(** * Hookshot: hook detection over a mono PCM signal

    A shallow embedding of [src/energy.js], [src/sections.js], of the
    method selector, the guard rails and the sparkline of [src/index.js],
    of the escape helpers of [src/ffmpegs.js] and of the pick of
    [scripts/eval.js], followed by the properties the specification
    states about them and by further properties of the code.

    Numbers.  A JavaScript number is modelled by [num]: the three special
    values NaN, -Infinity and +Infinity, and the finite values, which are
    canonical rationals ([Qc]) with exact arithmetic.  The special values
    follow IEEE 754 (0/0 is NaN, 1/0 is +Infinity, every comparison with NaN
    is false), and there is a single zero.  Rounding is modelled where the
    properties below depend on it: the [Float32Array] stores of the frame
    copy, of the prefix sums and of the similarity matrix round to
    binary32 ([fround]), and the running sum of [bestWindowStartSec],
    the window values of the two scans and the guard rails of [main]
    round to binary64 ([round64]).  Elsewhere the arithmetic of doubles
    is exact, and no value overflows.

    Runtime.  [Math.sqrt], [Math.cos], [Math.log2], [Math.hypot] and the
    transform of the [fft.js] package are not part of the repository: they
    are the methods of the classes [MathLib] and [FFTLib]. *)

From Stdlib Require Import ZArith QArith Qcanon Qround List Bool Lia Lqa.
From Stdlib Require Ascii String.
Import ListNotations.

Set Implicit Arguments.

(* ================================================================== *)
(** ** JavaScript numbers *)

Module JsNum.

Inductive num : Type :=
| NaN
| NegInf
| Fin (q : Qc)
| PosInf.

Definition ofQ (q : Q) : num := Fin (Q2Qc q).
Definition ofZ (z : Z) : num := Fin (Q2Qc (inject_Z z)).
Definition ofNat (n : nat) : num := ofZ (Z.of_nat n).

Definition zero : num := ofZ 0.
Definition one : num := ofZ 1.

(** Sign of a finite value, as [comparison] against zero. *)
Definition qsign (q : Qc) : comparison := Qccompare q (Q2Qc 0).

Definition qeqb (a b : Qc) : bool :=
  match Qccompare a b with Eq => true | _ => false end.
Definition qltb (a b : Qc) : bool :=
  match Qccompare a b with Lt => true | _ => false end.

Definition isFinite (x : num) : bool :=
  match x with Fin _ => true | _ => false end.

Definition nneg (x : num) : num :=
  match x with
  | NaN => NaN
  | NegInf => PosInf
  | PosInf => NegInf
  | Fin q => Fin (- q)%Qc
  end.

Definition nadd (x y : num) : num :=
  match x, y with
  | NaN, _ | _, NaN => NaN
  | PosInf, NegInf | NegInf, PosInf => NaN
  | PosInf, _ | _, PosInf => PosInf
  | NegInf, _ | _, NegInf => NegInf
  | Fin a, Fin b => Fin (a + b)%Qc
  end.

Definition nsub (x y : num) : num := nadd x (nneg y).

(** The infinity whose sign is the product of the signs [s] and [t];
    a zero factor gives NaN. *)
Definition infOfSign (s t : comparison) : num :=
  match s, t with
  | Eq, _ | _, Eq => NaN
  | Gt, Gt | Lt, Lt => PosInf
  | _, _ => NegInf
  end.

Definition signOf (x : num) : comparison :=
  match x with
  | NaN => Eq
  | NegInf => Lt
  | PosInf => Gt
  | Fin q => qsign q
  end.

Definition nmul (x y : num) : num :=
  match x, y with
  | NaN, _ | _, NaN => NaN
  | Fin a, Fin b => Fin (a * b)%Qc
  | _, _ => infOfSign (signOf x) (signOf y)
  end.

(** The single zero of the model is the positive one: a non-zero finite
    value over zero is the infinity of the numerator's sign. *)
Definition ndiv (x y : num) : num :=
  match x, y with
  | NaN, _ | _, NaN => NaN
  | Fin a, Fin b =>
      match qsign b with
      | Eq => match qsign a with Eq => NaN | Gt => PosInf | Lt => NegInf end
      | _ => Fin (a / b)%Qc
      end
  | Fin _, _ => zero
  | _, Fin b =>
      match qsign b with
      | Lt => nneg x
      | _ => x
      end
  | _, _ => NaN
  end.

(** [x < y]; false as soon as one side is NaN. *)
Definition nlt (x y : num) : bool :=
  match x, y with
  | NaN, _ | _, NaN => false
  | NegInf, NegInf => false
  | NegInf, _ => true
  | _, NegInf => false
  | PosInf, _ => false
  | _, PosInf => true
  | Fin a, Fin b => qltb a b
  end.

Definition ngt (x y : num) : bool := nlt y x.

(** [x === y] on numbers. *)
Definition neqb (x y : num) : bool :=
  match x, y with
  | NegInf, NegInf | PosInf, PosInf => true
  | Fin a, Fin b => qeqb a b
  | _, _ => false
  end.

Definition nle (x y : num) : bool := nlt x y || neqb x y.
Definition nge (x y : num) : bool := nle y x.

(** Truthiness of a number: everything but zero and NaN. *)
Definition truthy (x : num) : bool :=
  match x with
  | NaN => false
  | Fin q => negb (qeqb q (Q2Qc 0))
  | _ => true
  end.

(** [x || d] on numbers. *)
Definition orElse (x d : num) : num := if truthy x then x else d.

(** [x ?? d], where [None] is [undefined]. *)
Definition nullish (x : option num) (d : num) : num :=
  match x with Some v => v | None => d end.

(** [Math.max(x, y)] and [Math.min(x, y)]. *)
Definition nmax (x y : num) : num :=
  match x, y with
  | NaN, _ | _, NaN => NaN
  | _, _ => if nlt x y then y else x
  end.

Definition nmin (x y : num) : num :=
  match x, y with
  | NaN, _ | _, NaN => NaN
  | _, _ => if nlt y x then y else x
  end.

(** [Math.floor] and [Math.round] (halves go up). *)
Definition nfloor (x : num) : num :=
  match x with
  | Fin q => ofZ (Qfloor q)
  | _ => x
  end.

Definition nround (x : num) : num :=
  match x with
  | Fin q => ofZ (Qfloor (q + Q2Qc (1 # 2))%Qc)
  | _ => x
  end.

(** ToInt32, and the 32-bit shifts [<< k] and [>> k] on integers. *)
Definition toInt32 (z : Z) : Z := ((z + 2 ^ 31) mod 2 ^ 32 - 2 ^ 31)%Z.
Definition shl32 (z k : Z) : Z := toInt32 (Z.shiftl (toInt32 z) k).
Definition shr32 (z k : Z) : Z := Z.shiftr (toInt32 z) k.

(** An element read, [a[i]], in arithmetic: [undefined] behaves as NaN. *)
Definition get (a : list num) (i : nat) : num := nth i a NaN.

(** [Math.PI], the double nearest to pi. *)
Definition Math_PI : num := ofQ (884279719003555 # 281474976710656).

(** In-order sum, as an accumulating loop [s += a[i]] from zero. *)
Definition sumFrom (s : num) (a : list num) : num := fold_left nadd a s.

End JsNum.

Export JsNum.

Declare Scope num_scope.
Delimit Scope num_scope with num.
Infix "+" := nadd : num_scope.
Infix "-" := nsub : num_scope.
Infix "*" := nmul : num_scope.
Infix "/" := ndiv : num_scope.
Infix "<?" := nlt : num_scope.
Infix ">?" := ngt : num_scope.
Infix "<=?" := nle : num_scope.

(* ================================================================== *)
(** ** Rounding

    Round to nearest, ties to even, to a binary format with [prec]
    significant bits whose least positive value is [2^-sub]: binary32 is
    [prec = 24], [sub = 149], binary64 is [prec = 53], [sub = 1074].
    Values below the normal range are rounded to a multiple of [2^-sub].
    As in the arithmetic of the model, the exponent is not bounded above:
    a finite value stays finite. *)

Module Ieee.

(** The integer nearest to [t], the even one of two that are equally near. *)
Definition rne (t : Q) : Z :=
  let k := Qfloor t in
  match Qcompare (t - inject_Z k) (1 # 2) with
  | Lt => k
  | Gt => (k + 1)%Z
  | Eq => if Z.even k then k else (k + 1)%Z
  end.

(** The nearest to [t >= 0] among the integers [m * 2^j] with
    [m < 2^prec]: [j] is 0 below [2^prec], and grows by one with every
    binade above. *)
Definition shift (prec : Z) (t : Q) : Z :=
  Z.max 0 (Z.log2 (Qfloor t) - (prec - 1)).

Definition roundInt (prec : Z) (t : Q) : Z :=
  let j := shift prec t in
  (rne (t / inject_Z (2 ^ j)) * 2 ^ j)%Z.

Definition roundZ (prec : Z) (t : Q) : Z :=
  if Qle_bool 0 t then roundInt prec t else (- roundInt prec (- t))%Z.

Definition roundQ (prec sub : Z) (x : Q) : Q :=
  inject_Z (roundZ prec (x * inject_Z (2 ^ sub))) / inject_Z (2 ^ sub).

Definition roundQc (prec sub : Z) (x : Qc) : Qc := Q2Qc (roundQ prec sub x).

Definition round (prec sub : Z) (x : num) : num :=
  match x with
  | Fin q => Fin (roundQc prec sub q)
  | _ => x
  end.

(** [Math.fround], and what a store into a [Float32Array] keeps. *)
Definition fround (x : num) : num := round 24 149 x.

(** The double an operation on doubles returns for the exact result [x]. *)
Definition round64 (x : num) : num := round 53 1074 x.

End Ieee.

Export Ieee.

(** The runtime's [Math] functions the code calls. *)
Class MathLib : Type := {
  Math_sqrt : num -> num;
  Math_cos : num -> num;
  Math_log2 : num -> num;
  Math_hypot : num -> num -> num
}.

(** [fft.js]: [transform out data] fills [out] from the interleaved
    complex array [data] (real part at [2k], imaginary part at [2k+1]). *)
Class FFTLib : Type := {
  fft_transform : list num -> list num
}.

(** The option monad carries non-termination: [None] is a call that
    never returns. *)
Definition bind {A B : Type} (m : option A) (k : A -> option B) : option B :=
  match m with Some a => k a | None => None end.

Notation "x <- m ;; k" := (bind m (fun x => k))
  (at level 61, m at next level, right associativity).

(* ================================================================== *)
(** ** Array helpers *)

(** [a[x]] for a numeric key [x]: an element only when [x] is a
    non-negative integer inside the array, [undefined] (NaN in arithmetic)
    otherwise. *)
Definition indexOf (x : num) : option nat :=
  match x with
  | Fin q =>
      if (Zpos (Qden q) =? 1)%Z && (0 <=? Qnum q)%Z
      then Some (Z.to_nat (Qnum q)) else None
  | _ => None
  end.

Definition getAt (a : list num) (x : num) : num :=
  match indexOf x with
  | Some i => get a i
  | None => NaN
  end.

(** [a.slice(s, e)] with a numeric end. *)
Definition slice (a : list num) (s : nat) (e : num) : list num :=
  let len := Z.of_nat (length a) in
  let stop :=
    match e with
    | NaN | NegInf => 0%Z
    | PosInf => len
    | Fin q =>
        let z := Z.quot (Qnum q) (Zpos (Qden q)) in
        if (z <? 0)%Z then Z.max (len + z) 0 else Z.min z len
    end in
  firstn (Z.to_nat stop - s) (skipn s a).

(** [new Float32Array(n)]. *)
Definition zeros (n : nat) : list num := repeat zero n.

(** Indexed map: the loop [for (i = 0; i < a.length; i++) out[i] = f(i, a[i])]. *)
Definition imap {A B : Type} (f : nat -> A -> B) (a : list A) : list B :=
  map (fun p => f (fst p) (snd p)) (combine (seq 0 (length a)) a).

(* ================================================================== *)
(** ** energy.js *)

Module Energy.

(** [nextPow2]: [p <<= 1] is a 32-bit shift, so [p] runs through
    1, 2, ..., 2^30, -2^31, 0, 0, ...  The loop is given fuel. *)
Fixpoint nextPow2_loop (fuel : nat) (p n : Z) : option Z :=
  match fuel with
  | O => None
  | S fuel' =>
      if (p <? n)%Z then nextPow2_loop fuel' (shl32 p 1) n else Some p
  end.

(** After 33 tests [p] is 0 for good: 34 units of fuel decide the loop
    (see [nextPow2_loop_stable]). *)
Definition nextPow2_fuel : nat := 34.

Definition nextPow2 (n : Z) : option Z := nextPow2_loop nextPow2_fuel 1 n.

Record Features : Type := {
  energy : list num;
  centroid : list num;
  zcr : list num;
  spectralFlux : list num;
  novelty : list num
}.

Record Extraction : Type := {
  features : Features;
  frameSec : num;
  frameSize : Z;
  hop : Z;
  nFrames : Z
}.

Record Weights : Type := {
  w_energy : num;
  w_centroid : num;
  w_zcr : num;
  w_novelty : num
}.

(** The object [findBestHook] returns: it has no [scoreMin] and no
    [scoreMax] property. *)
Record Hook : Type := {
  startSec : num;
  score : num;
  hookFeatures : Features;
  hookFrameSec : num
}.

Definition dec (n d : Z) : num := ofQ (Qmake n (Z.to_pos d)).

Inductive Genre : Type := pop | hiphop | electronic | rock | acoustic.

Definition genrePresets (g : Genre) : Weights :=
  match g with
  | pop =>
      {| w_energy := dec 3 10; w_centroid := dec 3 10;
         w_zcr := dec 15 100; w_novelty := dec 25 100 |}
  | hiphop =>
      {| w_energy := dec 4 10; w_centroid := dec 2 10;
         w_zcr := dec 25 100; w_novelty := dec 15 100 |}
  | electronic =>
      {| w_energy := dec 25 100; w_centroid := dec 25 100;
         w_zcr := dec 2 10; w_novelty := dec 3 10 |}
  | rock =>
      {| w_energy := dec 45 100; w_centroid := dec 2 10;
         w_zcr := dec 2 10; w_novelty := dec 15 100 |}
  | acoustic =>
      {| w_energy := dec 2 10; w_centroid := dec 3 10;
         w_zcr := dec 1 10; w_novelty := dec 4 10 |}
  end.

Definition defaultWeights : Weights :=
  {| w_energy := dec 4 10; w_centroid := dec 2 10;
     w_zcr := dec 15 100; w_novelty := dec 25 100 |}.

(** [computeNovelty]: positive differences, then a centered moving
    average over [max(0, i-5) .. min(len-1, i+5)]. *)
Definition noveltyRaw (series : list num) : list num :=
  imap (fun i _ =>
          match i with
          | O => zero
          | S i' => nmax zero (get series i - get series i')%num
          end) series.

Definition windowSize : nat := 5.

Definition smoothAt (novelty : list num) (len i : nat) : num :=
  let lo := (i - windowSize)%nat in
  let hi := Nat.min (len - 1) (i + windowSize) in
  let '(sum, count) :=
    fold_left (fun (st : num * nat) j => (fst st + get novelty j, S (snd st))%num)
              (seq lo (S hi - lo)) (zero, O) in
  (sum / ofNat count)%num.

Definition computeNovelty (series : list num) : list num :=
  let novelty := noveltyRaw series in
  imap (fun i _ => smoothAt novelty (length series) i) series.

Definition noveltyScore (series : list num) : list num := computeNovelty series.

Section WithRuntime.
Context {M : MathLib} {F : FFTLib}.

(** [applyHannWindow], in place on [buf]. *)
Definition applyHannWindow (buf : list num) : list num :=
  let N := length buf in
  imap (fun i b =>
          let w := (dec 5 10 *
                    (one - Math_cos ((ofZ 2 * Math_PI * ofNat i)
                                     / (ofNat N - one))))%num in
          (b * w)%num) buf.

(** [computeFFT]: magnitudes of the bins [0 .. N/2). *)
Definition computeFFT (samples : list num) : list num :=
  let N := length samples in
  if (N <? 2)%nat then zeros 2
  else
    let data := flat_map (fun s => [s; zero]) samples in
    let out := fft_transform data in
    map (fun k => Math_hypot (get out (2 * k)) (get out (2 * k + 1)))
        (seq 0 (Z.to_nat (shr32 (Z.of_nat N) 1))).

(** The frame at [start]: [frame[j] = samples[start + j] ?? 0], stored
    into the [Float32Array] [frame]. *)
Definition frameAt (samples : list num) (start size : nat) : list num :=
  map (fun j => fround (nullish (nth_error samples (start + j)) zero)) (seq 0 size).

Definition frameEnergy (frame : list num) (size : nat) : num :=
  let sum := fold_left (fun s x => (s + x * x)%num) frame zero in
  Math_sqrt (sum / ofNat size)%num.

Definition eps : num := dec 1 10000.

Definition sgn (x : num) : Z :=
  if (x >? eps)%num then 1%Z else if (x <? nneg eps)%num then (-1)%Z else 0%Z.

(** One turn of the zero-crossing loop over the states [(prev, crossings)]. *)
Definition zcrStep (frame : list num) (mean : num) (st : Z * Z) (j : nat) : Z * Z :=
  let '(prev, crossings) := st in
  let curr := sgn (get frame j - mean)%num in
  let crossings' :=
    if negb (prev =? 0)%Z && negb (curr =? 0)%Z && negb (prev =? curr)%Z
    then (crossings + 1)%Z else crossings in
  let prev' :=
    if (prev =? 0)%Z && negb (curr =? 0)%Z then curr
    else if negb (curr =? 0)%Z then curr else prev in
  (prev', crossings').

Definition frameZcr (frame : list num) (size : nat) : num :=
  let mean := (sumFrom zero frame / ofNat size)%num in
  let st := fold_left (zcrStep frame mean) (seq 1 (size - 1))
                      (sgn (get frame 0 - mean)%num, 0%Z) in
  (ofZ (snd st) / (ofNat size - one))%num.

Definition frameCentroid (mags : list num) (binHz : num) : num :=
  let '(weightedSum, magSum) :=
    fold_left (fun (st : num * num) (km : nat * num) =>
                 let freq := (ofNat (fst km) * binHz)%num in
                 (fst st + freq * snd km, snd st + snd km)%num)
              (combine (seq 0 (length mags)) mags) (zero, zero) in
  if (magSum >? zero)%num then (weightedSum / magSum)%num else zero.

Definition frameFlux (mags : list num) (prevMags : option (list num)) : num :=
  match prevMags with
  | Some pm =>
      fold_left (fun flux k =>
                   let diff := (get mags k - get pm k)%num in
                   if (diff >? zero)%num then (flux + diff)%num else flux)
                (seq 0 (length mags)) zero
  | None => zero
  end.

(** The per-frame values, in the order energy, centroid, zcr, flux. *)
Definition Row : Type := (num * num * num * num)%type.

(** The frame loop; [prevMags] is threaded from one frame to the next. *)
Fixpoint frameLoop (samples : list num) (sampleRate : Z) (size hop : nat)
         (idxs : list nat) (prevMags : option (list num)) : list Row :=
  match idxs with
  | [] => []
  | i :: rest =>
      let frame := frameAt samples (i * hop) size in
      let e := frameEnergy frame size in
      let z := frameZcr frame size in
      let mags := computeFFT (applyHannWindow frame) in
      let binHz := (ofZ sampleRate / ofNat size)%num in
      let c := frameCentroid mags binHz in
      let f := frameFlux mags prevMags in
      (e, c, z, f) :: frameLoop samples sampleRate size hop rest (Some mags)
  end.

Definition targetSize (sampleRate : Z) (frameSec : Qc) : Z :=
  Z.max 2 (Qfloor (Q2Qc (inject_Z sampleRate) * frameSec)%Qc).

Definition frameCount (len frameSize hop : Z) : Z :=
  Z.max 1 ((len - frameSize) / hop + 1)%Z.

Definition extractAllFeatures (samples : list num) (sampleRate : Z)
           (frameSec : Qc) : option Extraction :=
  frameSize <- nextPow2 (targetSize sampleRate frameSec) ;;
  let hop := (frameSize / 2)%Z in
  let nFrames := frameCount (Z.of_nat (length samples)) frameSize hop in
  let rows := frameLoop samples sampleRate (Z.to_nat frameSize) (Z.to_nat hop)
                        (seq 0 (Z.to_nat nFrames)) None in
  let energy := map (fun r : Row => fst (fst (fst r))) rows in
  Some {| features :=
            {| energy := energy;
               centroid := map (fun r : Row => snd (fst (fst r))) rows;
               zcr := map (fun r : Row => snd (fst r)) rows;
               spectralFlux := map (fun r : Row => snd r) rows;
               novelty := computeNovelty energy |};
          frameSec := (ofZ hop / ofZ sampleRate)%num;
          frameSize := frameSize;
          hop := hop;
          nFrames := nFrames |}.

(** Legacy extraction. *)
Definition rmsFrame (samples : list num) (off frame : nat) : num :=
  let sum :=
    fold_left (fun sum j =>
                 let s := match nth_error samples (off + j) with
                          | Some v => orElse v zero
                          | None => zero
                          end in
                 (sum + s * s)%num)
              (seq 0 frame) zero in
  Math_sqrt (sum / ofNat frame)%num.

Definition rmsSeries (samples : list num) (sampleRate : Z) (frameSec : Qc)
  : option (list num * num) :=
  frame <- nextPow2 (targetSize sampleRate frameSec) ;;
  let hop := (frame / 2)%Z in
  let n := frameCount (Z.of_nat (length samples)) frame hop in
  let out := map (fun i => rmsFrame samples (i * Z.to_nat hop) (Z.to_nat frame))
                 (seq 0 (Z.to_nat n)) in
  Some (out, (ofZ frame / ofZ sampleRate)%num).

Definition spectralCentroid (samples : list num) (sampleRate : Z) (frameSec : Qc)
  : option (list num) :=
  result <- extractAllFeatures samples sampleRate frameSec ;;
  Some (centroid (features result)).

(** [zeroCrossingRate]; only its [ratio] and [frameSec] are kept. *)
Definition zeroCrossingRate (samples : list num) (sampleRate : Z) (frameSec : Qc)
  : option (list num * num) :=
  result <- extractAllFeatures samples sampleRate frameSec ;;
  Some (zcr (features result), (ofZ (frameSize result) / ofZ sampleRate)%num).

End WithRuntime.

(** [normalize], the min-max scaling local to [findBestHook]. *)
Definition minMax (arr : list num) : num * num :=
  fold_left (fun (st : num * num) x =>
               (if (x <? fst st)%num then x else fst st,
                if (x >? snd st)%num then x else snd st))
            arr (PosInf, NegInf).

Definition normalize (arr : list num) : list num :=
  let '(min, max) := minMax arr in
  let range := orElse (max - min)%num one in
  map (fun x => ((x - min) / range)%num) arr.

(** Prefix sums: [ps[0] = 0], [ps[i + 1] = ps[i] + scores[i]], every one
    stored into the [Float32Array] [ps]. *)
Fixpoint prefixFrom (acc : num) (scores : list num) : list num :=
  match scores with
  | [] => []
  | x :: rest => fround (acc + x)%num :: prefixFrom (fround (acc + x)%num) rest
  end.

Definition prefixSums (scores : list num) : list num :=
  zero :: prefixFrom zero scores.

(** The scan [for (i = 0; cond(i); i++) if (value(i) > best) ...], started
    at [i] with the current [best] and [bestIdx]. *)
Fixpoint windowScan (fuel : nat) (cond : nat -> bool) (value : nat -> num)
         (i : nat) (best : num) (bestIdx : nat) : num * nat :=
  match fuel with
  | O => (best, bestIdx)
  | S fuel' =>
      if cond i then
        let avg := value i in
        if (avg >? best)%num
        then windowScan fuel' cond value (S i) avg i
        else windowScan fuel' cond value (S i) best bestIdx
      else (best, bestIdx)
  end.

(** The value [findBestHook] gives the window starting at [i]: the
    difference, the quotient, the bonus and the sum are doubles, and 0.2
    is the double nearest to it. *)
Definition windowValue (ps N : list num) (win : num) (i : nat) : num :=
  let entrance :=
    match i with
    | O => zero
    | S i' => round64 (get N i' * round64 (dec 2 10))%num
    end in
  round64 (round64 (round64 (getAt ps (ofNat i + win) - get ps i) / win)
           + entrance)%num.

(** The pieces of [findBestHook] once the features are known: the common
    length [L], the per-frame scores, and the window length in frames. *)
Definition commonLength (f : Features) : nat :=
  Nat.min (Nat.min (length (energy f)) (length (centroid f)))
          (Nat.min (length (zcr f)) (length (novelty f))).

Definition frameScores (weights : Weights) (E C Z N : list num) (L : nat) : list num :=
  map (fun i => (w_energy weights * get E i
                 + w_centroid weights * get C i
                 + w_zcr weights * get Z i
                 + w_novelty weights * get N i)%num)
      (seq 0 L).

Definition windowFrames (windowSec frameSec : num) : num :=
  nmax one (nfloor (windowSec / frameSec)%num).

(** [findBestHook] from the point where the features are known; the
    [features] it returns have no [spectralFlux]. *)
Definition bestHookOf (f : Features) (frameSec windowSec : num)
           (weights : Weights) : Hook :=
  let L := commonLength f in
  let E := normalize (firstn L (energy f)) in
  let C := normalize (firstn L (centroid f)) in
  let Z := normalize (firstn L (zcr f)) in
  let N := normalize (firstn L (novelty f)) in
  let scores := frameScores weights E C Z N L in
  let win := windowFrames windowSec frameSec in
  let ps := prefixSums scores in
  let '(best, bestIdx) :=
    windowScan (S L) (fun i => (ofNat i + win <=? ofNat L)%num)
               (windowValue ps N win) 0 NegInf 0 in
  let stop := (ofNat bestIdx + win)%num in
  {| startSec := (ofNat bestIdx * frameSec)%num;
     score := best;
     hookFeatures :=
       {| energy := slice E bestIdx stop;
          centroid := slice C bestIdx stop;
          zcr := slice Z bestIdx stop;
          spectralFlux := [];
          novelty := slice N bestIdx stop |};
     hookFrameSec := frameSec |}.

Section WithRuntime2.
Context {M : MathLib} {F : FFTLib}.

(** [findBestHook]; the legacy branch builds a [features] object without
    [spectralFlux]. *)
Definition findBestHook (samples : list num) (sampleRate : Z) (windowSec : num)
           (weights : Weights) (useUnifiedExtraction : bool) : option Hook :=
  fs <- (if useUnifiedExtraction then
           result <- extractAllFeatures samples sampleRate (Q2Qc (1 # 10)) ;;
           Some (features result, frameSec result)
         else
           rms <- rmsSeries samples sampleRate (Q2Qc (1 # 10)) ;;
           centroid <- spectralCentroid samples sampleRate (Q2Qc (1 # 10)) ;;
           zc <- zeroCrossingRate samples sampleRate (Q2Qc (464 # 10000)) ;;
           Some ({| energy := fst rms;
                    centroid := centroid;
                    zcr := fst zc;
                    spectralFlux := [];
                    novelty := noveltyScore (fst rms) |}, snd rms)) ;;
  Some (bestHookOf (fst fs) (snd fs) windowSec weights).

End WithRuntime2.

(** [bestWindowStartSec]: a running window sum, of doubles. *)
Definition bestWindowStep (series : list num) (win : num)
           (st : num * num * num) (i : nat) : num * num * num :=
  let '(bestSum, bestIdx, curr) := st in
  let curr := round64 (curr + get series i)%num in
  let curr := if nge (ofNat i) win
              then round64 (curr - getAt series (ofNat i - win))%num else curr in
  if nge (ofNat i) (win - one)%num && (curr >? bestSum)%num
  then (curr, (ofNat i - win + one)%num, curr)
  else (bestSum, bestIdx, curr).

Definition bestWindowStartIdx (series : list num) (win : num) : num :=
  snd (fst (fold_left (bestWindowStep series win) (seq 0 (length series))
                      (NegInf, zero, zero))).

Definition bestWindowStartSec (series : list num) (frameSec windowSec : num) : num :=
  let win := nmax one (nround (windowSec / frameSec)%num) in
  (bestWindowStartIdx series win * frameSec)%num.

(** [decodeMonoWav] from the decoded channels on.  One channel is returned
    as it is.  Otherwise [reduce], called without an initial value, starts
    from channel 0 and folds the other channels in, dividing by the number
    of channels at every step; on no channel at all it throws ([None]). *)
Definition mixStep (n : nat) (a ch : list num) : list num :=
  imap (fun i v => ((v + get ch i) / ofNat n)%num) a.

Definition mixDown (channelData : list (list num)) : option (list num) :=
  match channelData with
  | [c] => Some c
  | [] => None
  | c :: rest => Some (fold_left (mixStep (length channelData)) rest c)
  end.

End Energy.

(* ================================================================== *)
(** ** sections.js *)

Module Sections.

Fixpoint nextPow2_loop (fuel : nat) (p n : Z) : option Z :=
  match fuel with
  | O => None
  | S fuel' =>
      if (p <? n)%Z then nextPow2_loop fuel' (shl32 p 1) n else Some p
  end.

Definition nextPow2 (n : Z) : option Z := nextPow2_loop 34 1 n.

(** [safeCell]: a missing row or an outside column reads as 0. *)
Definition safeCell (S : list (list num)) (r : nat) (c : num) : num :=
  match nth_error S r with
  | None => zero
  | Some row =>
      if nge c zero && (c <? ofNat (length row))%num
      then getAt row c else zero
  end.

(** [smooth1D]: a centered moving average over [i - half .. i + half],
    [half = floor(win / 2)], skipping the indices outside [x]. *)
Definition smoothCell (x : list num) (half : Z) (i : nat) : num :=
  let '(s, c) :=
    fold_left (fun (st : num * Z) (j : Z) =>
                 if (j <? 0)%Z || (Z.of_nat (length x) <=? j)%Z then st
                 else ((fst st + get x (Z.to_nat j))%num, (snd st + 1)%Z))
              (map (fun t => (Z.of_nat i - half + Z.of_nat t)%Z)
                   (seq 0 (Z.to_nat (2 * half + 1))))
              (zero, 0%Z) in
  (s / orElse (ofZ c) one)%num.

Definition smooth1D (x : list num) (win : Z) : list num :=
  match x with
  | [] => x
  | _ =>
      if (win <=? 1)%Z then x
      else imap (fun i _ => smoothCell x (win / 2)%Z i) x
  end.

(** The values [d] takes in [for (d = minLag; d <= maxLag; d += lagStep)];
    [None] when the loop never ends. *)
Definition lagRange (minLag maxLag lagStep : num) : option (list num) :=
  if negb (minLag <=? maxLag)%num then Some []
  else
    match lagStep, minLag, maxLag with
    | NaN, _, _ => Some [minLag]
    | PosInf, NegInf, _ => Some [minLag]
    | PosInf, _, PosInf => None
    | PosInf, _, _ => Some [minLag]
    | NegInf, PosInf, _ => Some [minLag]
    | NegInf, _, _ => None
    | Fin s, Fin a, Fin b =>
        if qltb (Q2Qc 0) s
        then Some (map (fun t => Fin (a + Q2Qc (inject_Z (Z.of_nat t)) * s)%Qc)
                       (seq 0 (Z.to_nat (Qfloor ((b - a) / s)%Qc + 1))))
        else None
    | Fin _, _, _ => None
    end.

(** Number of turns of [for (k = 0; k < W; k++)]. *)
Definition turns (W : num) : nat :=
  match W with
  | Fin q => Z.to_nat (Qceiling q)
  | _ => 0
  end.

Record Opts : Type := {
  o_frameSec : option num;
  o_minLagSec : option num;
  o_maxLagSec : option num;
  o_lagStepSec : option num;
  o_bidirectional : option bool
}.

Definition noOpts : Opts :=
  {| o_frameSec := None; o_minLagSec := None; o_maxLagSec := None;
     o_lagStepSec := None; o_bidirectional := None |}.

(** The stripe sum [sum over k < W of safeCell(S, r0 + k, c0 + k)]. *)
Definition stripeSum (S : list (list num)) (W : num) (r0 : nat) (c0 : num) : num :=
  fold_left (fun stripe k => (stripe + safeCell S (r0 + k) (c0 + ofNat k))%num)
            (seq 0 (turns W)) zero.

(** The forward and the backward lag loops of frame [i], over the
    accumulators [(sum, count)]. *)
Definition forwardStep (S : list (list num)) (N : nat) (W : num) (i : nat)
           (st : num * Z) (d : num) : num * Z :=
  if (ofNat i + d + W >? ofNat N)%num then st
  else ((fst st + stripeSum S W i (ofNat i + d) / W)%num, (snd st + 1)%Z).

Definition backwardStep (S : list (list num)) (N : nat) (W : num) (i : nat)
           (st : num * Z) (d : num) : num * Z :=
  if (ofNat i - d <? zero)%num || (ofNat i - d + W >? ofNat N)%num then st
  else ((fst st + stripeSum S W i (ofNat i - d) / W)%num, (snd st + 1)%Z).

Definition frameAccum (S : list (list num)) (N : nat) (W : num) (lags : list num)
           (bidir : bool) (i : nat) : num * Z :=
  let st := fold_left (forwardStep S N W i) lags (zero, 0%Z) in
  if bidir then fold_left (backwardStep S N W i) lags st else st.

(** [R[i]] before the final normalization. *)
Definition rawScore (S : list (list num)) (N : nat) (W : num) (lags : list num)
           (bidir : bool) (i : nat) : num :=
  let '(sum, count) := frameAccum S N W lags bidir i in
  if (count =? 0)%Z then zero else (sum / ofZ count)%num.

Definition minMax (R : list num) : num * num :=
  fold_left (fun (st : num * num) x =>
               (if (x <? fst st)%num then x else fst st,
                if (x >? snd st)%num then x else snd st))
            R (PosInf, NegInf).

Definition normalize01 (R : list num) : list num :=
  let '(mn, mx) := minMax R in
  let rng := orElse (mx - mn)%num one in
  map (fun x => ((x - mn) / rng)%num) R.

Definition windowFrames (w : num) (N : nat) : num :=
  nmax one (nmin w (ofNat N)).

Definition lagsOf (opts : Opts) : option (list num) :=
  let frameSec := nullish (o_frameSec opts) (ofQ (464 # 10000)) in
  let minLagSec := nullish (o_minLagSec opts) (ofZ 6) in
  let maxLagSec := nullish (o_maxLagSec opts) (ofZ 45) in
  let lagStepSec := nullish (o_lagStepSec opts) (ofQ (25 # 100)) in
  let minLag := nmax one (nround (minLagSec / frameSec)%num) in
  let maxLag := nmax (minLag + one)%num (nround (maxLagSec / frameSec)%num) in
  let lagStep := nmax one (nround (lagStepSec / frameSec)%num) in
  lagRange minLag maxLag lagStep.

Definition bidirOf (opts : Opts) : bool :=
  match o_bidirectional opts with Some b => b | None => true end.

(** [repetitionScore] up to, and excluding, the normalization to [0,1]. *)
Definition repetitionRaw (S : list (list num)) (w : num) (opts : Opts)
  : option (list num) :=
  let N := length S in
  match N with
  | O => Some []
  | _ =>
      let W := windowFrames w N in
      lags <- lagsOf opts ;;
      Some (map (rawScore S N W lags (bidirOf opts)) (seq 0 N))
  end.

Definition repetitionScore (S : list (list num)) (w : num) (opts : Opts)
  : option (list num) :=
  R <- repetitionRaw S w opts ;;
  Some (normalize01 R).

Section WithRuntime.
Context {M : MathLib} {F : FFTLib}.

Definition hann (N : nat) : list num :=
  map (fun i => (ofQ (5 # 10) *
                 (one - Math_cos ((ofZ 2 * Math_PI * ofNat i)
                                  / (ofNat N - one))))%num)
      (seq 0 N).

(** [cos]: the three sums run over the indices of [a]. *)
Definition cos (a b : list num) : num :=
  let '(dot, na, nb) :=
    fold_left (fun (st : num * num * num) i =>
                 let '(dot, na, nb) := st in
                 ((dot + get a i * get b i)%num,
                  (na + get a i * get a i)%num,
                  (nb + get b i * get b i)%num))
              (seq 0 (length a)) (zero, zero, zero) in
  let d := orElse (Math_sqrt na * Math_sqrt nb)%num one in
  (dot / d)%num.

(** [selfSimilarity]: every row is a [Float32Array]. *)
Definition selfSimilarity (C : list (list num)) : list (list num) :=
  map (fun ci => map (fun cj => fround (cos ci cj)) C) C.

Definition stftTarget (sampleRate : Z) (frameSec : Qc) : Z :=
  Z.max 2 (Qfloor (Q2Qc (inject_Z sampleRate) * frameSec)%Qc).

Definition stftHop (N : Z) (hopRatio : Qc) : Z :=
  Z.max 1 (Qfloor (Q2Qc (inject_Z N) * hopRatio)%Qc).

Definition stftFrames (len N H : Z) : Z :=
  Z.max 1 ((len - N) / H + 1)%Z.

(** The magnitudes of the frame at sample offset [off]. *)
Definition stftFrame (samples W : list num) (N off : nat) : list num :=
  let buf :=
    flat_map (fun j =>
                let s := match nth_error samples (off + j) with
                         | Some v => orElse v zero
                         | None => zero
                         end in
                [(s * get W j)%num; zero])
             (seq 0 N) in
  let out := fft_transform buf in
  map (fun k => Math_hypot (get out (2 * k)) (get out (2 * k + 1)))
      (seq 0 (Z.to_nat (shr32 (Z.of_nat N) 1))).

Definition stftMag (samples : list num) (sampleRate : Z) (frameSec hopRatio : Qc)
  : option (list (list num) * num) :=
  N <- nextPow2 (stftTarget sampleRate frameSec) ;;
  let H := stftHop N hopRatio in
  let W := hann (Z.to_nat N) in
  let frames := stftFrames (Z.of_nat (length samples)) N H in
  let mags := map (fun i => stftFrame samples W (Z.to_nat N) (i * Z.to_nat H))
                  (seq 0 (Z.to_nat frames)) in
  Some (mags, (ofZ N / ofZ sampleRate)%num).

(** [chroma[cls] += m]; a class that is not a number names no element. *)
Definition addAt (chroma : list num) (cls : option nat) (m : num) : list num :=
  match cls with
  | Some c => imap (fun i x => if (i =? c)%nat then (x + m)%num else x) chroma
  | None => chroma
  end.

Definition pitchClass (pitch : num) : option nat :=
  match nround pitch with
  | Fin q => Some (Z.to_nat ((Z.rem (Qfloor q) 12 + 12) mod 12))
  | _ => None
  end.

Definition chromaFromMag (mag : list num) (sampleRate : Z) : list num :=
  let n := length mag in
  let chroma :=
    fold_left (fun chroma k =>
                 let freq := ((ofNat k * ofZ sampleRate) / (ofZ 2 * ofNat n))%num in
                 if (freq <? ofZ 80)%num || (freq >? ofZ 5000)%num then chroma
                 else
                   let pitch := (ofZ 69 + ofZ 12 * Math_log2 (freq / ofZ 440))%num in
                   addAt chroma (pitchClass pitch) (get mag k))
              (seq 1 (n - 1)) (zeros 12) in
  let s := fold_left (fun s x => (s + x * x)%num) chroma zero in
  let norm := orElse (Math_sqrt s) one in
  map (fun x => (x / norm)%num) chroma.

Definition chromaSeries (samples : list num) (sampleRate : Z) (frameSec hopRatio : Qc)
  : option (list (list num) * num) :=
  r <- stftMag samples sampleRate frameSec hopRatio ;;
  Some (map (fun m => chromaFromMag m sampleRate) (fst r), snd r).

End WithRuntime.

(** The object [findChorusHook] returns. *)
Record ChorusHook : Type := {
  startSec : num;
  score : num;
  scoreMin : num;
  scoreMax : num;
  frameSec : num;
  repetition : list num
}.

(** The window search of [findChorusHook], with the running range. *)
Fixpoint chorusScan (fuel : nat) (cond : nat -> bool) (value : nat -> num)
         (i : nat) (st : num * nat * num * num) : num * nat * num * num :=
  match fuel with
  | O => st
  | S fuel' =>
      if cond i then
        let '(best, bestIdx, scoreMin, scoreMax) := st in
        let score := value i in
        let '(best, bestIdx) :=
          if (score >? best)%num then (score, i) else (best, bestIdx) in
        let scoreMin := if (score <? scoreMin)%num then score else scoreMin in
        let scoreMax := if (score >? scoreMax)%num then score else scoreMax in
        chorusScan fuel' cond value (S i) (best, bestIdx, scoreMin, scoreMax)
      else st
  end.

(** The value [findChorusHook] gives the window starting at [i]: the
    difference and the quotient are doubles. *)
Definition chorusValue (ps : list num) (W : num) (i : nat) : num :=
  round64 (round64 (getAt ps (ofNat i + W) - get ps i) / W)%num.

Definition safeDefault (frameSec : num) (R : list num) : ChorusHook :=
  {| startSec := zero; score := zero; scoreMin := zero; scoreMax := one;
     frameSec := frameSec; repetition := R |}.

(** [findChorusHook] from the chroma sequence on. *)
Definition chorusHookOf {M : MathLib} (C : list (list num)) (frameSec windowSec : num)
  : option ChorusHook :=
  match C with
  | [] => Some (safeDefault (ofQ (464 # 10000)) [])
  | _ =>
      let w := nmax (ofZ 8) (nfloor (windowSec / frameSec)%num) in
      let SS := selfSimilarity C in
      Rraw <- repetitionScore SS w
                {| o_frameSec := Some frameSec;
                   o_minLagSec := Some (ofZ 6);
                   o_maxLagSec :=
                     Some (nmin (ofZ 60) (nmax (ofZ 30) (ofZ 3 * windowSec)%num));
                   o_lagStepSec := Some (ofQ (25 # 100));
                   o_bidirectional := Some true |} ;;
      let R := smooth1D Rraw 5 in
      let ps := Energy.prefixSums R in
      let W := nmax one (nmin w (ofNat (length R))) in
      let '(best, bestIdx, scoreMin, scoreMax) :=
        chorusScan (S (length R))
                   (fun i => (ofNat i + W <=? ofNat (length R))%num)
                   (chorusValue ps W) 0 (NegInf, O, PosInf, NegInf) in
      if negb (isFinite best) then Some (safeDefault frameSec R)
      else
        Some {| startSec := (ofNat bestIdx * frameSec)%num;
                score := best;
                scoreMin := scoreMin;
                scoreMax := scoreMax;
                frameSec := frameSec;
                repetition := R |}
  end.

Definition findChorusHook {M : MathLib} {F : FFTLib}
           (samples : list num) (sampleRate : Z) (windowSec : num)
  : option ChorusHook :=
  r <- chromaSeries samples sampleRate (Q2Qc (464 # 10000)) (Q2Qc (5 # 10)) ;;
  chorusHookOf (fst r) (snd r) windowSec.

End Sections.

(* ================================================================== *)
(** ** index.js: the method selector of [main] *)

Module Index.

Inductive Method : Type := energy | chorus.

(** [argv.method]: any string but ['chorus'] and ['energy'] runs the
    comparison. *)
Inductive MethodArg : Type := argChorus | argEnergy | argAuto.

(** What the selector reads of a candidate object; a property the object
    does not have is [None]. *)
Record Candidate : Type := {
  c_startSec : num;
  c_score : num;
  c_scoreMin : option num;
  c_scoreMax : option num;
  c_frameSec : num
}.

Definition ofEnergy (a : Energy.Hook) : Candidate :=
  {| c_startSec := Energy.startSec a;
     c_score := Energy.score a;
     c_scoreMin := None;
     c_scoreMax := None;
     c_frameSec := Energy.hookFrameSec a |}.

Definition ofChorus (b : Sections.ChorusHook) : Candidate :=
  {| c_startSec := Sections.startSec b;
     c_score := Sections.score b;
     c_scoreMin := Some (Sections.scoreMin b);
     c_scoreMax := Some (Sections.scoreMax b);
     c_frameSec := Sections.frameSec b |}.

(** [chosen]: the candidate's properties, [method] and [normScore]. *)
Record Chosen : Type := {
  method : Method;
  startSec : num;
  score : num;
  normScore : option num;
  frameSec : num
}.

Definition choose (m : Method) (c : Candidate) (normScore : option num) : Chosen :=
  {| method := m; startSec := c_startSec c; score := c_score c;
     normScore := normScore; frameSec := c_frameSec c |}.

Definition norm (s lo hi : num) : num := ((s - lo) / orElse (hi - lo) one)%num.

(** [norm(x.score, x.scoreMin ?? x.score, x.scoreMax ?? x.score + 1e-9)]. *)
Definition normOf (x : Candidate) : num :=
  norm (c_score x)
       (nullish (c_scoreMin x) (c_score x))
       (nullish (c_scoreMax x) (c_score x + ofQ (1 # 1000000000))%num).

Definition bias : num := ofQ (105 # 100).

(** The [auto] branch once both candidates are known. *)
Definition selectAuto (a : Candidate) (b : option Candidate) : Chosen :=
  match b with
  | None => choose energy a (Some one)
  | Some b =>
      let aN := normOf a in
      let bN := normOf b in
      if (bN >? aN * bias)%num then choose chorus b (Some bN)
      else choose energy a (Some aN)
  end.

(** Step 4 of [main]: pick the method. *)
Definition pickMethod {M : MathLib} {F : FFTLib} (method : MethodArg)
           (chorusAvail : bool) (mono : list num) (sampleRate : Z)
           (duration : num) (preset : Energy.Weights) : option Chosen :=
  match method with
  | argChorus =>
      if chorusAvail then
        b <- Sections.findChorusHook mono sampleRate duration ;;
        Some (choose chorus (ofChorus b) None)
      else
        a <- Energy.findBestHook mono sampleRate duration preset true ;;
        Some (choose energy (ofEnergy a) None)
  | argEnergy =>
      a <- Energy.findBestHook mono sampleRate duration preset true ;;
      Some (choose energy (ofEnergy a) None)
  | argAuto =>
      a <- Energy.findBestHook mono sampleRate duration preset true ;;
      if chorusAvail then
        b <- Sections.findChorusHook mono sampleRate duration ;;
        Some (selectAuto (ofEnergy a) (Some (ofChorus b)))
      else Some (selectAuto (ofEnergy a) None)
  end.

(** Step 5 of [main], the guard rails: a clip that would end after the
    track is moved back, not before the start of the track.  The
    quotient, the sum and the difference are doubles. *)
Definition guardRails (startSec duration : num) (len : nat) (sampleRate : Z) : num :=
  let approxDur := round64 (ofNat len / ofZ sampleRate)%num in
  if (round64 (startSec + duration) >? approxDur)%num
  then nmax zero (round64 (approxDur - duration)%num)
  else startSec.

Import Ascii String.

(** [SPARKS[k]]: the eight block characters U+2581 .. U+2588, as their
    UTF-8 bytes.  Any other index reads [undefined], which [+=] appends as
    the text "undefined". *)
Definition bar (k : nat) : string :=
  String (ascii_of_nat 226)
    (String (ascii_of_nat 150) (String (ascii_of_nat (129 + k)) EmptyString)).

Definition sparkAt (x : num) : string :=
  match indexOf x with
  | Some k => if (k <? 8)%nat then bar k else "undefined"%string
  | None => "undefined"%string
  end.

(** The loop [for (i = 0; i < arr.length; i += step)] of [spark]; [step]
    is at least 1 or NaN, so the loop ends within [arr.length] turns. *)
Fixpoint sparkLoop (fuel : nat) (arr : list num) (mn rng step i : num) : string :=
  match fuel with
  | O => EmptyString
  | S fuel' =>
      if (i <? ofNat (List.length arr))%num then
        let t := ((getAt arr i - mn) / rng)%num in
        append (sparkAt (nmin (ofZ 7) (nmax JsNum.zero (nfloor (t * ofZ 7)%num))))
               (sparkLoop fuel' arr mn rng step (i + step)%num)
      else EmptyString
  end.

Definition spark (arr : list num) (width : num) : string :=
  match arr with
  | [] => EmptyString
  | _ =>
      let '(mn, mx) :=
        fold_left (fun (st : num * num) v =>
                     (if (v <? fst st)%num then v else fst st,
                      if (v >? snd st)%num then v else snd st))
                  arr (PosInf, NegInf) in
      let rng := orElse (mx - mn)%num JsNum.one in
      let step := nmax JsNum.one (nfloor (ofNat (List.length arr) / width)%num) in
      sparkLoop (List.length arr) arr mn rng step JsNum.zero
  end.

End Index.

(* ================================================================== *)
(** ** ffmpegs.js: the escape helpers

    Strings are byte strings (UTF-8); the five characters the helpers
    look for are ASCII. *)

Module Ffmpegs.

Import Ascii String.

Definition backslash : ascii := ascii_of_nat 92.
Definition slash : ascii := ascii_of_nat 47.
Definition colon : ascii := ascii_of_nat 58.
Definition quote : ascii := ascii_of_nat 39.
Definition lbracket : ascii := ascii_of_nat 91.
Definition rbracket : ascii := ascii_of_nat 93.

Definition str1 (c : ascii) : string := String c EmptyString.
Definition escaped (c : ascii) : string := String backslash (str1 c).

(** [s.replace(/c/g, r)] for a pattern of one character. *)
Fixpoint replaceAll (c : ascii) (r : string) (s : string) : string :=
  match s with
  | EmptyString => EmptyString
  | String x s' =>
      if Ascii.eqb x c then append r (replaceAll c r s')
      else String x (replaceAll c r s')
  end.

Definition escText (t : string) : string :=
  replaceAll rbracket (escaped rbracket)
    (replaceAll lbracket (escaped lbracket)
       (replaceAll quote (escaped quote)
          (replaceAll colon (escaped colon)
             (replaceAll backslash (escaped backslash) t)))).

Definition escPathForFilter (p : string) : string :=
  append (str1 quote)
    (append (replaceAll quote (escaped quote)
               (replaceAll colon (escaped colon)
                  (replaceAll backslash (str1 slash) p)))
            (str1 quote)).

End Ffmpegs.

(* ================================================================== *)
(** ** scripts/eval.js: the pick of [analyzeOne] *)

Module Eval.

(** [(b.score > a.score * 1.05) ? chorus : energy], on the raw scores. *)
Definition pick (a : Energy.Hook) (b : Sections.ChorusHook) : Index.Method :=
  if (Sections.score b >? Energy.score a * ofQ (105 # 100))%num
  then Index.chorus else Index.energy.

End Eval.

(* ================================================================== *)
(** ** A rational runtime

    Concrete [Math] functions and a concrete transform over the rationals,
    on which the definitions above can be run: a square root that is exact
    on the squares of rationals (and elsewhere below the root by less than
    one part in [2^31]), a truncated
    cosine series rounded to 32 binary places, the integer part of the
    binary logarithm, and the naive discrete Fourier transform built on
    them. *)

Module Runtime.

Definition qsqrt (q : Qc) : Qc :=
  Q2Qc (Qmake (Z.sqrt (Qnum q * Zpos (Qden q) * 2 ^ 64)) (Qden q * 2 ^ 32)).

Definition sqrt (x : num) : num :=
  match x with
  | Fin q => if qltb q (Q2Qc 0) then NaN else Fin (qsqrt q)
  | PosInf => PosInf
  | _ => NaN
  end.

(** Rounding down to a multiple of [2^-32]. *)
Definition snap (q : Qc) : Qc :=
  Q2Qc (Qmake (Qfloor (q * Q2Qc (inject_Z (2 ^ 32)))%Qc) (2 ^ 32)).

(** [1 - x^2/2! + x^4/4! - ...], [terms] terms after the first, every
    term rounded. *)
Fixpoint cosSeries (terms : nat) (x2 term : Qc) (k : Z) : Qc :=
  match terms with
  | O => term
  | S t =>
      let next := snap (- term * x2 / Q2Qc (inject_Z ((k + 1) * (k + 2))))%Qc in
      (term + cosSeries t x2 next (k + 2))%Qc
  end.

Definition cos (x : num) : num :=
  match x with
  | Fin q => Fin (cosSeries 12 (snap (snap q * snap q)) (Q2Qc 1) 0)
  | _ => NaN
  end.

Definition log2 (x : num) : num :=
  match x with
  | Fin q =>
      match qsign q with
      | Lt => NaN
      | Eq => NegInf
      | Gt => ofZ (Z.log2 (Qnum q) - Z.log2 (Zpos (Qden q)))
      end
  | PosInf => PosInf
  | _ => NaN
  end.

Definition hypot (a b : num) : num := sqrt (a * a + b * b)%num.

Definition math : MathLib :=
  {| Math_sqrt := sqrt; Math_cos := cos; Math_log2 := log2; Math_hypot := hypot |}.

Definition halfPi : num := (Math_PI / ofZ 2)%num.

(** The angle [2 pi j / n], brought back to [-pi, pi). *)
Definition turn (j n : nat) : num :=
  let r := ((2 * j) mod (2 * n))%nat in
  let r' := if (r <? n)%nat then Z.of_nat r else (Z.of_nat r - 2 * Z.of_nat n)%Z in
  (Math_PI * ofZ r' / ofNat n)%num.

Definition cosTurn (j n : nat) : num := cos (turn j n).
Definition sinTurn (j n : nat) : num := cos (turn j n - halfPi)%num.

(** Bin [k] of the transform of the interleaved complex array [data]. *)
Definition dftBin (data : list num) (n k : nat) : list num :=
  let '(re, im) :=
    fold_left (fun (st : num * num) t =>
                 let xr := get data (2 * t) in
                 let xi := get data (2 * t + 1) in
                 let c := cosTurn (k * t) n in
                 let s := sinTurn (k * t) n in
                 ((fst st + (xr * c + xi * s))%num,
                  (snd st + (xi * c - xr * s))%num))
              (seq 0 n) (zero, zero) in
  [re; im].

Definition dft (data : list num) : list num :=
  let n := Nat.div2 (length data) in
  flat_map (dftBin data n) (seq 0 n).

Definition fft : FFTLib := {| fft_transform := dft |}.

End Runtime.

(* ================================================================== *)
(** ** Reference definitions

    What the specification says, in its own words, to compare the code
    with. *)

Module Spec.

(** Structural equality of numbers, and of arrays, as a test. *)
Definition sameNum (x y : num) : bool :=
  match x, y with
  | NaN, NaN | NegInf, NegInf | PosInf, PosInf => true
  | Fin a, Fin b => Qeq_bool a b
  | _, _ => false
  end.

Fixpoint sameList (a b : list num) : bool :=
  match a, b with
  | [], [] => true
  | x :: a', y :: b' => sameNum x y && sameList a' b'
  | _, _ => false
  end.

(** The indices [i - r .. i + r] that fall inside a series of length
    [len], in increasing order. *)
Definition clipped (r len i : nat) : list nat :=
  seq (i - r) (Nat.min len (i + r + 1) - (i - r)).

(** The centered moving average of radius [r]: at [i], the mean of [x]
    over the clipped indices. *)
Definition centeredMean (r : nat) (x : list num) (i : nat) : num :=
  let idx := clipped r (length x) i in
  (sumFrom zero (map (get x) idx) / ofNat (length idx))%num.

Definition movingAverage (r : nat) (x : list num) : list num :=
  map (centeredMean r x) (seq 0 (length x)).

(** [S[i][j]]. *)
Definition cell (S : list (list num)) (i j : nat) : num := get (nth i S []) j.

(** The sum of [a[i] * b[i]] over the first [n] indices, in order. *)
Definition dotp (a b : list num) (n : nat) : num :=
  fold_left (fun s i => (s + get a i * get b i)%num) (seq 0 n) zero.

(** The squared norm of a vector. *)
Definition sqNorm (a : list num) : num := dotp a a (length a).

(** The sum of the window of [win] values starting at [s], added up
    directly. *)
Definition windowSum (series : list num) (s win : nat) : num :=
  sumFrom zero (firstn win (skipn s series)).

(** Every start at which a whole window fits, in order. *)
Definition validStarts (len win : nat) : list nat := seq O (len + 1 - win)%nat.

(** The brute-force reference: go through the starts in order and replace
    the best only on a strictly greater value, so that the earliest of
    equal values is kept. *)
Definition keepBest (value : nat -> num) (st : num * nat) (i : nat) : num * nat :=
  if (value i >? fst st)%num then (value i, i) else st.

Definition bruteForce (value : nat -> num) (starts : list nat) : num * nat :=
  fold_left (keepBest value) starts (NegInf, O).

(** The entrance bonus of the window starting at [i], as a double. *)
Definition entranceBonus (N : list num) (i : nat) : num :=
  match i with
  | O => zero
  | S i' => round64 (get N i' * round64 (ofQ (2 # 10)))%num
  end.

(** The value of a window of [w] values whose sum is [sum], in doubles:
    the mean, and the mean with the entrance bonus. *)
Definition meanOf (w : nat) (sum : num) : num := round64 (round64 sum / ofNat w)%num.

Definition meanWithBonus (N : list num) (w : nat) (sum : num) (i : nat) : num :=
  round64 (meanOf w sum + entranceBonus N i)%num.

(** Sums of rationals, and the finite numbers they stand for. *)
Fixpoint qsum (l : list Qc) : Qc :=
  match l with
  | [] => Q2Qc 0
  | x :: l' => (x + qsum l')%Qc
  end.

Definition allFinite (l : list num) : Prop := Forall (fun x => isFinite x = true) l.

(** What the code expects of the runtime: finite results on finite
    arguments, and a transform that keeps the length of its input. *)
Record RuntimeContract (M : MathLib) (F : FFTLib) : Prop := {
  sqrt_finite : forall q, (Q2Qc 0 <= q)%Qc -> isFinite (Math_sqrt (Fin q)) = true;
  cos_finite : forall q, isFinite (Math_cos (Fin q)) = true;
  hypot_finite : forall a b, isFinite (Math_hypot (Fin a) (Fin b)) = true;
  fft_finite : forall data, allFinite data -> allFinite (fft_transform data);
  fft_length : forall data n, length data = (2 * n)%nat ->
                              length (fft_transform data) = (2 * n)%nat
}.

(** A square root within one part in [2^26] of the root: IEEE 754 asks
    more of [Math.sqrt]. *)
Definition sqrtAccurate (M : MathLib) : Prop :=
  forall q : Qc, (Q2Qc 0 < q)%Qc ->
    exists r : Qc,
      Math_sqrt (Fin q) = Fin r /\ (Q2Qc 0 < r)%Qc /\
      (q * Q2Qc (67108863 # 67108864) <= r * r)%Qc /\
      (r * r <= q * Q2Qc (67108865 # 67108864))%Qc.

(** The 10 x 10 matrix of ones (ten identical chroma vectors), a window
    of 3 frames, and the lags 6 and 7 (one frame per second). *)
Definition ones10 : list (list num) := repeat (repeat one 10) 10.

Definition lags67 : Sections.Opts :=
  {| Sections.o_frameSec := Some one;
     Sections.o_minLagSec := Some (ofZ 6);
     Sections.o_maxLagSec := Some (ofZ 7);
     Sections.o_lagStepSec := Some one;
     Sections.o_bidirectional := Some true |}.

(** The least and the greatest of the values at the given starts: the
    range a window scan observes. *)
Definition scoreRange (value : nat -> num) (starts : list nat) : num * num :=
  fold_left (fun (st : num * num) i =>
               (if (value i <? fst st)%num then value i else fst st,
                if (value i >? snd st)%num then value i else snd st))
            starts (PosInf, NegInf).

(** Six frames of features, and twenty-four chroma frames in which the
    pattern of frames 0..7 comes back at frames 12..19. *)
Definition sixFrames : Energy.Features :=
  {| Energy.energy := map ofQ [1 # 10; 2 # 10; 9 # 10; 8 # 10; 3 # 10; 1 # 10]%Q;
     Energy.centroid := map ofQ [100 # 1; 200 # 1; 400 # 1; 300 # 1; 100 # 1; 100 # 1]%Q;
     Energy.zcr := map ofQ [1 # 10; 1 # 10; 3 # 10; 2 # 10; 1 # 10; 1 # 10]%Q;
     Energy.spectralFlux := map ofQ [0 # 1; 1 # 1; 5 # 1; 1 # 1; 0 # 1; 0 # 1]%Q;
     Energy.novelty := map ofQ [0 # 1; 1 # 10; 7 # 10; 0 # 1; 0 # 1; 0 # 1]%Q |}.

Definition pitchOnly (k : nat) : list num :=
  map (fun i => if Nat.eqb i k then one else zero) (seq O 12).

Definition repeatedPattern : list (list num) :=
  map pitchOnly [0; 1; 2; 3; 4; 5; 6; 7; 8; 8; 9; 9;
                 0; 1; 2; 3; 4; 5; 6; 7; 10; 10; 11; 11]%nat.

(** The running sum [curr] of [bestWindowStartSec] after [k] turns of its
    loop: the value the code compares for the window that ends before
    [k]. *)
Fixpoint runningSum (series : list num) (win k : nat) : num :=
  match k with
  | O => zero
  | S k' =>
      let curr := round64 (runningSum series win k' + get series k')%num in
      if (win <=? k')%nat then round64 (curr - get series (k' - win))%num else curr
  end.

(** No sum is rounded by [rnd]: it leaves every sum of at most [most]
    consecutive values of the series as it is. *)
Definition exactSums (rnd : num -> num) (series : list num) (most : nat) : bool :=
  forallb (fun s =>
             forallb (fun n => sameNum (rnd (windowSum series s n)) (windowSum series s n))
                     (seq O (S most)))
          (seq O (S (length series))).

(** A binary32 value, and a buffer of them: what a [Float32Array] holds. *)
Definition isFloat32 (x : num) : bool := sameNum (fround x) x.

Definition float32Array (l : list num) : Prop := Forall (fun x => isFloat32 x = true) l.

(** One turn of the inner loop of [smooth1D]. *)
Definition cellStep (x : list num) (st : num * Z) (j : Z) : num * Z :=
  if (j <? 0)%Z || (Z.of_nat (length x) <=? j)%Z then st
  else ((fst st + get x (Z.to_nat j))%num, (snd st + 1)%Z).

Local Open Scope Z_scope.

(** [N] is the least power of two that is at least [n]. *)
Definition LeastPow2 (n N : Z) : Prop :=
  (exists k, 0 <= k /\ N = 2 ^ k) /\ n <= N /\
  (forall m, 0 <= m -> n <= 2 ^ m -> N <= 2 ^ m).

(** The frame length as the specification words it: the least power of
    two that is at least [sampleRate * frameSec], and at least 2. *)
Definition ClaimedFrameLength (sampleRate : Z) (frameSec : Qc) (N : Z) : Prop :=
  (exists k, 0 <= k /\ N = 2 ^ k) /\
  (Q2Qc (inject_Z sampleRate) * frameSec <= Q2Qc (inject_Z N))%Qc /\
  2 <= N /\
  (forall m, 0 <= m -> 2 <= 2 ^ m ->
             (Q2Qc (inject_Z sampleRate) * frameSec <= Q2Qc (inject_Z (2 ^ m)))%Qc ->
             N <= 2 ^ m).

End Spec.

(* ================================================================== *)
(** ** Ranges

    The bounds the properties below speak of, with the comparisons of the
    code. *)

Module Bounds.

Import Spec.

(** [lo <= x && x <= hi]. *)
Definition between (lo hi x : num) : bool := (lo <=? x)%num && (x <=? hi)%num.

Definition allBetween (lo hi : num) (l : list num) : Prop :=
  Forall (fun x => between lo hi x = true) l.

(** Finite and not negative. *)
Definition nonneg (x : num) : bool := isFinite x && (zero <=? x)%num.

(** A matrix all of whose cells are finite. *)
Definition finiteMatrix (S : list (list num)) : Prop := Forall allFinite S.

(** Weights that are not negative and add up to 1. *)
Definition convex (weights : Energy.Weights) : Prop :=
  exists a b c d : Qc,
    Energy.w_energy weights = Fin a /\ Energy.w_centroid weights = Fin b /\
    Energy.w_zcr weights = Fin c /\ Energy.w_novelty weights = Fin d /\
    (Q2Qc 0 <= a /\ Q2Qc 0 <= b /\ Q2Qc 0 <= c /\ Q2Qc 0 <= d)%Qc /\
    (a + b + c + d)%Qc = Q2Qc 1.

(** The weights of a run: a genre preset, or the default weights of
    [findBestHook]. *)
Definition weightsOf (g : option Energy.Genre) : Energy.Weights :=
  match g with
  | Some g => Energy.genrePresets g
  | None => Energy.defaultWeights
  end.

End Bounds.

(* ================================================================== *)
(** ** Loop bodies

    The bodies of some loops of the code, named, so that the properties
    below can speak of one turn of a loop. *)

Module Steps.

(** [if (v < mn) mn = v; if (v > mx) mx = v], in [normalize],
    [repetitionScore] and [spark]. *)
Definition mmStep (st : num * num) (x : num) : num * num :=
  (if (x <? fst st)%num then x else fst st,
   if (x >? snd st)%num then x else snd st).

(** [(x - mn) / rng], the scaling that follows. *)
Definition scale (mn rng x : num) : num := ((x - mn) / rng)%num.

(** One bin of the spectral flux. *)
Definition fluxStep (mags pm : list num) (flux : num) (k : nat) : num :=
  let diff := (get mags k - get pm k)%num in
  if (diff >? zero)%num then (flux + diff)%num else flux.

(** One bin of the spectral centroid, over [(weightedSum, magSum)]. *)
Definition centroidStep (binHz : num) (st : num * num) (km : nat * num) : num * num :=
  ((fst st + ofNat (fst km) * binHz * snd km)%num, (snd st + snd km)%num).

(** One turn of the scan of [findChorusHook]. *)
Definition chorusStep (value : nat -> num) (st : num * nat * num * num) (i : nat)
  : num * nat * num * num :=
  let '(best, bestIdx, mn, mx) := st in
  let score := value i in
  let '(best, bestIdx) := if (score >? best)%num then (score, i) else (best, bestIdx) in
  (best, bestIdx,
   if (score <? mn)%num then score else mn,
   if (score >? mx)%num then score else mx).

End Steps.

(* ================================================================== *)
(** ** Escaping in one pass

    What the escape helpers of [ffmpegs.js] are compared with: a single
    pass over the characters, and the reading back of an escaped text. *)

Module Quoting.

Import Ascii String.

(** The image of every character, one after the other. *)
Fixpoint eachChar (f : ascii -> string) (s : string) : string :=
  match s with
  | EmptyString => EmptyString
  | String c s' => append (f c) (eachChar f s')
  end.

(** The characters [escText] escapes. *)
Definition special (c : ascii) : bool :=
  Ascii.eqb c Ffmpegs.backslash || Ascii.eqb c Ffmpegs.colon
  || Ascii.eqb c Ffmpegs.quote || Ascii.eqb c Ffmpegs.lbracket
  || Ascii.eqb c Ffmpegs.rbracket.

Definition escapeChar (c : ascii) : string :=
  if special c then Ffmpegs.escaped c else Ffmpegs.str1 c.

(** The characters [escPathForFilter] escapes, and its image of a
    character: a backslash becomes a slash. *)
Definition pathSpecial (c : ascii) : bool :=
  Ascii.eqb c Ffmpegs.colon || Ascii.eqb c Ffmpegs.quote.

Definition pathChar (c : ascii) : string :=
  if Ascii.eqb c Ffmpegs.backslash then Ffmpegs.str1 Ffmpegs.slash
  else if pathSpecial c then Ffmpegs.escaped c else Ffmpegs.str1 c.

(** Reading back: a backslash makes the next character literal.  [esc]
    tells that the previous character was such a backslash. *)
Fixpoint unescape (esc : bool) (s : string) : string :=
  match s with
  | EmptyString => EmptyString
  | String c s' =>
      if esc then String c (unescape false s')
      else if Ascii.eqb c Ffmpegs.backslash then unescape true s'
      else String c (unescape false s')
  end.

(** A text in which the characters of [isSpecial] occur only behind a
    backslash, and every backslash is followed by one of them (or by a
    backslash when that is one of them). *)
Fixpoint wellEscaped (isSpecial : ascii -> bool) (esc : bool) (s : string) : bool :=
  match s with
  | EmptyString => negb esc
  | String c s' =>
      if esc then isSpecial c && wellEscaped isSpecial false s'
      else if Ascii.eqb c Ffmpegs.backslash then wellEscaped isSpecial true s'
      else negb (isSpecial c) && wellEscaped isSpecial false s'
  end.

(** A row of bars of [spark]. *)
Fixpoint bars (ks : list nat) : string :=
  match ks with
  | [] => EmptyString
  | k :: ks' => append (Index.bar k) (bars ks')
  end.

(** The indices the loop [for (i = i0; i < len; i += step)] visits in at
    most [fuel] turns. *)
Fixpoint strided (fuel len step i : nat) : list nat :=
  match fuel with
  | O => []
  | S fuel' => if (i <? len)%nat then i :: strided fuel' len step (i + step) else []
  end.

End Quoting.

(* ================================================================== *)
(** * Properties *)

(** ** The frame length: [nextPow2] *)

Module Pow2Facts.

Import Spec.
Local Open Scope Z_scope.

Lemma shl32_pow2 (k : Z) : 0 <= k < 30 -> shl32 (2 ^ k) 1 = 2 ^ (k + 1).
Proof.
  intros Hk. unfold shl32, toInt32.
  assert (H1 : 0 < 2 ^ k) by (apply Z.pow_pos_nonneg; lia).
  assert (H2 : 2 ^ k <= 2 ^ 29) by (apply Z.pow_le_mono_r; lia).
  assert (E31 : 2 ^ 31 = 4 * 2 ^ 29) by reflexivity.
  assert (E32 : 2 ^ 32 = 8 * 2 ^ 29) by reflexivity.
  rewrite Z.shiftl_mul_pow2 by lia.
  rewrite Z.pow_add_r by lia.
  change (2 ^ 1) with 2.
  rewrite E31, E32.
  set (c := 2 ^ 29) in *. set (x := 2 ^ k) in *.
  assert (Hc : c = 536870912) by reflexivity.
  rewrite (Z.mod_small (x + 4 * c) (8 * c)) by lia.
  replace (x + 4 * c - 4 * c) with x by lia.
  rewrite (Z.mod_small (x * 2 + 4 * c) (8 * c)) by lia.
  lia.
Qed.

Lemma shl32_top : shl32 (2 ^ 30) 1 = - 2 ^ 31.
Proof. reflexivity. Qed.

Lemma shl32_min : shl32 (- 2 ^ 31) 1 = 0.
Proof. reflexivity. Qed.

Lemma shl32_zero : shl32 0 1 = 0.
Proof. reflexivity. Qed.

Section Loop.

(** The two modules carry the same loop; the facts are stated once, over
    any function with the loop's equations. *)
Variable loop : nat -> Z -> Z -> option Z.
Hypothesis loop_O : forall p n, loop O p n = None.
Hypothesis loop_S : forall f p n,
  loop (S f) p n = if p <? n then loop f (shl32 p 1) n else Some p.

Lemma loop_pow2 (fuel : nat) :
  forall k n,
    0 <= k <= 30 -> n <= 2 ^ 30 -> (31 - k <= Z.of_nat fuel) ->
    (k = 0 \/ 2 ^ (k - 1) < n) ->
    exists j, k <= j <= 30 /\ loop fuel (2 ^ k) n = Some (2 ^ j) /\
              n <= 2 ^ j /\ (j = 0 \/ 2 ^ (j - 1) < n).
Proof.
  induction fuel as [|fuel IH]; intros k n Hk Hn Hf Hlow.
  - lia.
  - rewrite loop_S. destruct (Z.ltb_spec (2 ^ k) n) as [Hlt|Hge].
    + assert (k < 30).
      { destruct (Z.eq_dec k 30) as [->|]; [lia|lia]. }
      rewrite shl32_pow2 by lia.
      destruct (IH (k + 1) n) as (j & Hj & E & Hle & Hmin); try lia.
      { right. replace (k + 1 - 1) with k by lia. exact Hlt. }
      exists j. repeat split; try lia; assumption.
    + exists k. repeat split; try lia; assumption.
Qed.

Lemma loop_zero_diverges (fuel : nat) (n : Z) : 0 < n -> loop fuel 0 n = None.
Proof.
  intros Hn. induction fuel as [|fuel IH]; [apply loop_O|].
  rewrite loop_S. destruct (Z.ltb_spec 0 n); [|lia].
  rewrite shl32_zero. exact IH.
Qed.

Lemma loop_pow2_diverges (fuel : nat) :
  forall k n, 0 <= k <= 30 -> 2 ^ 30 < n -> loop fuel (2 ^ k) n = None.
Proof.
  induction fuel as [|fuel IH]; intros k n Hk Hn; [apply loop_O|].
  rewrite loop_S.
  assert (2 ^ k <= 2 ^ 30) by (apply Z.pow_le_mono_r; lia).
  destruct (Z.ltb_spec (2 ^ k) n); [|lia].
  destruct (Z.eq_dec k 30) as [->|Hne].
  - rewrite shl32_top. destruct fuel as [|fuel]; [apply loop_O|].
    rewrite loop_S. destruct (Z.ltb_spec (- 2 ^ 31) n); [|lia].
    rewrite shl32_min. apply loop_zero_diverges. lia.
  - rewrite shl32_pow2 by lia. apply IH; lia.
Qed.

(** With at most [2^30] asked for, 31 turns give the least power of two. *)
Lemma loop_least (fuel : nat) (n : Z) :
  n <= 2 ^ 30 -> (31 <= fuel)%nat ->
  exists N, loop fuel 1 n = Some N /\ LeastPow2 n N.
Proof.
  intros Hn Hf.
  destruct (@loop_pow2 fuel 0 n) as (j & Hj & E & Hle & Hmin); try lia.
  exists (2 ^ j). split; [exact E|].
  split; [exists j; split; [lia|reflexivity]|].
  split; [exact Hle|].
  intros m Hm Hnm. destruct Hmin as [->|Hlt].
  - change (2 ^ 0) with 1. assert (0 < 2 ^ m) by (apply Z.pow_pos_nonneg; lia). lia.
  - apply Z.pow_le_mono_r; [lia|].
    assert (j - 1 < m); [|lia].
    apply (Z.pow_lt_mono_r_iff 2); try lia.
Qed.

(** Above [2^30] the loop never ends, whatever the fuel. *)
Lemma loop_diverges (fuel : nat) (n : Z) : 2 ^ 30 < n -> loop fuel 1 n = None.
Proof. intros Hn. apply (@loop_pow2_diverges fuel 0 n); lia. Qed.

End Loop.

Lemma LeastPow2_unique (n N N' : Z) : LeastPow2 n N -> LeastPow2 n N' -> N = N'.
Proof.
  intros ((k & Hk & ->) & Hle & Hmin) ((k' & Hk' & ->) & Hle' & Hmin').
  specialize (Hmin k' Hk' Hle'). specialize (Hmin' k Hk Hle). lia.
Qed.

Lemma LeastPow2_ge2 (n N : Z) : 2 <= n -> LeastPow2 n N -> 2 <= N.
Proof. intros Hn (_ & Hle & _). lia. Qed.

Lemma LeastPow2_even (n N : Z) : 2 <= n -> LeastPow2 n N -> N = 2 * (N / 2).
Proof.
  intros Hn ((k & Hk & ->) & Hle & _).
  assert (k <> 0) by (intros ->; change (2 ^ 0) with 1 in Hle; lia).
  replace k with (1 + (k - 1)) by lia.
  rewrite Z.pow_add_r by lia. change (2 ^ 1) with 2.
  rewrite (Z.mul_comm 2), Z.div_mul by lia. lia.
Qed.

Lemma energy_nextPow2_least (n : Z) :
  n <= 2 ^ 30 -> exists N, Energy.nextPow2 n = Some N /\ LeastPow2 n N.
Proof.
  intros Hn. apply (@loop_least Energy.nextPow2_loop); try reflexivity; try assumption.
  unfold Energy.nextPow2_fuel. lia.
Qed.

Lemma sections_nextPow2_least (n : Z) :
  n <= 2 ^ 30 -> exists N, Sections.nextPow2 n = Some N /\ LeastPow2 n N.
Proof.
  intros Hn. apply (@loop_least Sections.nextPow2_loop); try reflexivity; try assumption.
  lia.
Qed.

Lemma energy_nextPow2_diverges (fuel : nat) (n : Z) :
  2 ^ 30 < n -> Energy.nextPow2_loop fuel 1 n = None.
Proof. apply (@loop_diverges Energy.nextPow2_loop); reflexivity. Qed.

Lemma sections_nextPow2_diverges (fuel : nat) (n : Z) :
  2 ^ 30 < n -> Sections.nextPow2_loop fuel 1 n = None.
Proof. apply (@loop_diverges Sections.nextPow2_loop); reflexivity. Qed.

(** More fuel than [nextPow2_fuel] changes nothing: [None] stands for a
    loop that does not end. *)
Lemma nextPow2_loop_stable (fuel : nat) (n : Z) :
  (Energy.nextPow2_fuel <= fuel)%nat ->
  Energy.nextPow2_loop fuel 1 n = Energy.nextPow2 n.
Proof.
  intros Hf. unfold Energy.nextPow2_fuel in Hf.
  destruct (Z_le_gt_dec n (2 ^ 30)) as [Hn|Hn].
  - assert (Hfuel : exists N, Energy.nextPow2_loop fuel 1 n = Some N /\ LeastPow2 n N).
    { apply (@loop_least Energy.nextPow2_loop); try reflexivity; try assumption. lia. }
    destruct Hfuel as (N & E & HN).
    destruct (energy_nextPow2_least Hn) as (N' & E' & HN').
    rewrite E, E'. f_equal. eapply LeastPow2_unique; eassumption.
  - unfold Energy.nextPow2.
    rewrite !energy_nextPow2_diverges by lia. reflexivity.
Qed.

End Pow2Facts.

Module FrameLength.

Local Open Scope Z_scope.
Import Spec Pow2Facts.

(** C9, as stated, fails: at 10245 Hz and 0.1 s the product is 1024.5,
    the code floors it to 1024 and keeps 1024, which is below 1024.5. *)
Lemma frame_length_below_product :
  Energy.nextPow2 (Energy.targetSize 10245 (Q2Qc (1 # 10))) = Some 1024 /\
  Sections.nextPow2 (Sections.stftTarget 10245 (Q2Qc (1 # 10))) = Some 1024 /\
  ~ ClaimedFrameLength 10245 (Q2Qc (1 # 10)) 1024.
Proof.
  split; [reflexivity|]. split; [reflexivity|].
  intros (_ & Hle & _). revert Hle. vm_compute. intros H. apply H. reflexivity.
Qed.

(** C9, amended: whenever [max(2, floor(sampleRate * frameSec))] is at
    most [2^30], both passes use the least power of two that is at least
    [max(2, floor(sampleRate * frameSec))]. *)
Theorem frame_length_least_pow2 {M : MathLib} {F : FFTLib}
        (sampleRate : Z) (frameSec : Qc) :
  Energy.targetSize sampleRate frameSec <= 2 ^ 30 ->
  exists N,
    LeastPow2 (Z.max 2 (Qfloor (Q2Qc (inject_Z sampleRate) * frameSec)%Qc)) N /\
    (forall samples,
       exists r, Energy.extractAllFeatures samples sampleRate frameSec = Some r /\
                 Energy.frameSize r = N) /\
    (forall samples hopRatio,
       exists mags, Sections.stftMag samples sampleRate frameSec hopRatio
                    = Some (mags, (ofZ N / ofZ sampleRate)%num) /\
                    forall m, In m mags -> length m = Z.to_nat (N / 2)).
Proof.
  intros Hb.
  destruct (energy_nextPow2_least Hb) as (N & E & HN).
  destruct (sections_nextPow2_least (n := Sections.stftTarget sampleRate frameSec) Hb)
    as (N' & E' & HN').
  assert (N' = N) by (eapply LeastPow2_unique; eassumption). subst N'.
  exists N. split; [exact HN|]. split.
  - intros samples. unfold Energy.extractAllFeatures. rewrite E. cbn [bind].
    eexists. split; reflexivity.
  - intros samples hopRatio. unfold Sections.stftMag. rewrite E'. cbn [bind].
    eexists. split; [reflexivity|].
    intros m Hm. apply in_map_iff in Hm. destruct Hm as (i & <- & _).
    unfold Sections.stftFrame. rewrite length_map, length_seq.
    f_equal. unfold shr32.
    assert (H2 : 2 <= N).
    { apply (LeastPow2_ge2 (n := Energy.targetSize sampleRate frameSec)); [|exact HN].
      unfold Energy.targetSize. lia. }
    assert (HNle : N <= 2 ^ 30).
    { destruct HN as (_ & _ & Hmin). apply (Hmin 30); [lia|exact Hb]. }
    rewrite Z2Nat.id by lia.
    unfold toInt32.
    rewrite Z.mod_small.
    + rewrite Z.shiftr_div_pow2 by lia. f_equal. lia.
    + change (2 ^ 31) with 2147483648. change (2 ^ 32) with 4294967296.
      change (2 ^ 30) with 1073741824 in HNle. lia.
Qed.

Lemma frame_length_least_pow2_witness :
  exists N,
    LeastPow2 (Z.max 2 (Qfloor (Q2Qc (inject_Z 22050) * Q2Qc (464 # 10000))%Qc)) N /\
    (forall samples,
       exists r, Energy.extractAllFeatures (M := Runtime.math) (F := Runtime.fft)
                   samples 22050 (Q2Qc (464 # 10000)) = Some r /\
                 Energy.frameSize r = N) /\
    (forall samples hopRatio,
       exists mags, Sections.stftMag (M := Runtime.math) (F := Runtime.fft)
                      samples 22050 (Q2Qc (464 # 10000)) hopRatio
                    = Some (mags, (ofZ N / ofZ 22050)%num) /\
                    forall m, In m mags -> length m = Z.to_nat (N / 2)).
Proof.
  apply (frame_length_least_pow2 (M := Runtime.math) (F := Runtime.fft)
           22050 (Q2Qc (464 # 10000))).
  vm_compute. discriminate.
Defined.

End FrameLength.

(** ** Facts on numbers *)

Module NumFacts.

Import Spec.

Lemma sameNum_eq (x y : num) : sameNum x y = true -> x = y.
Proof.
  destruct x as [| |a|], y as [| |b|]; simpl; try discriminate; try reflexivity.
  intros H. f_equal. apply Qc_is_canon. apply Qeq_bool_iff. exact H.
Qed.

Lemma sameNum_refl (x : num) : sameNum x x = true.
Proof. destruct x; simpl; try reflexivity. apply Qeq_bool_iff. reflexivity. Qed.

Lemma sameList_eq (a b : list num) : sameList a b = true -> a = b.
Proof.
  revert b. induction a as [|x a IH]; intros [|y b]; simpl; try discriminate.
  - reflexivity.
  - intros H. apply andb_true_iff in H. destruct H as [H1 H2].
    f_equal; [apply sameNum_eq; exact H1|apply IH; exact H2].
Qed.

Lemma sameOpt_eq (o : option (list num)) (l : list num) :
  match o with Some l' => sameList l' l | None => false end = true -> o = Some l.
Proof.
  destruct o as [l'|]; [|discriminate]. intros H. f_equal. apply sameList_eq. exact H.
Qed.

Lemma sameNum_neq (x y : num) : sameNum x y = false -> x <> y.
Proof. intros H ->. rewrite sameNum_refl in H. discriminate. Qed.

Lemma sameList_refl (a : list num) : sameList a a = true.
Proof. induction a as [|x a IH]; simpl; [reflexivity|]. rewrite sameNum_refl. exact IH. Qed.

Lemma sameList_neq (a b : list num) : sameList a b = false -> a <> b.
Proof. intros H ->. rewrite sameList_refl in H. discriminate. Qed.

Lemma qltb_lt (a b : Qc) : qltb a b = true <-> (a < b)%Qc.
Proof.
  unfold qltb. rewrite Qclt_alt.
  destruct (a ?= b)%Qc; split; intros H; try reflexivity; discriminate.
Qed.

Lemma qeqb_eq (a b : Qc) : qeqb a b = true <-> a = b.
Proof.
  unfold qeqb. rewrite Qceq_alt.
  destruct (a ?= b)%Qc; split; intros H; try reflexivity; discriminate.
Qed.

Lemma qltb_irrefl (a : Qc) : qltb a a = false.
Proof.
  destruct (qltb a a) eqn:E; [|reflexivity].
  apply qltb_lt in E. exfalso. revert E. apply Qcle_not_lt, Qcle_refl.
Qed.

Lemma qsign_eq (q : Qc) : qsign q = Eq <-> q = Q2Qc 0.
Proof. unfold qsign. symmetry. apply Qceq_alt. Qed.

Lemma nadd_comm (x y : num) : (x + y = y + x)%num.
Proof.
  destruct x, y; simpl; try reflexivity. f_equal. apply Qcplus_comm.
Qed.

Lemma nmul_comm (x y : num) : (x * y = y * x)%num.
Proof.
  destruct x as [| |a|], y as [| |b|]; simpl; try reflexivity;
    try (f_equal; apply Qcmult_comm);
    try (destruct (qsign a); reflexivity);
    try (destruct (qsign b); reflexivity).
Qed.

Lemma truthy_ofZ (z : Z) : z <> 0%Z -> truthy (ofZ z) = true.
Proof.
  intros Hz. unfold truthy, ofZ.
  destruct (qeqb (Q2Qc (inject_Z z)) (Q2Qc 0)) eqn:E; [|reflexivity].
  apply qeqb_eq in E. apply Q2Qc_eq_iff in E.
  unfold Qeq in E. simpl in E. lia.
Qed.

Lemma orElse_ofZ (z : Z) (d : num) : z <> 0%Z -> orElse (ofZ z) d = ofZ z.
Proof. intros Hz. unfold orElse. rewrite truthy_ofZ by exact Hz. reflexivity. Qed.

Lemma fin_inj (a b : Qc) : Fin a = Fin b -> a = b.
Proof.
  intros H. apply (f_equal (fun x => match x with Fin y => y | _ => a end)) in H. exact H.
Qed.

Lemma this_Q2Qc (q : Q) : (this (Q2Qc q) == q)%Q.
Proof. simpl. apply Qred_correct. Qed.

Lemma ofZ_add (a b : Z) : (ofZ a + ofZ b)%num = ofZ (a + b).
Proof.
  unfold ofZ. simpl. f_equal. unfold Qcplus. apply Q2Qc_eq_iff.
  rewrite !this_Q2Qc, inject_Z_plus. reflexivity.
Qed.

Lemma ofZ_neg (a : Z) : nneg (ofZ a) = ofZ (- a).
Proof.
  unfold ofZ. simpl. f_equal. unfold Qcopp. apply Q2Qc_eq_iff.
  rewrite !this_Q2Qc, inject_Z_opp. reflexivity.
Qed.

Lemma ofZ_sub (a b : Z) : (ofZ a - ofZ b)%num = ofZ (a - b).
Proof. unfold nsub. rewrite ofZ_neg, ofZ_add. reflexivity. Qed.

Lemma ofZ_mul (a b : Z) : (ofZ a * ofZ b)%num = ofZ (a * b).
Proof.
  unfold ofZ. simpl. f_equal. unfold Qcmult. apply Q2Qc_eq_iff.
  rewrite !this_Q2Qc, inject_Z_mult. reflexivity.
Qed.

Lemma qlt_inject (a b : Z) :
  (Q2Qc (inject_Z a) < Q2Qc (inject_Z b))%Qc <-> (a < b)%Z.
Proof.
  unfold Qclt. rewrite !this_Q2Qc. rewrite <- Zlt_Qlt. reflexivity.
Qed.

Lemma nlt_ofZ (a b : Z) : nlt (ofZ a) (ofZ b) = (a <? b)%Z.
Proof.
  unfold ofZ. simpl.
  destruct (Z.ltb_spec a b) as [H|H].
  - apply qltb_lt. apply (proj2 (qlt_inject a b)). exact H.
  - destruct (qltb _ _) eqn:E; [|reflexivity].
    apply qltb_lt in E. apply (proj1 (qlt_inject a b)) in E. lia.
Qed.

Lemma ofZ_inj (a b : Z) : ofZ a = ofZ b -> a = b.
Proof.
  unfold ofZ. intros H.
  apply (f_equal (fun x => match x with Fin q => q | _ => Q2Qc 0 end)) in H.
  cbv beta iota in H. apply (proj1 (Q2Qc_eq_iff _ _)) in H.
  apply (proj1 (inject_Z_injective a b)). exact H.
Qed.

Lemma neqb_ofZ (a b : Z) : neqb (ofZ a) (ofZ b) = (a =? b)%Z.
Proof.
  unfold ofZ. simpl. destruct (Z.eqb_spec a b) as [->|H].
  - apply qeqb_eq. reflexivity.
  - destruct (qeqb _ _) eqn:E; [|reflexivity].
    apply qeqb_eq in E. apply (proj1 (Q2Qc_eq_iff _ _)) in E.
    apply (proj1 (inject_Z_injective a b)) in E. contradiction.
Qed.

Lemma nle_ofZ (a b : Z) : nle (ofZ a) (ofZ b) = (a <=? b)%Z.
Proof.
  unfold nle. rewrite nlt_ofZ, neqb_ofZ.
  destruct (Z.ltb_spec a b), (Z.eqb_spec a b), (Z.leb_spec a b); try reflexivity; lia.
Qed.

End NumFacts.

(** Closed equations and disequations between numbers, by evaluation. *)
Ltac num_eq := apply NumFacts.sameNum_eq; vm_compute; reflexivity.
Ltac num_neq := apply NumFacts.sameNum_neq; vm_compute; reflexivity.
Ltac list_eq := apply NumFacts.sameList_eq; vm_compute; reflexivity.
Ltac opt_list_eq := apply NumFacts.sameOpt_eq; vm_compute; reflexivity.
Ltac list_neq := apply NumFacts.sameList_neq; vm_compute; reflexivity.

(** From [Qc] to [Q], where [lra] decides linear goals. *)
Ltac qc_unfold :=
  unfold Qcle, Qclt, Qcminus, Qcplus, Qcopp, Qcdiv, Qcmult, Qcinv in *.

Ltac qc_name q :=
  let v := fresh "v" in
  let H := fresh "Hv" in
  pose proof (NumFacts.this_Q2Qc q) as H; set (v := this (Q2Qc q)) in *; clearbody v.

Ltac qc2q :=
  qc_unfold;
  repeat match goal with
         | |- context [this (Q2Qc ?q)] => qc_name q
         | H : context [this (Q2Qc ?q)] |- _ => qc_name q
         end;
  change (inject_Z 0) with 0%Q in *; change (inject_Z 1) with 1%Q in *.

(** ** Rounding

    Rounding to nearest is monotone, and leaves a value of the format as
    it is. *)

Module Rounding.

Import NumFacts.
Local Open Scope Q_scope.

Lemma rne_comp (t t' : Q) : t == t' -> rne t = rne t'.
Proof.
  intros E. unfold rne. rewrite (Qfloor_comp _ _ E).
  assert (E2 : t - inject_Z (Qfloor t') == t' - inject_Z (Qfloor t')) by (rewrite E; reflexivity).
  rewrite E2. reflexivity.
Qed.

Lemma rne_cases (t : Q) :
  (rne t = Qfloor t /\ t - inject_Z (Qfloor t) <= 1 # 2) \/
  (rne t = (Qfloor t + 1)%Z /\ 1 # 2 <= t - inject_Z (Qfloor t)).
Proof.
  unfold rne. destruct (Qcompare_spec (t - inject_Z (Qfloor t)) (1 # 2)) as [E|E|E].
  - destruct (Z.even (Qfloor t)); [left|right]; split; try reflexivity; rewrite E; apply Qle_refl.
  - left. split; [reflexivity|apply Qlt_le_weak; exact E].
  - right. split; [reflexivity|apply Qlt_le_weak; exact E].
Qed.

Lemma rne_Z (z : Z) : rne (inject_Z z) = z.
Proof.
  unfold rne. rewrite Qfloor_Z.
  destruct (Qcompare_spec (inject_Z z - inject_Z z) (1 # 2)) as [E|E|E];
    [exfalso; lra|reflexivity|exfalso; lra].
Qed.

Lemma rne_mono (t t' : Q) : t <= t' -> (rne t <= rne t')%Z.
Proof.
  intros H. pose proof (Qfloor_resp_le _ _ H) as Hk.
  destruct (Z.eq_dec (Qfloor t) (Qfloor t')) as [E|NE].
  - unfold rne. rewrite <- E.
    destruct (Qcompare_spec (t - inject_Z (Qfloor t)) (1 # 2)) as [A|A|A];
      destruct (Qcompare_spec (t' - inject_Z (Qfloor t)) (1 # 2)) as [B|B|B];
      try (destruct (Z.even (Qfloor t))); try lia; exfalso; lra.
  - destruct (rne_cases t) as [[-> _]|[-> _]], (rne_cases t') as [[-> _]|[-> _]]; lia.
Qed.

Lemma rne_lower (t : Q) (z : Z) : inject_Z z <= t -> (z <= rne t)%Z.
Proof. intros H. rewrite <- (rne_Z z). apply rne_mono. exact H. Qed.

Lemma rne_upper (t : Q) (z : Z) : t <= inject_Z z -> (rne t <= z)%Z.
Proof. intros H. rewrite <- (rne_Z z). apply rne_mono. exact H. Qed.

Lemma pow2_pos (j : Z) : (0 <= j)%Z -> 0 < inject_Z (2 ^ j).
Proof.
  intros H. change 0 with (inject_Z 0). rewrite <- Zlt_Qlt. apply Z.pow_pos_nonneg; lia.
Qed.

Lemma div_pow2_Z (m j : Z) : (0 <= j)%Z -> inject_Z (m * 2 ^ j) / inject_Z (2 ^ j) == inject_Z m.
Proof.
  intros H. rewrite inject_Z_mult. apply Qdiv_mult_l.
  pose proof (pow2_pos H). lra.
Qed.

Section Round.
Variable prec : Z.
Hypothesis prec_pos : (1 <= prec)%Z.

Lemma roundInt_eq (t : Q) : roundInt prec t = (rne (t / inject_Z (2 ^ shift prec t)) * 2 ^ shift prec t)%Z.
Proof. reflexivity. Qed.

Lemma shift_nonneg (t : Q) : (0 <= shift prec t)%Z.
Proof. unfold shift. lia. Qed.

Lemma roundInt_comp (t t' : Q) : t == t' -> roundInt prec t = roundInt prec t'.
Proof.
  intros E. rewrite !roundInt_eq. unfold shift. rewrite (Qfloor_comp _ _ E).
  f_equal. apply rne_comp. rewrite E. reflexivity.
Qed.

(** below the top of its binade *)
Lemma below_top (t : Q) : 0 <= t -> t < inject_Z (2 ^ (prec + shift prec t)).
Proof.
  intros H0. pose proof (Qlt_floor t) as H1.
  assert (HF : (0 <= Qfloor t)%Z).
  { rewrite <- (Qfloor_Z 0). apply Qfloor_resp_le. exact H0. }
  assert (H2 : (Qfloor t + 1 <= 2 ^ (prec + shift prec t))%Z).
  { destruct (Z.eq_dec (Qfloor t) 0) as [E|NE].
    - rewrite E. assert (1 <= 2 ^ (prec + shift prec t))%Z; [|lia].
      pose proof (shift_nonneg t).
      assert (0 < 2 ^ (prec + shift prec t))%Z by (apply Z.pow_pos_nonneg; lia). lia.
    - pose proof (Z.log2_spec (Qfloor t)) as S. 
      assert (2 ^ Z.succ (Z.log2 (Qfloor t)) <= 2 ^ (prec + shift prec t))%Z.
      { apply Z.pow_le_mono_r; [lia|]. unfold shift. lia. }
      lia. }
  apply Qlt_le_trans with (inject_Z (Qfloor t + 1)); [exact H1|].
  rewrite <- Zle_Qle. exact H2.
Qed.

Lemma roundInt_upper (t : Q) : 0 <= t -> (roundInt prec t <= 2 ^ (prec + shift prec t))%Z.
Proof.
  intros H0. rewrite roundInt_eq. pose proof (shift_nonneg t) as Hj.
  rewrite Z.pow_add_r by lia. apply Z.mul_le_mono_nonneg_r; [apply Z.pow_nonneg; lia|].
  apply rne_upper. apply Qle_shift_div_r; [apply pow2_pos; exact Hj|].
  rewrite <- inject_Z_mult, <- Z.pow_add_r by lia.
  apply Qlt_le_weak. apply below_top. exact H0.
Qed.

Lemma roundInt_nonneg (t : Q) : 0 <= t -> (0 <= roundInt prec t)%Z.
Proof.
  intros H0. rewrite roundInt_eq. pose proof (shift_nonneg t) as Hj.
  apply Z.mul_nonneg_nonneg; [|apply Z.pow_nonneg; lia].
  apply rne_lower. apply Qle_shift_div_l; [apply pow2_pos; exact Hj|].
  change (inject_Z 0) with 0. lra.
Qed.

Lemma roundInt_lower (t : Q) :
  0 <= t -> (0 < shift prec t)%Z -> (2 ^ (prec - 1 + shift prec t) <= roundInt prec t)%Z.
Proof.
  intros H0 Hj. rewrite roundInt_eq.
  rewrite Z.pow_add_r by lia. apply Z.mul_le_mono_nonneg_r; [apply Z.pow_nonneg; lia|].
  apply rne_lower. apply Qle_shift_div_l; [apply pow2_pos; lia|].
  rewrite <- inject_Z_mult, <- Z.pow_add_r by lia.
  assert (E : Z.log2 (Qfloor t) = (prec - 1 + shift prec t)%Z) by (unfold shift in *; lia).
  assert (HF : (0 < Qfloor t)%Z).
  { destruct (Z.lt_ge_cases 0 (Qfloor t)) as [A|A]; [exact A|].
    rewrite (Z.log2_nonpos _ A) in E. lia. }
  pose proof (Z.log2_spec _ HF) as S. rewrite E in S.
  apply Qle_trans with (inject_Z (Qfloor t)); [|apply Qfloor_le].
  rewrite <- Zle_Qle. lia.
Qed.

Lemma shift_mono (t t' : Q) : t <= t' -> (shift prec t <= shift prec t')%Z.
Proof.
  intros H. unfold shift.
  pose proof (Z.log2_le_mono _ _ (Qfloor_resp_le _ _ H)). lia.
Qed.

Lemma roundInt_mono (t t' : Q) : 0 <= t -> t <= t' -> (roundInt prec t <= roundInt prec t')%Z.
Proof.
  intros H0 H. pose proof (shift_mono H) as Hs. pose proof (shift_nonneg t) as Hj.
  destruct (Z.eq_dec (shift prec t) (shift prec t')) as [E|NE].
  - rewrite !roundInt_eq, <- E.
    apply Z.mul_le_mono_nonneg_r; [apply Z.pow_nonneg; lia|].
    apply rne_mono. apply Qmult_le_compat_r; [exact H|].
    apply Qinv_le_0_compat. apply Qlt_le_weak, pow2_pos. exact Hj.
  - apply Z.le_trans with (2 ^ (prec + shift prec t))%Z; [apply roundInt_upper; exact H0|].
    apply Z.le_trans with (2 ^ (prec - 1 + shift prec t'))%Z.
    + apply Z.pow_le_mono_r; lia.
    + apply roundInt_lower; [lra|lia].
Qed.

Lemma roundInt_idem (t : Q) :
  0 <= t -> roundInt prec (inject_Z (roundInt prec t)) = roundInt prec t.
Proof.
  intros H0. pose proof (shift_nonneg t) as Hj.
  pose proof (roundInt_upper H0) as Hu. pose proof (roundInt_nonneg H0) as Hn.
  set (v := roundInt prec t) in *.
  set (m := rne (t / inject_Z (2 ^ shift prec t))).
  assert (Ev : v = (m * 2 ^ shift prec t)%Z) by reflexivity.
  assert (Hp : (0 < 2 ^ shift prec t)%Z) by (apply Z.pow_pos_nonneg; lia).
  assert (Hm0 : (0 <= m)%Z) by nia.
  assert (Hm1 : (m <= 2 ^ prec)%Z).
  { rewrite Z.pow_add_r in Hu by lia. nia. }
  rewrite roundInt_eq. unfold shift at 1 2. rewrite Qfloor_Z.
  destruct (Z.eq_dec m (2 ^ prec)) as [Etop|Ntop].
  - assert (E2 : v = (2 ^ (prec + shift prec t))%Z) by (rewrite Ev, Etop, Z.pow_add_r by lia; reflexivity).
    rewrite E2 at 1 2 3. rewrite Z.log2_pow2 by lia.
    replace (Z.max 0 (prec + shift prec t - (prec - 1))) with (shift prec t + 1)%Z by lia.
    replace (prec + shift prec t)%Z with ((prec - 1) + (shift prec t + 1))%Z at 1 by lia.
    rewrite (Z.pow_add_r 2 (prec - 1)) by lia.
    rewrite (rne_comp (div_pow2_Z (2 ^ (prec - 1)) (j := shift prec t + 1) ltac:(lia))).
    rewrite rne_Z, <- Z.pow_add_r by lia. rewrite E2. f_equal. lia.
  - assert (Hlog : Z.log2 v = if (0 <? shift prec t)%Z then (prec - 1 + shift prec t)%Z else Z.log2 m).
    { destruct (Z.ltb_spec 0 (shift prec t)) as [A|A].
      - pose proof (roundInt_lower H0 A) as Hl. fold v in Hl.
        apply Z.log2_unique; [lia|]. split; [exact Hl|].
        replace (Z.succ (prec - 1 + shift prec t)) with (prec + shift prec t)%Z by lia.
        rewrite Ev. rewrite Z.pow_add_r by lia. nia.
      - assert (E0 : shift prec t = 0%Z) by lia. rewrite Ev, E0. f_equal. simpl. lia. }
    assert (Hs : Z.max 0 (Z.log2 v - (prec - 1)) = shift prec t).
    { rewrite Hlog. destruct (Z.ltb_spec 0 (shift prec t)) as [A|A]; [lia|].
      assert (Z.log2 m < prec)%Z; [|lia].
      destruct (Z.eq_dec m 0) as [->|Nz]; [simpl; lia|].
      apply Z.log2_lt_pow2; lia. }
    rewrite Hs. rewrite Ev at 1.
    rewrite (rne_comp (div_pow2_Z m Hj)), rne_Z. symmetry. exact Ev.
Qed.

Lemma roundZ_comp (t t' : Q) : t == t' -> roundZ prec t = roundZ prec t'.
Proof.
  intros E. unfold roundZ. rewrite E.
  destruct (Qle_bool 0 t'); [apply roundInt_comp; exact E|].
  f_equal. apply roundInt_comp. rewrite E. reflexivity.
Qed.

Lemma roundZ_nonneg (t : Q) : 0 <= t -> roundZ prec t = roundInt prec t.
Proof. intros H. unfold roundZ. apply Qle_bool_iff in H. rewrite H. reflexivity. Qed.

Lemma roundZ_neg (t : Q) : t < 0 -> roundZ prec t = (- roundInt prec (- t))%Z.
Proof.
  intros H. unfold roundZ. destruct (Qle_bool 0 t) eqn:E; [|reflexivity].
  apply Qle_bool_iff in E. exfalso. lra.
Qed.

Lemma roundZ_mono (t t' : Q) : t <= t' -> (roundZ prec t <= roundZ prec t')%Z.
Proof.
  intros H. destruct (Qlt_le_dec t 0) as [A|A], (Qlt_le_dec t' 0) as [B|B].
  - rewrite (roundZ_neg A), (roundZ_neg B).
    assert (roundInt prec (- t') <= roundInt prec (- t))%Z; [|lia].
    apply roundInt_mono; lra.
  - rewrite (roundZ_neg A), (roundZ_nonneg B).
    assert (0 <= roundInt prec (- t))%Z by (apply roundInt_nonneg; lra).
    assert (0 <= roundInt prec t')%Z by (apply roundInt_nonneg; lra). lia.
  - exfalso. lra.
  - rewrite (roundZ_nonneg A), (roundZ_nonneg B). apply roundInt_mono; assumption.
Qed.

Lemma roundZ_idem (t : Q) : roundZ prec (inject_Z (roundZ prec t)) = roundZ prec t.
Proof.
  destruct (Qlt_le_dec t 0) as [A|A].
  - rewrite (roundZ_neg A).
    assert (Hn : (0 <= roundInt prec (- t))%Z) by (apply roundInt_nonneg; lra).
    destruct (Z.eq_dec (roundInt prec (- t)) 0) as [E|NE].
    + rewrite E. reflexivity.
    + rewrite roundZ_neg.
      * f_equal. rewrite <- inject_Z_opp, Z.opp_involutive. apply roundInt_idem. lra.
      * change 0 with (inject_Z 0). rewrite <- Zlt_Qlt. lia.
  - rewrite (roundZ_nonneg A). rewrite roundZ_nonneg.
    + apply roundInt_idem. exact A.
    + change 0 with (inject_Z 0). rewrite <- Zle_Qle. apply roundInt_nonneg. exact A.
Qed.

Variable sub : Z.
Hypothesis sub_nonneg : (0 <= sub)%Z.

Lemma roundQ_comp (x y : Q) : x == y -> roundQ prec sub x == roundQ prec sub y.
Proof.
  intros E. unfold roundQ.
  rewrite (@roundZ_comp (x * inject_Z (2 ^ sub)) (y * inject_Z (2 ^ sub))); [reflexivity|].
  rewrite E. reflexivity.
Qed.

Lemma roundQ_mono (x y : Q) : x <= y -> roundQ prec sub x <= roundQ prec sub y.
Proof.
  intros H. unfold roundQ. pose proof (pow2_pos sub_nonneg) as Hc.
  apply Qmult_le_compat_r; [|apply Qinv_le_0_compat; lra].
  rewrite <- Zle_Qle. apply roundZ_mono.
  apply Qmult_le_compat_r; [exact H|lra].
Qed.

Lemma roundQ_idem (x : Q) : roundQ prec sub (roundQ prec sub x) == roundQ prec sub x.
Proof.
  unfold roundQ at 1. pose proof (pow2_pos sub_nonneg) as Hc.
  assert (E : roundQ prec sub x * inject_Z (2 ^ sub)
              == inject_Z (roundZ prec (x * inject_Z (2 ^ sub)))).
  { unfold roundQ. field. lra. }
  rewrite (roundZ_comp E), roundZ_idem. reflexivity.
Qed.

Lemma roundQc_mono (x y : Qc) : (x <= y)%Qc -> (roundQc prec sub x <= roundQc prec sub y)%Qc.
Proof.
  intros H. unfold roundQc, Qcle, Q2Qc. cbn [this]. rewrite !Qred_correct.
  apply roundQ_mono. exact H.
Qed.

Lemma roundQc_idem (x : Qc) : roundQc prec sub (roundQc prec sub x) = roundQc prec sub x.
Proof.
  unfold roundQc. apply Qc_is_canon. unfold Q2Qc. cbn [this].
  eapply Qeq_trans; [apply Qred_correct|].
  eapply Qeq_trans; [apply roundQ_comp, Qred_correct|].
  eapply Qeq_trans; [apply roundQ_idem|].
  symmetry. apply Qred_correct.
Qed.

End Round.


Local Close Scope Q_scope.

Lemma round_mono (prec sub : Z) (a b : Qc) :
  (1 <= prec)%Z -> (0 <= sub)%Z -> (a <= b)%Qc ->
  exists a' b' : Qc,
    round prec sub (Fin a) = Fin a' /\ round prec sub (Fin b) = Fin b' /\ (a' <= b')%Qc.
Proof.
  intros Hp Hs H. exists (roundQc prec sub a), (roundQc prec sub b).
  split; [reflexivity|]. split; [reflexivity|]. apply roundQc_mono; assumption.
Qed.

Lemma round_idem (prec sub : Z) (x : num) :
  (1 <= prec)%Z -> (0 <= sub)%Z -> round prec sub (round prec sub x) = round prec sub x.
Proof.
  intros Hp Hs. destruct x as [| |q|]; try reflexivity.
  cbn [round]. f_equal. apply roundQc_idem; assumption.
Qed.

Lemma round_finite (prec sub : Z) (x : num) : isFinite (round prec sub x) = isFinite x.
Proof. destruct x; reflexivity. Qed.

Lemma fround_finite (x : num) : isFinite (fround x) = isFinite x.
Proof. apply round_finite. Qed.

Lemma round64_finite (x : num) : isFinite (round64 x) = isFinite x.
Proof. apply round_finite. Qed.

Lemma fround_idem (x : num) : fround (fround x) = fround x.
Proof. apply round_idem; lia. Qed.

Lemma round64_idem (x : num) : round64 (round64 x) = round64 x.
Proof. apply round_idem; lia. Qed.

Lemma fround_le (a b : Qc) : (a <= b)%Qc -> (roundQc 24 149 a <= roundQc 24 149 b)%Qc.
Proof. apply roundQc_mono; lia. Qed.

Lemma round64_le (a b : Qc) : (a <= b)%Qc -> (roundQc 53 1074 a <= roundQc 53 1074 b)%Qc.
Proof. apply roundQc_mono; lia. Qed.

Lemma fround_zero : fround zero = zero.
Proof. num_eq. Qed.

Lemma fround_one : fround one = one.
Proof. num_eq. Qed.

Lemma round64_zero : round64 zero = zero.
Proof. num_eq. Qed.

(** A value that is not negative is not rounded below zero. *)
Lemma fround_nonneg (q : Qc) : (Q2Qc 0 <= q)%Qc -> (Q2Qc 0 <= roundQc 24 149 q)%Qc.
Proof.
  intros H. apply fround_le in H.
  replace (roundQc 24 149 (Q2Qc 0)) with (Q2Qc 0) in H; [exact H|].
  apply Qc_is_canon. vm_compute. reflexivity.
Qed.

Lemma round64_nonneg (q : Qc) : (Q2Qc 0 <= q)%Qc -> (Q2Qc 0 <= roundQc 53 1074 q)%Qc.
Proof.
  intros H. apply round64_le in H.
  replace (roundQc 53 1074 (Q2Qc 0)) with (Q2Qc 0) in H; [exact H|].
  apply Qc_is_canon. vm_compute. reflexivity.
Qed.

(** What lies within a quarter of a unit in the last place of 1 is
    rounded to 1. *)
Lemma fround_near_one (q : Qc) :
  (Q2Qc (33554431 # 33554432) <= q)%Qc -> (q <= Q2Qc (16777217 # 16777216))%Qc ->
  fround (Fin q) = one.
Proof.
  intros H1 H2. apply fround_le in H1. apply fround_le in H2.
  replace (roundQc 24 149 (Q2Qc (33554431 # 33554432))) with (Q2Qc 1) in H1
    by (apply Qc_is_canon; vm_compute; reflexivity).
  replace (roundQc 24 149 (Q2Qc (16777217 # 16777216))) with (Q2Qc 1) in H2
    by (apply Qc_is_canon; vm_compute; reflexivity).
  unfold fround. cbn [round]. unfold one, ofZ. f_equal.
  apply Qcle_antisym; assumption.
Qed.

End Rounding.

(** ** The square root of the runtime *)

Module RootFacts.

Import Spec NumFacts.

Lemma sqrt_scaled (X : Z) :
  (2 ^ 64 <= X)%Z ->
  (0 < Z.sqrt X /\ Z.sqrt X * Z.sqrt X <= X /\
   X * 67108863 <= Z.sqrt X * Z.sqrt X * 67108864)%Z.
Proof.
  intros HX. assert (H0 : (0 <= X)%Z) by lia.
  pose proof (Z.sqrt_spec X H0) as [H1 H2].
  assert (Hs : (2 ^ 32 <= Z.sqrt X)%Z).
  { apply Z.sqrt_le_square; [lia|lia|]. change (2 ^ 32 * 2 ^ 32)%Z with (2 ^ 64)%Z. exact HX. }
  set (s := Z.sqrt X) in *. change (2 ^ 32)%Z with 4294967296%Z in Hs.
  split; [lia|]. split; [exact H1|].
  assert (H3 : (X - s * s <= 2 * s)%Z) by lia.
  assert (H4 : (2 * s * 67108864 <= s * s)%Z) by nia.
  lia.
Qed.

Lemma runtime_sqrt_accurate : sqrtAccurate Runtime.math.
Proof.
  intros q Hq. cbn [Math_sqrt Runtime.math]. unfold Runtime.sqrt.
  assert (E : qltb q (Q2Qc 0) = false).
  { destruct (qltb q (Q2Qc 0)) eqn:E; [|reflexivity].
    apply qltb_lt in E. exfalso. revert E. apply Qcle_not_lt, Qclt_le_weak, Hq. }
  rewrite E. exists (Runtime.qsqrt q). split; [reflexivity|].
  unfold Runtime.qsqrt.
  set (n := Qnum q). set (d := Qden q).
  assert (Eq : (this q == n # d)%Q) by (destruct q as [[a b] c]; reflexivity).
  assert (Hn : (0 < n)%Z).
  { unfold Qclt in Hq. rewrite this_Q2Qc, Eq in Hq. unfold Qlt in Hq. simpl in Hq. lia. }
  assert (HX : (2 ^ 64 <= n * Zpos d * 2 ^ 64)%Z).
  { assert (1 <= n * Zpos d)%Z by nia. lia. }
  destruct (sqrt_scaled HX) as (S0 & S1 & S2).
  set (s := Z.sqrt (n * Z.pos d * 2 ^ 64)) in *.
  assert (Hd : (0 < Z.pos d)%Z) by lia.
  assert (A1 : (0 < s # d * 2 ^ 32)%Q).
  { unfold Qlt. simpl. lia. }
  assert (A2 : ((n # d) * (67108863 # 67108864) <= (s # d * 2 ^ 32) * (s # d * 2 ^ 32))%Q).
  { unfold Qle, Qmult. cbn [Qnum Qden]. rewrite !Pos2Z.inj_mul, !Pos2Z.inj_pow.
    change (Z.pos 2 ^ Z.pos 32)%Z with 4294967296%Z.
    change (2 ^ 64)%Z with 18446744073709551616%Z in *.
    set (D := Z.pos d) in *. nia. }
  assert (A3 : ((s # d * 2 ^ 32) * (s # d * 2 ^ 32) <= (n # d) * (67108865 # 67108864))%Q).
  { unfold Qle, Qmult. cbn [Qnum Qden]. rewrite !Pos2Z.inj_mul, !Pos2Z.inj_pow.
    change (Z.pos 2 ^ Z.pos 32)%Z with 4294967296%Z.
    change (2 ^ 64)%Z with 18446744073709551616%Z in *.
    set (D := Z.pos d) in *. nia. }
  clearbody s n d. clear HX S0 S1 S2 Hn Hd E Hq.
  set (r := (s # d * 2 ^ 32)%Q) in *. clearbody r.
  set (c1 := (67108863 # 67108864)%Q) in *. set (c2 := (67108865 # 67108864)%Q) in *.
  set (x := (n # d)%Q) in *. clearbody x.
  unfold Qclt, Qcle, Qcmult.
  repeat split.
  - rewrite !this_Q2Qc. exact A1.
  - rewrite (this_Q2Qc (this q * this (Q2Qc c1))), (this_Q2Qc c1), Eq.
    rewrite (this_Q2Qc (this (Q2Qc r) * this (Q2Qc r))), (this_Q2Qc r). exact A2.
  - rewrite (this_Q2Qc (this q * this (Q2Qc c2))), (this_Q2Qc c2), Eq.
    rewrite (this_Q2Qc (this (Q2Qc r) * this (Q2Qc r))), (this_Q2Qc r). exact A3.
Qed.

End RootFacts.

(** ** The frame step the chorus pass reports *)

Module FrameStep.

Local Open Scope Z_scope.

Lemma stftMag_at_22050 {M : MathLib} {F : FFTLib} (samples : list num) :
  Sections.stftMag samples 22050 (Q2Qc (464 # 10000)) (Q2Qc (5 # 10))
  = Some (map (fun i => Sections.stftFrame samples (Sections.hann 1024) 1024
                                           (i * 512)%nat)
              (seq 0 (Z.to_nat (Sections.stftFrames
                                  (Z.of_nat (length samples)) 1024 512))),
          (ofZ 1024 / ofZ 22050)%num).
Proof.
  unfold Sections.stftMag.
  assert (EN : Sections.nextPow2 (Sections.stftTarget 22050 (Q2Qc (464 # 10000)))
               = Some 1024) by reflexivity.
  assert (EH : Sections.stftHop 1024 (Q2Qc (5 # 10)) = 512) by reflexivity.
  rewrite EN. cbn [bind]. rewrite EH. reflexivity.
Qed.

(** C3 fails on the code.  At 22050 Hz with 0.0464 s frames and hop ratio
    0.5, [stftMag] cuts frames of 1024 samples every 512 samples, so frame
    [i] starts at [i * 512 / 22050] seconds; the step it returns is
    [1024 / 22050] seconds, the frame length, twice the hop. *)
Theorem stftMag_returns_frame_length {M : MathLib} {F : FFTLib} (samples : list num) :
  Sections.stftHop 1024 (Q2Qc (5 # 10)) = 512 /\
  Sections.stftMag samples 22050 (Q2Qc (464 # 10000)) (Q2Qc (5 # 10))
  = Some (map (fun i => Sections.stftFrame samples (Sections.hann 1024) 1024
                                           (i * 512)%nat)
              (seq 0 (Z.to_nat (Sections.stftFrames
                                  (Z.of_nat (length samples)) 1024 512))),
          (ofZ 1024 / ofZ 22050)%num) /\
  (ofZ 1024 / ofZ 22050)%num = (ofZ 2 * (ofZ 512 / ofZ 22050))%num /\
  (ofZ 1024 / ofZ 22050)%num <> (ofZ 512 / ofZ 22050)%num.
Proof.
  split; [reflexivity|]. split; [apply stftMag_at_22050|]. split; [num_eq|num_neq].
Qed.

(** [findChorusHook] hands that step to the window search. *)
Lemma findChorusHook_step {M : MathLib} {F : FFTLib} (samples : list num) (windowSec : num) :
  exists C,
    length C = Z.to_nat (Sections.stftFrames (Z.of_nat (length samples)) 1024 512) /\
    Sections.findChorusHook samples 22050 windowSec
    = Sections.chorusHookOf C (ofZ 1024 / ofZ 22050)%num windowSec.
Proof.
  unfold Sections.findChorusHook, Sections.chromaSeries.
  rewrite stftMag_at_22050. cbn [bind fst snd].
  eexists. split; [|reflexivity].
  rewrite !length_map. apply length_seq.
Qed.

(** The start time [findChorusHook] reports is the winning index times
    the step it was handed. *)
Lemma chorus_start_is_index_times_step {M : MathLib}
      (C : list (list num)) (frameSec windowSec : num) (h : Sections.ChorusHook) :
  Sections.chorusHookOf C frameSec windowSec = Some h ->
  exists bestIdx : nat,
    Sections.startSec h = zero \/ Sections.startSec h = (ofNat bestIdx * frameSec)%num.
Proof.
  unfold Sections.chorusHookOf. destruct C as [|c C].
  - intros [= <-]. exists O. left. reflexivity.
  - destruct (Sections.repetitionScore _ _ _) as [Rraw|]; cbn [bind]; [|discriminate].
    destruct (Sections.chorusScan _ _ _ _ _) as [[[best bestIdx] mn] mx].
    destruct (negb (isFinite best)); intros [= <-]; exists bestIdx.
    + left. reflexivity.
    + right. reflexivity.
Qed.

End FrameStep.

(** ** Smoothing *)

Module Smoothing.

Import Spec NumFacts.
Local Open Scope nat_scope.

Lemma imap_seq {A B : Type} (f : nat -> A -> B) (d : A) (a : list A) :
  imap f a = map (fun i => f i (nth i a d)) (seq 0 (length a)).
Proof.
  unfold imap.
  assert (G : forall s, map (fun p => f (fst p) (snd p)) (combine (seq s (length a)) a)
                        = map (fun i => f i (nth (i - s) a d)) (seq s (length a))).
  { induction a as [|x a IH]; intros s; simpl; [reflexivity|].
    rewrite Nat.sub_diag. f_equal. rewrite IH.
    apply map_ext_in. intros i Hi. apply in_seq in Hi.
    replace (i - s) with (S (i - S s)) by lia. reflexivity. }
  rewrite G. apply map_ext. intros i. rewrite Nat.sub_0_r. reflexivity.
Qed.

Lemma imap_const {A B : Type} (g : nat -> B) (a : list A) :
  imap (fun i _ => g i) a = map g (seq 0 (length a)).
Proof.
  destruct a as [|x a]; [reflexivity|].
  apply (imap_seq (fun i _ => g i) x).
Qed.

Lemma length_imap {A B : Type} (f : nat -> A -> B) (a : list A) :
  length (imap f a) = length a.
Proof.
  unfold imap. rewrite length_map, length_combine, length_seq. apply Nat.min_id.
Qed.

(** The accumulating loop [sum += x[j]; count++]. *)
Lemma sum_count_fold (x : list num) (idx : list nat) (s : num) (c : nat) :
  fold_left (fun (st : num * nat) j => (fst st + get x j, S (snd st))%num) idx (s, c)
  = (sumFrom s (map (get x) idx), c + length idx).
Proof.
  revert s c. induction idx as [|j idx IH]; intros s c; simpl.
  - rewrite Nat.add_0_r. reflexivity.
  - rewrite IH. f_equal. lia.
Qed.

Lemma smoothAt_centeredMean (x : list num) (i : nat) :
  i < length x ->
  Energy.smoothAt x (length x) i = centeredMean 5 x i.
Proof.
  intros Hi. unfold Energy.smoothAt, centeredMean, clipped, Energy.windowSize.
  replace (S (Nat.min (length x - 1) (i + 5)) - (i - 5))
    with (Nat.min (length x) (i + 5 + 1) - (i - 5)) by lia.
  rewrite sum_count_fold. simpl fst. simpl snd.
  rewrite length_seq. reflexivity.
Qed.

Lemma computeNovelty_movingAverage (series : list num) :
  Energy.computeNovelty series = movingAverage 5 (Energy.noveltyRaw series).
Proof.
  unfold Energy.computeNovelty, movingAverage.
  rewrite imap_const.
  assert (L : length (Energy.noveltyRaw series) = length series)
    by apply length_imap.
  rewrite L. apply map_ext_in. intros i Hi. apply in_seq in Hi.
  rewrite <- L. apply smoothAt_centeredMean. lia.
Qed.

Section Cell.

Variable x : list num.

Lemma cellStep_skip (l : list Z) (st : num * Z) :
  (forall j, In j l -> (j < 0 \/ Z.of_nat (length x) <= j)%Z) ->
  fold_left (cellStep x) l st = st.
Proof.
  revert st. induction l as [|j l IH]; intros st H; simpl; [reflexivity|].
  unfold cellStep at 2.
  destruct (H j (or_introl eq_refl)) as [Hj|Hj].
  - destruct (Z.ltb_spec j 0); [|lia]. simpl. apply IH.
    intros k Hk. apply H. right. exact Hk.
  - destruct (Z.leb_spec (Z.of_nat (length x)) j); [|lia].
    rewrite orb_true_r. apply IH. intros k Hk. apply H. right. exact Hk.
Qed.

Lemma cellStep_take (l : list nat) (s : num) (c : Z) :
  (forall j, In j l -> j < length x) ->
  fold_left (cellStep x) (map Z.of_nat l) (s, c)
  = (sumFrom s (map (get x) l), (c + Z.of_nat (length l))%Z).
Proof.
  revert s c. induction l as [|j l IH]; intros s c H; simpl.
  - f_equal. lia.
  - unfold cellStep at 2.
    assert (Hj : j < length x) by (apply H; left; reflexivity).
    destruct (Z.ltb_spec (Z.of_nat j) 0); [lia|].
    destruct (Z.leb_spec (Z.of_nat (length x)) (Z.of_nat j)); [lia|].
    simpl orb. cbv iota. simpl fst. simpl snd.
    rewrite Nat2Z.id. rewrite IH by (intros k Hk; apply H; right; exact Hk).
    f_equal. lia.
Qed.

Lemma smoothCell_centeredMean (h i : nat) :
  i < length x ->
  Sections.smoothCell x (Z.of_nat h) i = centeredMean h x i.
Proof.
  intros Hi. unfold Sections.smoothCell, centeredMean, clipped.
  set (len := length x) in *.
  set (a := h - i). set (b := Nat.min len (i + h + 1) - (i - h)).
  set (c := 2 * h + 1 - a - b).
  assert (Hn : Z.to_nat (2 * Z.of_nat h + 1) = a + (b + c)) by (unfold a, b, c; lia).
  rewrite Hn, seq_app, seq_app, !map_app.
  change (fun (st : num * Z) (j : Z) =>
            if (j <? 0)%Z || (Z.of_nat len <=? j)%Z then st
            else ((fst st + get x (Z.to_nat j))%num, (snd st + 1)%Z))
    with (cellStep x).
  rewrite !fold_left_app.
  rewrite (cellStep_skip (map _ (seq 0 a))).
  2:{ intros j Hj. apply in_map_iff in Hj. destruct Hj as (t & <- & Ht).
      apply in_seq in Ht. left. unfold a in Ht. lia. }
  assert (Emid : map (fun t : nat => (Z.of_nat i - Z.of_nat h + Z.of_nat t)%Z)
                     (seq (0 + a) b)
                 = map Z.of_nat (seq (i - h) b)).
  { replace (seq (i - h) b) with (map (fun t => t + (i - h) - a) (seq (0 + a) b)).
    - rewrite map_map. apply map_ext_in. intros t Ht. apply in_seq in Ht.
      unfold a in *. lia.
    - simpl. clear. unfold a. generalize (i - h) as s. generalize (h - i) as a0.
      intros a0 s. revert a0 s. induction b as [|b IH]; intros a0 s; simpl; [reflexivity|].
      f_equal; [lia|]. rewrite <- (IH (S a0) (S s)).
      apply map_ext. intros t. lia. }
  rewrite Emid.
  rewrite cellStep_take.
  2:{ intros j Hj. apply in_seq in Hj. unfold b in Hj. fold len. lia. }
  rewrite (cellStep_skip (map _ (seq (0 + a + b) c))).
  2:{ intros j Hj. apply in_map_iff in Hj. destruct Hj as (t & <- & Ht).
      apply in_seq in Ht. right. fold len. unfold a, b in Ht. lia. }
  rewrite length_seq. simpl Z.add.
  rewrite orElse_ofZ; [reflexivity|].
  unfold b. lia.
Qed.

End Cell.

Lemma smooth1D_movingAverage (x : list num) (win : Z) :
  (1 < win)%Z ->
  Sections.smooth1D x win = movingAverage (Z.to_nat (win / 2)) x.
Proof.
  intros Hw. unfold Sections.smooth1D, movingAverage.
  destruct x as [|x0 x]; [reflexivity|].
  destruct (Z.leb_spec win 1); [lia|].
  rewrite imap_const. apply map_ext_in. intros i Hi. apply in_seq in Hi.
  rewrite <- (Z2Nat.id (win / 2)) at 1 by (apply Z.div_pos; lia).
  apply smoothCell_centeredMean. lia.
Qed.

(** C4, as stated, fails for the repetition series: [smooth1D(x, 5)] is
    not the radius-5 average.  On a unit impulse of length 8 the value at
    index 3 is 0 (the mean over 1..5), where radius 5 gives 1/8. *)
Lemma repetition_smoothing_is_not_radius_5 :
  let x := ofZ 1 :: repeat (ofZ 0) 7 in
  Sections.smooth1D x 5 <> movingAverage 5 x /\
  get (Sections.smooth1D x 5) 3 = zero /\
  centeredMean 5 x 3 = ofQ (1 # 8).
Proof.
  split; [list_neq|]. split; num_eq.
Qed.

(** C4, amended: the novelty series is smoothed with the centered moving
    average of radius 5, the repetition series ([smooth1D] with window 5)
    with the centered moving average of radius 2; both average over the
    indices clipped to the series. *)
Theorem smoothing_radii (series x : list num) :
  Energy.computeNovelty series = movingAverage 5 (Energy.noveltyRaw series) /\
  Sections.smooth1D x 5 = movingAverage 2 x.
Proof.
  split.
  - apply computeNovelty_movingAverage.
  - apply (smooth1D_movingAverage x (win := 5)). lia.
Qed.

End Smoothing.

(** ** The self-similarity matrix *)

Module Similarity.

Import Spec NumFacts.
Local Open Scope nat_scope.

Section WithMath.
Context {M : MathLib}.

Lemma cos_fold (a b : list num) (idx : list nat) (d na nb : num) :
  fold_left (fun (st : num * num * num) i =>
               let '(dot, na, nb) := st in
               ((dot + get a i * get b i)%num,
                (na + get a i * get a i)%num,
                (nb + get b i * get b i)%num))
            idx (d, na, nb)
  = (fold_left (fun s i => (s + get a i * get b i)%num) idx d,
     fold_left (fun s i => (s + get a i * get a i)%num) idx na,
     fold_left (fun s i => (s + get b i * get b i)%num) idx nb).
Proof.
  revert d na nb. induction idx as [|i idx IH]; intros d na nb; simpl; [reflexivity|].
  apply IH.
Qed.

Lemma cos_dotp (a b : list num) :
  Sections.cos a b
  = (dotp a b (length a)
     / orElse (Math_sqrt (dotp a a (length a)) * Math_sqrt (dotp b b (length a))) one)%num.
Proof. unfold Sections.cos. rewrite cos_fold. reflexivity. Qed.

Lemma dotp_comm (a b : list num) (n : nat) : dotp a b n = dotp b a n.
Proof.
  unfold dotp. generalize zero as s. generalize (seq 0 n) as idx.
  induction idx as [|i idx IH]; intros s; simpl; [reflexivity|].
  rewrite (nmul_comm (get a i) (get b i)). apply IH.
Qed.

Lemma cos_comm (a b : list num) : length a = length b -> Sections.cos a b = Sections.cos b a.
Proof.
  intros L. rewrite !cos_dotp, <- L.
  rewrite (dotp_comm a b).
  rewrite (nmul_comm (Math_sqrt (dotp a a (length a)))). reflexivity.
Qed.

Lemma nth_map_lt {A B : Type} (f : A -> B) (l : list A) (i : nat) (d : B) (d' : A) :
  i < length l -> nth i (map f l) d = f (nth i l d').
Proof.
  revert i. induction l as [|x l IH]; intros i Hi; simpl in *; [lia|].
  destruct i as [|i]; [reflexivity|]. apply IH. lia.
Qed.

Lemma cell_selfSimilarity (C : list (list num)) (i j : nat) :
  i < length C -> j < length C ->
  cell (Sections.selfSimilarity C) i j = fround (Sections.cos (nth i C []) (nth j C [])).
Proof.
  intros Hi Hj. unfold cell, Sections.selfSimilarity, get.
  rewrite (nth_map_lt _ C [] [] Hi).
  apply (nth_map_lt (fun cj => fround (Sections.cos (nth i C []) cj)) C NaN [] Hj).
Qed.

Lemma ndiv_zero_truthy (d : num) : truthy d = true -> (zero / d)%num = zero.
Proof.
  destruct d as [| |q|]; simpl; try discriminate; try reflexivity.
  intros H. apply negb_true_iff in H.
  destruct (qsign q) eqn:E.
  - apply qsign_eq in E. subst q. rewrite (proj2 (qeqb_eq _ _) eq_refl) in H. discriminate.
  - unfold zero, ofZ. f_equal. change (Q2Qc (inject_Z 0)) with (Q2Qc 0).
    unfold Qcdiv. apply Qcmult_0_l.
  - unfold zero, ofZ. f_equal. change (Q2Qc (inject_Z 0)) with (Q2Qc 0).
    unfold Qcdiv. apply Qcmult_0_l.
Qed.

Lemma truthy_orElse_one (x : num) : truthy (orElse x one) = true.
Proof. unfold orElse. destruct (truthy x) eqn:E; [exact E|reflexivity]. Qed.

Lemma ndiv_self (x : num) : isFinite x = true -> truthy x = true -> (x / x)%num = one.
Proof.
  destruct x as [| |q|]; simpl; try discriminate.
  intros _ H. apply negb_true_iff in H.
  assert (Hq : q <> Q2Qc 0).
  { intros ->. rewrite (proj2 (qeqb_eq _ _) eq_refl) in H. discriminate. }
  assert (E1 : Fin (q / q)%Qc = one).
  { unfold one, ofZ. f_equal. unfold Qcdiv. rewrite Qcmult_inv_r by exact Hq. reflexivity. }
  destruct (qsign q) eqn:E; [|exact E1|exact E1].
  apply qsign_eq in E. contradiction.
Qed.

(** Adding [0 * 0] leaves zero: the dot product of zero vectors. *)
Lemma dotp_zero (a b : list num) (n : nat) :
  (forall i, i < n -> get a i = zero) -> (forall i, i < n -> get b i = zero) ->
  dotp a b n = zero.
Proof.
  intros Ha Hb. unfold dotp.
  assert (G : forall idx, (forall i, In i idx -> i < n) ->
                          fold_left (fun s i => (s + get a i * get b i)%num) idx zero = zero).
  { induction idx as [|i idx IH]; intros Hin; simpl; [reflexivity|].
    rewrite Ha, Hb by (apply Hin; left; reflexivity).
    replace (zero + zero * zero)%num with zero by (symmetry; num_eq).
    apply IH. intros k Hk. apply Hin. right. exact Hk. }
  apply G. intros i Hi. apply in_seq in Hi. lia.
Qed.

(** The cosine of the zero vector with itself is 0, whatever the runtime. *)
Lemma cos_zero_vector (a : list num) :
  (forall i, i < length a -> get a i = zero) -> Sections.cos a a = zero.
Proof.
  intros Ha. rewrite cos_dotp. rewrite (dotp_zero a a (n := length a) Ha Ha).
  apply ndiv_zero_truthy, truthy_orElse_one.
Qed.

Lemma finite_get (a : list num) (i : nat) :
  allFinite a -> i < length a -> exists x, get a i = Fin x.
Proof.
  intros Ha Hi. unfold allFinite in Ha. rewrite Forall_forall in Ha.
  specialize (Ha (nth i a NaN) (nth_In a NaN Hi)). unfold get.
  destruct (nth i a NaN) as [| |x|]; try discriminate. exists x. reflexivity.
Qed.

Lemma square_nonneg (x : Qc) : (Q2Qc 0 <= x * x)%Qc.
Proof.
  unfold Qcle, Qcmult. rewrite !this_Q2Qc. unfold Qle, Qmult. simpl. nia.
Qed.

Lemma qc_sq_pos (x : Qc) : x <> Q2Qc 0 -> (Q2Qc 0 < x * x)%Qc.
Proof.
  intros Hx. destruct (Qcle_lt_or_eq _ _ (square_nonneg x)) as [H|H]; [exact H|].
  exfalso. apply Hx. symmetry in H. destruct (Qcmult_integral _ _ H); assumption.
Qed.

(** The sum of the squares of a finite vector: it does not decrease, and
    it grows at every entry that is not zero. *)
Lemma sq_fold_pos (a : list num) (idx : list nat) :
  allFinite a -> (forall i, In i idx -> i < length a) ->
  forall s : Qc,
    exists q : Qc,
      fold_left (fun s i => (s + get a i * get a i)%num) idx (Fin s) = Fin q /\
      (s <= q)%Qc /\
      ((exists k, In k idx /\ get a k <> zero) -> (s < q)%Qc).
Proof.
  intros Ha. induction idx as [|i idx IH]; intros Hidx s; cbn [fold_left].
  - exists s. split; [reflexivity|]. split; [apply Qcle_refl|].
    intros (k & [] & _).
  - destruct (@finite_get a i Ha (Hidx i (or_introl eq_refl))) as [x Ex].
    rewrite Ex. cbn [nmul nadd].
    destruct (IH (fun j Hj => Hidx j (or_intror Hj)) (s + x * x)%Qc) as (q & E & Hle & Hlt).
    exists q. split; [exact E|].
    assert (Hs : (s <= s + x * x)%Qc).
    { pose proof (square_nonneg x) as Hx. set (v := (x * x)%Qc) in *. clearbody v.
      qc2q. lra. }
    split; [eapply Qcle_trans; eassumption|].
    intros (k & [<-|Hk] & Hne).
    + assert (Hx : x <> Q2Qc 0).
      { intros ->. apply Hne. rewrite Ex. reflexivity. }
      apply qc_sq_pos in Hx. eapply Qclt_le_trans; [|exact Hle].
      set (v := (x * x)%Qc) in *. clearbody v. qc2q. lra.
    + eapply Qcle_lt_trans; [exact Hs|]. apply Hlt. exists k. split; assumption.
Qed.

Lemma sqNorm_pos (a : list num) :
  allFinite a -> (exists k, k < length a /\ get a k <> zero) ->
  exists q : Qc, sqNorm a = Fin q /\ (Q2Qc 0 < q)%Qc.
Proof.
  intros Ha (k & Hk & Hne). unfold sqNorm, dotp.
  destruct (@sq_fold_pos a (seq 0 (length a)) Ha) with (s := Q2Qc 0) as (q & E & _ & Hlt).
  { intros i Hi. apply in_seq in Hi. lia. }
  exists q. split; [exact E|]. apply Hlt. exists k. split; [|exact Hne].
  apply in_seq. lia.
Qed.

(** The quotient of two values that differ by one part in [2^26]. *)
Lemma near_one_quotient (q v : Qc) :
  (Q2Qc 0 < q)%Qc ->
  (q * Q2Qc (67108863 # 67108864) <= v)%Qc -> (v <= q * Q2Qc (67108865 # 67108864))%Qc ->
  (Q2Qc (33554431 # 33554432) <= q / v)%Qc /\ (q / v <= Q2Qc (16777217 # 16777216))%Qc.
Proof.
  unfold Qcle, Qclt, Qcdiv, Qcmult, Qcinv. rewrite !this_Q2Qc.
  set (x := this q). set (y := this v). intros Hq H1 H2.
  change (x * / y)%Q with (x / y)%Q.
  assert (Hy : (0 < y)%Q) by lra.
  split; [apply Qle_shift_div_l|apply Qle_shift_div_r]; try exact Hy; lra.
Qed.

(** With an accurate square root, the cosine of a vector that is not zero
    with itself is within a quarter of a unit in the last place of 1: the
    [Float32Array] keeps 1. *)
Lemma cos_self_rounded (a : list num) :
  sqrtAccurate M -> allFinite a -> (exists k, k < length a /\ get a k <> zero) ->
  fround (Sections.cos a a) = one.
Proof.
  intros Hsqrt Ha Hnz. destruct (sqNorm_pos Ha Hnz) as (q & En & Hq).
  destruct (Hsqrt q Hq) as (r & Er & Hr & H1 & H2).
  rewrite cos_dotp. fold (sqNorm a). rewrite En, Er. cbn [nmul].
  assert (Hrr : (Q2Qc 0 < r * r)%Qc).
  { apply qc_sq_pos. intros ->. revert Hr. apply Qcle_not_lt, Qcle_refl. }
  assert (Hne : (r * r)%Qc <> Q2Qc 0).
  { intros E. rewrite E in Hrr. revert Hrr. apply Qcle_not_lt, Qcle_refl. }
  destruct (near_one_quotient Hq H1 H2) as [B1 B2].
  unfold orElse. cbn [truthy].
  destruct (qeqb (r * r)%Qc (Q2Qc 0)) eqn:E0; [apply qeqb_eq in E0; contradiction|].
  cbn [negb ndiv].
  destruct (qsign (r * r)%Qc) eqn:Es; [apply qsign_eq in Es; contradiction| |];
    apply Rounding.fround_near_one; assumption.
Qed.

End WithMath.

(** C5, as stated, fails on the diagonal: a silent frame has the zero
    chroma vector (the norm guard leaves it at zero), and the cosine guard
    then gives similarity 0 to itself, not 1. *)
Lemma diagonal_of_silent_frame_is_zero :
  let C := [Sections.chromaFromMag (M := Runtime.math) (zeros 512) 22050] in
  C = [zeros 12] /\
  cell (Sections.selfSimilarity (M := Runtime.math) C) 0 0 = zero /\
  cell (Sections.selfSimilarity (M := Runtime.math) C) 0 0 <> one.
Proof.
  intros C. split; [|split].
  - apply (f_equal (fun c => [c])). list_eq.
  - num_eq.
  - num_neq.
Qed.

(** C5, amended: for every sequence of 12-bin chroma vectors the matrix is
    symmetric; with a square root of the accuracy IEEE 754 asks for, the
    diagonal entry of every finite chroma vector that is not zero is
    exactly 1, and that of the zero vector is exactly 0. *)
Theorem selfSimilarity_symmetric {M : MathLib} (C : list (list num)) :
  sqrtAccurate M ->
  (forall c, In c C -> length c = 12) ->
  (forall i j, i < length C -> j < length C ->
     cell (Sections.selfSimilarity C) i j = cell (Sections.selfSimilarity C) j i) /\
  (forall i, i < length C ->
     allFinite (nth i C []) ->
     (exists k, k < 12 /\ get (nth i C []) k <> zero) ->
     cell (Sections.selfSimilarity C) i i = one) /\
  (forall i, i < length C ->
     (forall k, k < 12 -> get (nth i C []) k = zero) ->
     cell (Sections.selfSimilarity C) i i = zero).
Proof.
  intros Hsqrt Hlen. split; [|split].
  - intros i j Hi Hj. rewrite !cell_selfSimilarity by assumption.
    f_equal. apply cos_comm. rewrite !Hlen by (apply nth_In; assumption). reflexivity.
  - intros i Hi Hf Hnz. rewrite cell_selfSimilarity by assumption.
    apply cos_self_rounded; [exact Hsqrt|exact Hf|].
    rewrite Hlen by (apply nth_In; assumption). exact Hnz.
  - intros i Hi Hz. rewrite cell_selfSimilarity by assumption.
    rewrite cos_zero_vector; [apply Rounding.fround_zero|].
    rewrite Hlen by (apply nth_In; assumption). exact Hz.
Qed.

Lemma selfSimilarity_symmetric_witness :
  let C := [ ofQ (1 # 3) :: ofQ (1 # 5) :: zeros 10; zeros 12 ] in
  (forall i j, i < length C -> j < length C ->
     cell (Sections.selfSimilarity (M := Runtime.math) C) i j
     = cell (Sections.selfSimilarity (M := Runtime.math) C) j i) /\
  cell (Sections.selfSimilarity (M := Runtime.math) C) 0 0 = one /\
  cell (Sections.selfSimilarity (M := Runtime.math) C) 1 1 = zero.
Proof.
  intros C.
  assert (Hlen : forall c, In c C -> length c = 12).
  { intros c [<-|[<-|[]]]; reflexivity. }
  destruct (selfSimilarity_symmetric (M := Runtime.math) C RootFacts.runtime_sqrt_accurate Hlen)
    as (Hsym & Hone & Hzero).
  split; [exact Hsym|]. split.
  - apply (Hone 0).
    + simpl. lia.
    + unfold C. cbn [nth]. unfold allFinite, zeros. repeat constructor.
    + exists 0. split; [lia|]. unfold C. cbn [nth get]. discriminate.
  - apply (Hzero 1).
    + simpl. lia.
    + intros k Hk. do 12 (destruct k as [|k]; [reflexivity|]). lia.
Defined.

End Similarity.

(** ** The repetition score *)

Module Repetition.

Import Spec NumFacts.
Local Open Scope nat_scope.

(** C6 fails on the code in the backward direction.  The backward test
    looks at the columns only ([i - d >= 0], [i - d + W <= N]); the rows
    [i .. i + W - 1] may leave the matrix, and [safeCell] then adds zeros.
    In the matrix of ones every stripe that fits has mean 1, so every frame
    should score 1 or, without a fitting stripe, 0; frames 8 and 9, whose
    rows 8..10 and 9..11 do not fit, are given 2/3 and 1/3, from two
    counted stripes each. *)
Theorem backward_stripe_leaves_matrix :
  Sections.lagsOf lags67 = Some [ofZ 6; ofZ 7] /\
  Sections.repetitionRaw ones10 (ofZ 3) lags67
  = Some [one; one; zero; zero; zero; zero; one; one; ofQ (2 # 3); ofQ (1 # 3)] /\
  snd (Sections.frameAccum ones10 10 (ofZ 3) [ofZ 6; ofZ 7] true 9) = 2%Z /\
  Sections.stripeSum ones10 (ofZ 3) 9 (ofZ 3) = one /\
  Sections.repetitionScore ones10 (ofZ 3) lags67
  = Some [one; one; zero; zero; zero; zero; one; one; ofQ (2 # 3); ofQ (1 # 3)].
Proof.
  split; [opt_list_eq|]. split; [opt_list_eq|]. split; [reflexivity|].
  split; [num_eq|opt_list_eq].
Qed.

(** In the forward direction the test is complete: a counted stripe has
    its rows and its columns inside the matrix. *)
Lemma forward_stripe_fits (S : list (list num)) (N W i d : nat) (st : num * Z) :
  Sections.forwardStep S N (ofNat W) i st (ofNat d) <> st ->
  i + W <= N /\ i + d + W <= N.
Proof.
  unfold Sections.forwardStep.
  destruct (ofNat i + ofNat d + ofNat W >? ofNat N)%num eqn:E; [congruence|].
  intros _.
  assert (i + d + W <= N); [|lia].
  unfold ngt, ofNat in E. rewrite !ofZ_add, nlt_ofZ in E.
  apply Z.ltb_ge in E. lia.
Qed.

(** A frame without a counted stripe scores 0. *)
Lemma no_stripe_scores_zero (S : list (list num)) (N : nat) (W : num)
      (lags : list num) (bidir : bool) (i : nat) :
  snd (Sections.frameAccum S N W lags bidir i) = 0%Z ->
  Sections.rawScore S N W lags bidir i = zero.
Proof.
  unfold Sections.rawScore. destruct (Sections.frameAccum _ _ _ _ _ _) as [sum count].
  simpl. intros ->. reflexivity.
Qed.

End Repetition.

(** ** The shape of an extraction *)

Module ExtractFacts.

Import Spec NumFacts.
Local Open Scope nat_scope.

Section WithRuntime.
Context {M : MathLib} {F : FFTLib}.

Lemma frameLoop_length (samples : list num) (sampleRate : Z) (size hop : nat)
      (idxs : list nat) (prev : option (list num)) :
  length (Energy.frameLoop samples sampleRate size hop idxs prev) = length idxs.
Proof.
  revert prev. induction idxs as [|i idxs IH]; intros prev; simpl; [reflexivity|].
  f_equal. apply IH.
Qed.

Lemma length_computeNovelty (series : list num) :
  length (Energy.computeNovelty series) = length series.
Proof. unfold Energy.computeNovelty. apply Smoothing.length_imap. Qed.

(** What [extractAllFeatures] returns once [nextPow2] has returned [N]. *)
Lemma extract_shape (samples : list num) (sampleRate : Z) (frameSec : Qc) (N : Z) :
  Energy.nextPow2 (Energy.targetSize sampleRate frameSec) = Some N ->
  exists r,
    Energy.extractAllFeatures samples sampleRate frameSec = Some r /\
    Energy.frameSize r = N /\
    Energy.hop r = (N / 2)%Z /\
    Energy.nFrames r = Energy.frameCount (Z.of_nat (length samples)) N (N / 2) /\
    Energy.frameSec r = (ofZ (N / 2) / ofZ sampleRate)%num /\
    let n := Z.to_nat (Energy.nFrames r) in
    length (Energy.energy (Energy.features r)) = n /\
    length (Energy.centroid (Energy.features r)) = n /\
    length (Energy.zcr (Energy.features r)) = n /\
    length (Energy.spectralFlux (Energy.features r)) = n /\
    length (Energy.novelty (Energy.features r)) = n.
Proof.
  intros E. unfold Energy.extractAllFeatures. rewrite E. cbn [bind].
  eexists. split; [reflexivity|]. cbn -[Energy.frameLoop Energy.computeNovelty Energy.frameCount].
  repeat split; rewrite ?length_computeNovelty, !length_map, frameLoop_length, length_seq;
    reflexivity.
Qed.

End WithRuntime.

End ExtractFacts.

(** ** Degenerate inputs *)

Module Degenerate.

Import Spec NumFacts.
Local Open Scope nat_scope.

(** When no window fits ([0 + win <= L] fails) the scan of [findBestHook]
    does not run, and the initial [-Infinity] is returned as the score. *)
Lemma bestHookOf_no_window (f : Energy.Features) (frameSec windowSec : num)
      (weights : Energy.Weights) :
  let L := Energy.commonLength f in
  let win := Energy.windowFrames windowSec frameSec in
  (ofNat 0 + win <=? ofNat L)%num = false ->
  Energy.score (Energy.bestHookOf f frameSec windowSec weights) = NegInf /\
  Energy.startSec (Energy.bestHookOf f frameSec windowSec weights)
  = (ofNat 0 * frameSec)%num.
Proof.
  intros L win H. unfold Energy.bestHookOf. fold L. fold win.
  cbn [Energy.windowScan]. rewrite H. split; reflexivity.
Qed.

(** C2 fails on the code for [findBestHook].  At 22050 Hz with a 17 s
    window, every buffer shorter than 376832 samples (in particular the
    empty one) gives fewer than 183 frames: no window fits, and the hook
    returned has score [-Infinity], not 0.  [findChorusHook] has a guard
    for this case ([!isFinite(best)]); [findBestHook] has none. *)
Theorem findBestHook_short_track_score {M : MathLib} {F : FFTLib}
        (samples : list num) (weights : Energy.Weights) :
  (Z.of_nat (length samples) < 376832)%Z ->
  exists h,
    Energy.findBestHook samples 22050 (ofZ 17) weights true = Some h /\
    Energy.startSec h = zero /\
    Energy.score h = NegInf /\
    Energy.score h <> zero.
Proof.
  intros Hlen.
  assert (EN : Energy.nextPow2 (Energy.targetSize 22050 (Q2Qc (1 # 10))) = Some 4096%Z)
    by reflexivity.
  destruct (ExtractFacts.extract_shape samples 22050 (Q2Qc (1 # 10)) EN)
    as (r & Er & _ & _ & Hn & Hfs & Le & Lc & Lz & _ & Ln).
  unfold Energy.findBestHook. rewrite Er. cbn [bind fst snd].
  eexists. split; [reflexivity|].
  assert (Hfr : (Z.to_nat (Energy.nFrames r) <= 182)).
  { rewrite Hn. unfold Energy.frameCount. change (4096 / 2)%Z with 2048%Z.
    assert ((Z.of_nat (length samples) - 4096) / 2048 + 1 <= 182)%Z; [|lia].
    assert ((Z.of_nat (length samples) - 4096) / 2048 < 182)%Z; [|lia].
    apply Z.div_lt_upper_bound; lia. }
  destruct (@bestHookOf_no_window (Energy.features r) (Energy.frameSec r) (ofZ 17) weights)
    as [Hs Hst].
  { unfold Energy.commonLength, Energy.windowFrames.
    rewrite Le, Lc, Lz, Ln, !Nat.min_id, Hfs.
    change (4096 / 2)%Z with 2048%Z.
    assert (Ew : nmax one (nfloor (ofZ 17 / (ofZ 2048 / ofZ 22050))%num) = ofZ 183) by num_eq.
    rewrite Ew. unfold ofNat. rewrite ofZ_add, nle_ofZ.
    apply Z.leb_gt. lia. }
  rewrite Hs, Hst, Hfs. split; [num_eq|]. split; [reflexivity|discriminate].
Qed.

Lemma findBestHook_short_track_score_witness :
  exists h,
    Energy.findBestHook (M := Runtime.math) (F := Runtime.fft)
      [] 22050 (ofZ 17) (Energy.genrePresets Energy.hiphop) true = Some h /\
    Energy.startSec h = zero /\
    Energy.score h = NegInf /\
    Energy.score h <> zero.
Proof.
  apply (findBestHook_short_track_score (M := Runtime.math) (F := Runtime.fft)
           [] (Energy.genrePresets Energy.hiphop)).
  simpl. lia.
Defined.

(** The chorus scan does have the guard: its score is always finite. *)
Lemma chorusHookOf_score_finite {M : MathLib}
      (C : list (list num)) (frameSec windowSec : num) (h : Sections.ChorusHook) :
  Sections.chorusHookOf C frameSec windowSec = Some h ->
  isFinite (Sections.score h) = true.
Proof.
  unfold Sections.chorusHookOf. destruct C as [|c C].
  - intros [= <-]. reflexivity.
  - destruct (Sections.repetitionScore _ _ _) as [Rraw|]; cbn [bind]; [|discriminate].
    destruct (Sections.chorusScan _ _ _ _ _) as [[[best bestIdx] mn] mx].
    destruct (isFinite best) eqn:E; simpl; intros [= <-]; simpl; [exact E|reflexivity].
Qed.

End Degenerate.

(** ** The method selector *)

Module Selector.

Import Spec NumFacts.
Local Open Scope nat_scope.

Lemma nsub_self (q : Qc) : (Fin q - Fin q)%num = zero.
Proof.
  unfold nsub. simpl. unfold zero, ofZ. f_equal. apply Qcplus_opp_r.
Qed.

Lemma zero_mul_fin (q : Qc) : (zero * Fin q)%num = zero.
Proof. unfold zero, ofZ. simpl. f_equal. apply Qcmult_0_l. Qed.

(** The energy candidate carries no range: its normalized score is 0
    whenever its score is finite. *)
Lemma normOf_energy (a : Energy.Hook) :
  isFinite (Energy.score a) = true -> Index.normOf (Index.ofEnergy a) = zero.
Proof.
  unfold Index.normOf, Index.norm, Index.ofEnergy. simpl.
  destruct (Energy.score a) as [| |q|]; try discriminate. intros _.
  rewrite nsub_self. apply Similarity.ndiv_zero_truthy, Similarity.truthy_orElse_one.
Qed.

(** With a range, the normalized score is [(s - lo) / ((hi - lo) || 1)]. *)
Lemma normOf_chorus (b : Sections.ChorusHook) :
  Index.normOf (Index.ofChorus b)
  = ((Sections.score b - Sections.scoreMin b)
     / orElse (Sections.scoreMax b - Sections.scoreMin b) one)%num.
Proof. reflexivity. Qed.

(** The decision itself is the comparison [bN > aN * 1.05]. *)
Lemma selectAuto_rule (a b : Index.Candidate) :
  Index.method (Index.selectAuto a (Some b))
  = if (Index.normOf b >? Index.normOf a * Index.bias)%num
    then Index.chorus else Index.energy.
Proof.
  unfold Index.selectAuto.
  destruct (Index.normOf b >? Index.normOf a * Index.bias)%num; reflexivity.
Qed.

(** On candidates that do carry the range [0, 1], the two cases of the
    specification come out as it says. *)
Lemma selectAuto_examples :
  let cand s := {| Index.c_startSec := zero; Index.c_score := ofQ s;
                   Index.c_scoreMin := Some zero; Index.c_scoreMax := Some one;
                   Index.c_frameSec := one |} in
  Index.method (Index.selectAuto (cand (80 # 100)) (Some (cand (83 # 100)))) = Index.energy /\
  Index.method (Index.selectAuto (cand (80 # 100)) (Some (cand (90 # 100)))) = Index.chorus.
Proof. split; reflexivity. Qed.

(** C1 fails on the code for the energy strategy.  [findBestHook] returns
    no [scoreMin] and no [scoreMax], so the selector falls back on
    [norm(score, score, score + 1e-9)]: the normalized energy score is 0
    for every finite score, the window scores seen by the scan play no
    part, and chorus wins exactly when its own normalized score is
    positive. *)
Theorem energy_score_is_not_normalized (a : Energy.Hook) (b : Sections.ChorusHook) :
  isFinite (Energy.score a) = true ->
  Index.normOf (Index.ofEnergy a) = zero /\
  Index.method (Index.selectAuto (Index.ofEnergy a) (Some (Index.ofChorus b)))
  = if (Index.normOf (Index.ofChorus b) >? zero)%num then Index.chorus else Index.energy.
Proof.
  intros Hf. split; [apply normOf_energy; exact Hf|].
  rewrite selectAuto_rule, normOf_energy by exact Hf.
  unfold Index.bias, ofQ. rewrite zero_mul_fin. reflexivity.
Qed.

(** An energy hook of score 0.8 against a chorus hook of score 0.5 whose
    window means ranged over [0.2, 0.5]: chorus is chosen, with the energy
    score normalized to 0. *)
Lemma energy_score_is_not_normalized_witness :
  let a := {| Energy.startSec := ofZ 3; Energy.score := ofQ (8 # 10);
              Energy.hookFeatures :=
                {| Energy.energy := []; Energy.centroid := []; Energy.zcr := [];
                   Energy.spectralFlux := []; Energy.novelty := [] |};
              Energy.hookFrameSec := ofQ (1 # 10) |} in
  let b := {| Sections.startSec := ofZ 7; Sections.score := ofQ (5 # 10);
              Sections.scoreMin := ofQ (2 # 10); Sections.scoreMax := ofQ (5 # 10);
              Sections.frameSec := ofQ (1 # 10); Sections.repetition := [] |} in
  Index.normOf (Index.ofEnergy a) = zero /\
  Index.method (Index.selectAuto (Index.ofEnergy a) (Some (Index.ofChorus b)))
  = if (Index.normOf (Index.ofChorus b) >? zero)%num then Index.chorus else Index.energy.
Proof.
  intros a b. apply (energy_score_is_not_normalized a b). reflexivity.
Defined.

(** A run of the [auto] branch.  The energy scan sees window values from
    about 0.05 to about 0.8327 and returns the greatest, so its score
    normalized by its own range is 1, and 1 > 1 * 1.05 fails: energy
    should be chosen.  The code normalizes it to 0 and chooses chorus. *)
Lemma auto_run_ignores_energy_range :
  let weights := Energy.genrePresets Energy.hiphop in
  let a := Energy.bestHookOf sixFrames one (ofZ 2) weights in
  let L := Energy.commonLength sixFrames in
  let N := Energy.normalize (firstn L (Energy.novelty sixFrames)) in
  let scores :=
    Energy.frameScores weights
      (Energy.normalize (firstn L (Energy.energy sixFrames)))
      (Energy.normalize (firstn L (Energy.centroid sixFrames)))
      (Energy.normalize (firstn L (Energy.zcr sixFrames))) N L in
  let range := scoreRange (Energy.windowValue (Energy.prefixSums scores) N (ofNat 2))
                          (validStarts L 2) in
  let b := Sections.chorusHookOf (M := Runtime.math) repeatedPattern one (ofZ 8) in
  [fst range; snd range; Energy.score a]
  = [ofQ (838861 # 16777216); ofQ (7500638089514657 # 9007199254740992);
     ofQ (7500638089514657 # 9007199254740992)] /\
  Index.norm (Energy.score a) (fst range) (snd range) = one /\
  option_map (fun b => [Index.normOf (Index.ofChorus b); Index.normOf (Index.ofEnergy a)]) b
  = Some [one; zero] /\
  (one >? one * Index.bias)%num = false /\
  option_map (fun b => Index.method (Index.selectAuto (Index.ofEnergy a)
                                       (Some (Index.ofChorus b)))) b
  = Some Index.chorus.
Proof.
  cbv zeta. split; [list_eq|]. split; [num_eq|]. split; [opt_list_eq|].
  split; vm_compute; reflexivity.
Qed.

End Selector.

(** ** The sliding-window scans *)

Module WindowScan.

Import Spec NumFacts.
Local Open Scope nat_scope.

Lemma allFinite_map (l : list num) : allFinite l -> exists qs, l = map Fin qs.
Proof.
  induction 1 as [|x l Hx _ (qs & ->)].
  - exists []. reflexivity.
  - destruct x as [| |q|]; try discriminate. exists (q :: qs). reflexivity.
Qed.

Lemma sumFrom_fin (l : list Qc) (a : Qc) :
  sumFrom (Fin a) (map Fin l) = Fin (a + qsum l)%Qc.
Proof.
  unfold sumFrom. revert a. induction l as [|x l IH]; intros a; cbn [map fold_left qsum].
  - f_equal. ring.
  - change (Fin a + Fin x)%num with (Fin (a + x)%Qc). rewrite IH. f_equal. ring.
Qed.

Lemma zero_fin : zero = Fin (Q2Qc 0).
Proof. reflexivity. Qed.

Lemma windowSum_fin (qs : list Qc) (s w : nat) :
  windowSum (map Fin qs) s w = Fin (qsum (firstn w (skipn s qs))).
Proof.
  unfold windowSum. rewrite skipn_map, firstn_map, zero_fin, sumFrom_fin.
  f_equal. ring.
Qed.

(** [P (s + w) = P s + (the window sum)], with [P k] the sum of the first
    [k] values. *)
Lemma qsum_firstn_add (qs : list Qc) (s w : nat) :
  qsum (firstn (s + w) qs) = (qsum (firstn s qs) + qsum (firstn w (skipn s qs)))%Qc.
Proof.
  revert qs. induction s as [|s IH]; intros qs; simpl.
  - ring.
  - destruct qs as [|x qs]; simpl.
    + rewrite firstn_nil. simpl. ring.
    + rewrite IH. ring.
Qed.

Lemma qsum_firstn_S (qs : list Qc) (k : nat) :
  k < length qs ->
  qsum (firstn (S k) qs) = (qsum (firstn k qs) + nth k qs (Q2Qc 0))%Qc.
Proof.
  revert qs. induction k as [|k IH]; intros [|x qs] Hk; simpl in *; try lia.
  - ring.
  - rewrite (IH qs) by lia. destruct qs; simpl; ring.
Qed.

Lemma get_map_fin (qs : list Qc) (k : nat) :
  k < length qs -> get (map Fin qs) k = Fin (nth k qs (Q2Qc 0)).
Proof.
  intros Hk. unfold get.
  rewrite (nth_indep _ NaN (Fin (Q2Qc 0))) by (rewrite length_map; exact Hk).
  apply map_nth.
Qed.

Lemma Qred_inject_Z (z : Z) : Qred (inject_Z z) = inject_Z z.
Proof. apply Qred_identity. simpl. apply Z.gcd_1_r. Qed.

Lemma indexOf_ofNat (n : nat) : indexOf (ofNat n) = Some n.
Proof.
  unfold indexOf, ofNat, ofZ, Q2Qc. cbn [this].
  rewrite Qred_inject_Z. simpl.
  destruct (Z.leb_spec 0 (Z.of_nat n)); [|lia].
  rewrite Nat2Z.id. reflexivity.
Qed.

Lemma getAt_ofNat (a : list num) (n : nat) : getAt a (ofNat n) = get a n.
Proof. unfold getAt. rewrite indexOf_ofNat. reflexivity. Qed.

Lemma ofNat_add (a b : nat) : (ofNat a + ofNat b)%num = ofNat (a + b).
Proof. unfold ofNat. rewrite ofZ_add, Nat2Z.inj_add. reflexivity. Qed.

Lemma nle_ofNat (a b : nat) : nle (ofNat a) (ofNat b) = (a <=? b).
Proof.
  unfold ofNat. rewrite nle_ofZ.
  destruct (Z.leb_spec (Z.of_nat a) (Z.of_nat b)), (Nat.leb_spec a b); try reflexivity; lia.
Qed.

(** *** Sums that are not rounded *)

Lemma exactSums_spec (rnd : num -> num) (series : list num) (most s n : nat) :
  exactSums rnd series most = true -> s <= length series -> n <= most ->
  rnd (windowSum series s n) = windowSum series s n.
Proof.
  unfold exactSums. intros H Hs Hn. rewrite forallb_forall in H.
  specialize (H s). rewrite forallb_forall in H.
  apply sameNum_eq. apply H; apply in_seq; lia.
Qed.

(** Without rounding, the stored prefix sums are the sums of the first
    [k] values. *)
Lemma get_prefixFrom (l : list Qc) :
  forall a : Qc,
    (forall k, k <= length l ->
               fround (Fin (a + qsum (firstn k l))%Qc) = Fin (a + qsum (firstn k l))%Qc) ->
    forall k, k <= length l ->
      get (Fin a :: Energy.prefixFrom (Fin a) (map Fin l)) k = Fin (a + qsum (firstn k l))%Qc.
Proof.
  induction l as [|x l IH]; intros a H k Hk; cbn [map Energy.prefixFrom length] in *.
  - assert (k = 0) by lia. subst k. unfold get. cbn [nth firstn qsum]. f_equal. ring.
  - destruct k as [|k].
    + unfold get. cbn [nth firstn qsum]. f_equal. ring.
    + change (Fin a + Fin x)%num with (Fin (a + x)%Qc).
      assert (E1 : fround (Fin (a + x)%Qc) = Fin (a + x)%Qc).
      { pose proof (H 1 ltac:(lia)) as H1. cbn [firstn qsum] in H1.
        replace (a + (x + Q2Qc 0))%Qc with (a + x)%Qc in H1 by ring. exact H1. }
      rewrite E1.
      change (get (Fin (a + x)%Qc :: Energy.prefixFrom (Fin (a + x)%Qc) (map Fin l)) k
              = Fin (a + qsum (firstn (S k) (x :: l)))%Qc).
      rewrite IH; [cbn [firstn qsum]; f_equal; ring| |lia].
      intros j Hj. pose proof (H (S j) ltac:(lia)) as Hj'. cbn [firstn qsum] in Hj'.
      replace (a + x + qsum (firstn j l))%Qc with (a + (x + qsum (firstn j l)))%Qc by ring.
      exact Hj'.
Qed.

Lemma get_prefixSums (qs : list Qc) (k : nat) :
  exactSums fround (map Fin qs) (length qs) = true ->
  k <= length qs ->
  get (Energy.prefixSums (map Fin qs)) k = Fin (qsum (firstn k qs)).
Proof.
  intros Hex Hk. unfold Energy.prefixSums. rewrite zero_fin, get_prefixFrom.
  - f_equal. ring.
  - intros j Hj.
    pose proof (@exactSums_spec fround (map Fin qs) (length qs) 0 j Hex ltac:(lia) Hj) as E.
    rewrite windowSum_fin in E. cbn [skipn] in E.
    replace (Q2Qc 0 + qsum (firstn j qs))%Qc with (qsum (firstn j qs)) by ring. exact E.
  - exact Hk.
Qed.

(** The difference of two prefix sums is then the window sum. *)
Lemma prefix_difference (qs : list Qc) (i w : nat) :
  exactSums fround (map Fin qs) (length qs) = true ->
  i + w <= length qs ->
  (getAt (Energy.prefixSums (map Fin qs)) (ofNat i + ofNat w)
   - get (Energy.prefixSums (map Fin qs)) i)%num
  = windowSum (map Fin qs) i w.
Proof.
  intros Hex H. rewrite ofNat_add, getAt_ofNat, !get_prefixSums by (assumption || lia).
  rewrite windowSum_fin, qsum_firstn_add.
  unfold nsub. simpl. f_equal. ring.
Qed.

(** *** The scan loops as folds *)

Lemma windowScan_fold (cond : nat -> bool) (value : nat -> num) (n : nat) :
  forall fuel i (st : num * nat),
    n < fuel ->
    (forall j, i <= j < i + n -> cond j = true) ->
    cond (i + n) = false ->
    Energy.windowScan fuel cond value i (fst st) (snd st)
    = fold_left (keepBest value) (seq i n) st.
Proof.
  induction n as [|n IH]; intros fuel i [b bi] Hf Ht Hfalse;
    (destruct fuel as [|fuel]; [lia|]); cbn [Energy.windowScan seq fold_left fst snd].
  - rewrite Nat.add_0_r in Hfalse. rewrite Hfalse. reflexivity.
  - rewrite (Ht i) by lia. unfold keepBest at 2. cbn [fst].
    destruct (value i >? b)%num.
    + apply (IH fuel (S i) (value i, i)); [lia| |].
      * intros j Hj. apply Ht. lia.
      * rewrite <- Hfalse. f_equal. lia.
    + apply (IH fuel (S i) (b, bi)); [lia| |].
      * intros j Hj. apply Ht. lia.
      * rewrite <- Hfalse. f_equal. lia.
Qed.

Lemma keepBest_ext (value value' : nat -> num) (l : list nat) (st : num * nat) :
  (forall i, In i l -> value i = value' i) ->
  fold_left (keepBest value) l st = fold_left (keepBest value') l st.
Proof.
  revert st. induction l as [|i l IH]; intros st H; cbn [fold_left]; [reflexivity|].
  unfold keepBest at 2 4. rewrite (H i) by (left; reflexivity).
  apply IH. intros j Hj. apply H. right. exact Hj.
Qed.

(** The loop test [i + win <= L] holds exactly at the valid starts. *)
Lemma scan_over_valid_starts (value : nat -> num) (L w : nat) :
  1 <= w ->
  Energy.windowScan (S L) (fun i => (ofNat i + ofNat w <=? ofNat L)%num) value 0 NegInf 0
  = bruteForce value (validStarts L w).
Proof.
  intros Hw. unfold bruteForce, validStarts.
  apply (@windowScan_fold (fun i => (ofNat i + ofNat w <=? ofNat L)%num) value
           (L + 1 - w) (S L) 0 (NegInf, 0)).
  - lia.
  - intros j Hj. rewrite ofNat_add, nle_ofNat. apply Nat.leb_le. lia.
  - rewrite ofNat_add, nle_ofNat. apply Nat.leb_gt. lia.
Qed.

Lemma chorusScan_windowScan (cond : nat -> bool) (value : nat -> num) (fuel : nat) :
  forall i best bestIdx mn mx,
    fst (fst (Sections.chorusScan fuel cond value i (best, bestIdx, mn, mx)))
    = Energy.windowScan fuel cond value i best bestIdx.
Proof.
  induction fuel as [|fuel IH]; intros i best bestIdx mn mx;
    cbn [Sections.chorusScan Energy.windowScan]; [reflexivity|].
  destruct (cond i); [|reflexivity].
  destruct (value i >? best)%num; apply IH.
Qed.

(** *** The running sum of [bestWindowStartSec] *)

Lemma runningSum_S (series : list num) (w k : nat) :
  runningSum series w (S k)
  = if w <=? k
    then round64 (round64 (runningSum series w k + get series k) - get series (k - w))%num
    else round64 (runningSum series w k + get series k)%num.
Proof. reflexivity. Qed.

(** The loop keeps the best of the running sums, as the reference does. *)
Lemma running_invariant (series : list num) (w k : nat) :
  1 <= w ->
  fold_left (Energy.bestWindowStep series (ofNat w)) (seq 0 k) (NegInf, zero, zero)
  = let B := fold_left (keepBest (fun s => runningSum series w (s + w)))
                       (seq 0 (k + 1 - w)) (NegInf, 0) in
    (fst B, ofNat (snd B), runningSum series w k).
Proof.
  intros w_pos. induction k as [|k IH].
  - replace (0 + 1 - w) with 0 by lia. reflexivity.
  - rewrite seq_S, fold_left_app, IH. cbn zeta. cbn [fold_left Nat.add].
    set (B := fold_left (keepBest (fun s => runningSum series w (s + w)))
                        (seq 0 (k + 1 - w)) (NegInf, 0)).
    unfold Energy.bestWindowStep.
    unfold nge. rewrite nle_ofNat.
    assert (Ecurr :
              (if w <=? k
               then round64 (round64 (runningSum series w k + get series k)
                             - getAt series (ofNat k - ofNat w))%num
               else round64 (runningSum series w k + get series k)%num)
              = runningSum series w (S k)).
    { rewrite runningSum_S. destruct (Nat.leb_spec w k) as [H|H]; [|reflexivity].
      unfold ofNat at 1 2. rewrite ofZ_sub.
      replace (Z.of_nat k - Z.of_nat w)%Z with (Z.of_nat (k - w)) by lia.
      fold (ofNat (k - w)). rewrite getAt_ofNat. reflexivity. }
    rewrite Ecurr.
    assert (Etest : nle (ofNat w - one)%num (ofNat k) = (w <=? S k)).
    { unfold ofNat, one. rewrite ofZ_sub, nle_ofZ.
      destruct (Z.leb_spec (Z.of_nat w - 1) (Z.of_nat k)), (Nat.leb_spec w (S k));
        try reflexivity; lia. }
    rewrite Etest.
    destruct (Nat.leb_spec w (S k)) as [H|H].
    + replace (S (k + 1) - w) with (S (k + 1 - w)) by lia.
      rewrite seq_S, fold_left_app. fold B. cbn [fold_left Nat.add].
      unfold keepBest. replace (k + 1 - w + w) with (S k) by lia. cbn [andb].
      destruct (runningSum series w (S k) >? fst B)%num; cbn [fst snd]; [|reflexivity].
      f_equal. f_equal. unfold ofNat, one. rewrite ofZ_sub, ofZ_add.
      f_equal. lia.
    + replace (S (k + 1) - w) with 0 by lia. cbn [andb seq fold_left fst snd].
      subst B. replace (k + 1 - w) with 0 by lia. reflexivity.
Qed.

Lemma bestWindowStartIdx_running (series : list num) (w : nat) :
  1 <= w ->
  Energy.bestWindowStartIdx series (ofNat w)
  = ofNat (snd (bruteForce (fun s => runningSum series w (s + w))
                           (validStarts (length series) w))).
Proof.
  intros Hw. unfold Energy.bestWindowStartIdx.
  rewrite running_invariant by exact Hw. reflexivity.
Qed.

(** Without rounding, the running sum is the sum of the window. *)
Section Running.

Variable qs : list Qc.
Variable w : nat.
Hypothesis w_pos : 1 <= w.
Hypothesis exact : exactSums round64 (map Fin qs) (S w) = true.

Let series := map Fin qs.
Let P (k : nat) : Qc := qsum (firstn k qs).
Let x (k : nat) : Qc := nth k qs (Q2Qc 0).
Let c (k : nat) : Qc := (P k - P (k - w))%Qc.

Lemma running_step (k : nat) :
  k < length qs ->
  (if w <=? k then c k + x k + - x (k - w) else c k + x k)%Qc = c (S k).
Proof.
  intros Hk. unfold c, P.
  rewrite (qsum_firstn_S qs Hk). fold (x k).
  destruct (Nat.leb_spec w k) as [H|H].
  - replace (S k - w) with (S (k - w)) by lia.
    rewrite (@qsum_firstn_S qs (k - w)) by lia. fold (x (k - w)). ring.
  - replace (S k - w) with 0 by lia. replace (k - w) with 0 by lia. ring.
Qed.

(** The sum of the [n] values from [s] on, as a difference. *)
Lemma window_difference (s n : nat) :
  s + n <= length qs -> windowSum series s n = Fin (P (s + n) - P s)%Qc.
Proof.
  intros H. unfold series. rewrite windowSum_fin. f_equal. unfold P.
  rewrite qsum_firstn_add. ring.
Qed.

Lemma window_value (k : nat) :
  w <= S k -> S k <= length qs ->
  windowSum series (S k - w) w = Fin (c (S k)).
Proof.
  intros H1 H2. rewrite window_difference by lia. unfold c.
  replace (S k - w + w) with (S k) by lia. reflexivity.
Qed.

Lemma runningSum_exact (k : nat) :
  k <= length qs -> runningSum series w k = Fin (c k).
Proof.
  induction k as [|k IH]; intros Hk.
  - unfold c, P. cbn [runningSum firstn qsum Nat.sub]. unfold zero, ofZ.
    f_equal; apply Qc_is_canon; reflexivity.
  - rewrite runningSum_S, IH by lia.
    assert (Eget : get series k = Fin (x k)) by (apply get_map_fin; lia).
    rewrite Eget. change (Fin (c k) + Fin (x k))%num with (Fin (c k + x k)%Qc).
    assert (E1 : round64 (Fin (c k + x k)%Qc) = Fin (c k + x k)%Qc).
    { assert (Ew : windowSum series (k - w) (S k - (k - w)) = Fin (c k + x k)%Qc).
      { rewrite window_difference by lia. f_equal. unfold c.
        replace (k - w + (S k - (k - w))) with (S k) by lia.
        unfold P. rewrite (qsum_firstn_S qs Hk). fold (x k). ring. }
      rewrite <- Ew. apply (@exactSums_spec round64 series (S w)); [exact exact| |lia].
      unfold series. rewrite length_map. lia. }
    rewrite E1.
    destruct (Nat.leb_spec w k) as [H|H].
    + assert (Eget2 : get series (k - w) = Fin (x (k - w))) by (apply get_map_fin; lia).
      rewrite Eget2.
      change (Fin (c k + x k)%Qc - Fin (x (k - w)))%num
        with (Fin (c k + x k + - x (k - w))%Qc).
      pose proof (running_step Hk) as Es.
      destruct (Nat.leb_spec w k) as [_|H']; [|lia]. rewrite Es.
      rewrite <- (window_value (k := k)) by lia.
      apply (@exactSums_spec round64 series (S w)); [exact exact| |lia].
      unfold series. rewrite length_map. lia.
    + pose proof (running_step Hk) as Es.
      destruct (Nat.leb_spec w k) as [H'|_]; [lia|]. rewrite Es. reflexivity.
Qed.

Lemma runningSum_window (s : nat) :
  s + w <= length qs -> runningSum series w (s + w) = windowSum series s w.
Proof.
  intros H. rewrite runningSum_exact by exact H.
  replace (s + w) with (S (s + w - 1)) at 1 by lia.
  rewrite <- window_value by lia. f_equal. lia.
Qed.

End Running.

(** *** What the reference returns: the earliest maximum *)

Lemma nlt_irrefl (a : num) : nlt a a = false.
Proof. destruct a; simpl; try reflexivity. apply qltb_irrefl. Qed.

Lemma qltb_false (a b : Qc) : qltb a b = false <-> (b <= a)%Qc.
Proof.
  split; intros H.
  - apply Qcnot_lt_le. intros Hlt. apply qltb_lt in Hlt. congruence.
  - destruct (qltb a b) eqn:E; [|reflexivity].
    apply qltb_lt in E. exfalso. revert E. apply Qcle_not_lt. exact H.
Qed.

(** Two chains on finite values: from [b <= a] and [a < c], both
    [b < c] and [not (c < b)]. *)
Lemma nlt_le_lt (a b c : Qc) :
  nlt (Fin a) (Fin b) = false -> nlt (Fin a) (Fin c) = true -> nlt (Fin b) (Fin c) = true.
Proof.
  simpl. intros H1 H2. apply qltb_false in H1. apply qltb_lt in H2.
  apply qltb_lt. eapply Qcle_lt_trans; eassumption.
Qed.

Lemma nlt_lt_le (a b c : Qc) :
  nlt (Fin a) (Fin b) = false -> nlt (Fin a) (Fin c) = true -> nlt (Fin c) (Fin b) = false.
Proof.
  simpl. intros H1 H2. apply qltb_false in H1. apply qltb_lt in H2.
  apply qltb_false. apply Qclt_le_weak. eapply Qcle_lt_trans; eassumption.
Qed.

Lemma bruteForce_earliest_max (value : nat -> num) (n : nat) :
  (forall i, i < n -> isFinite (value i) = true) ->
  0 < n ->
  let B := bruteForce value (seq 0 n) in
  snd B < n /\ fst B = value (snd B) /\
  (forall j, j < n -> nlt (fst B) (value j) = false) /\
  (forall j, j < snd B -> nlt (value j) (fst B) = true).
Proof.
  intros Hfin Hn. cbv zeta. unfold bruteForce.
  destruct n as [|n]; [lia|]. clear Hn.
  induction n as [|n IH].
  - cbn [seq fold_left]. unfold keepBest. cbn [fst].
    specialize (Hfin 0 (Nat.lt_0_succ 0)).
    destruct (value 0) as [| |v|] eqn:E; try discriminate.
    cbn [ngt nlt fst snd]. split; [lia|]. split; [symmetry; exact E|]. split.
    + intros j Hj. assert (j = 0) by lia. subst j. rewrite E.
      apply (nlt_irrefl (Fin v)).
    + intros j Hj. lia.
  - rewrite seq_S, fold_left_app. cbn [fold_left Nat.add].
    destruct IH as (Hk & Hb & Hmax & Hmin).
    { intros i Hi. apply Hfin. lia. }
    set (B := fold_left (keepBest value) (seq 0 (S n)) (NegInf, 0)) in *.
    destruct B as [b k]. cbn [fst snd] in *.
    unfold keepBest. cbn [fst].
    pose proof (Hfin (S n) (Nat.lt_succ_diag_r (S n))) as Fv.
    pose proof (Hfin k (Nat.lt_lt_succ_r _ _ Hk)) as Fk.
    destruct (value (S n)) as [| |v|] eqn:Ev; try discriminate.
    rewrite <- Hb in Fk. destruct b as [| |bq|]; try discriminate.
    unfold ngt. destruct (nlt (Fin bq) (Fin v)) eqn:Ecmp; cbn [fst snd].
    + split; [lia|]. split; [symmetry; exact Ev|]. split.
      * intros j Hj. destruct (Nat.eq_dec j (S n)) as [->|Hne].
        -- rewrite Ev. apply nlt_irrefl.
        -- assert (Hj' : j < S n) by lia.
           pose proof (Hfin j Hj) as Fj. specialize (Hmax j Hj').
           destruct (value j) as [| |vj|]; try discriminate.
           eapply nlt_lt_le; eassumption.
      * intros j Hj.
        pose proof (Hfin j (Nat.lt_lt_succ_r _ _ Hj)) as Fj. specialize (Hmax j Hj).
        destruct (value j) as [| |vj|]; try discriminate.
        eapply nlt_le_lt; eassumption.
    + split; [lia|]. split; [exact Hb|]. split.
      * intros j Hj. destruct (Nat.eq_dec j (S n)) as [->|Hne].
        -- rewrite Ev. exact Ecmp.
        -- apply Hmax. lia.
      * exact Hmin.
Qed.

(** *** The scans of the two hook finders *)

(** [findBestHook], once the features are known and with a window of
    [w >= 1] frames: the score and the start are those of the reference
    over the values the scan computes. *)
Lemma bestHookOf_scan (f : Energy.Features) (frameSec windowSec : num)
      (weights : Energy.Weights) (w : nat) :
  Energy.windowFrames windowSec frameSec = ofNat w -> 1 <= w ->
  let L := Energy.commonLength f in
  let N := Energy.normalize (firstn L (Energy.novelty f)) in
  let scores :=
    Energy.frameScores weights
      (Energy.normalize (firstn L (Energy.energy f)))
      (Energy.normalize (firstn L (Energy.centroid f)))
      (Energy.normalize (firstn L (Energy.zcr f))) N L in
  let B := bruteForce (Energy.windowValue (Energy.prefixSums scores) N (ofNat w))
                      (validStarts L w) in
  Energy.score (Energy.bestHookOf f frameSec windowSec weights) = fst B /\
  Energy.startSec (Energy.bestHookOf f frameSec windowSec weights)
  = (ofNat (snd B) * frameSec)%num.
Proof.
  intros Hwin Hw L N scores B.
  unfold Energy.bestHookOf. fold L. fold N. fold scores. rewrite Hwin.
  rewrite scan_over_valid_starts by exact Hw. fold B.
  destruct B as [best idx]. split; reflexivity.
Qed.

(** [findChorusHook], once the chroma sequence is known: the score and
    the start are those of the reference over the values the scan
    computes, unless the best of them is not finite. *)
Lemma chorusHookOf_scan {M : MathLib} (C : list (list num)) (frameSec windowSec : num)
      (h : Sections.ChorusHook) (w : nat) :
  Sections.chorusHookOf C frameSec windowSec = Some h ->
  C <> [] ->
  let R := Sections.repetition h in
  nmax one (nmin (nmax (ofZ 8) (nfloor (windowSec / frameSec)%num)) (ofNat (length R)))
  = ofNat w ->
  1 <= w ->
  let B := bruteForce (Sections.chorusValue (Energy.prefixSums R) (ofNat w))
                      (validStarts (length R) w) in
  if isFinite (fst B)
  then Sections.score h = fst B /\ Sections.startSec h = (ofNat (snd B) * frameSec)%num
  else Sections.score h = zero /\ Sections.startSec h = zero.
Proof.
  unfold Sections.chorusHookOf. destruct C as [|c C]; [intros _ H; contradiction|].
  destruct (Sections.repetitionScore _ _ _) as [Rraw|]; cbn [bind]; [|discriminate].
  set (R0 := Sections.smooth1D Rraw 5).
  intros Hh _.
  assert (ER : Sections.repetition h = R0).
  { destruct (Sections.chorusScan _ _ _ _ _) as [[[best idx] mn] mx].
    destruct (negb (isFinite best)); injection Hh as <-; reflexivity. }
  cbv zeta. rewrite ER. intros HW Hw.
  rewrite HW in Hh.
  pose proof (@chorusScan_windowScan
                (fun i => (ofNat i + ofNat w <=? ofNat (length R0))%num)
                (Sections.chorusValue (Energy.prefixSums R0) (ofNat w))
                (S (length R0)) 0 NegInf 0 PosInf NegInf) as Hscan.
  rewrite scan_over_valid_starts in Hscan by exact Hw.
  destruct (Sections.chorusScan _ _ _ _ _) as [[[best idx] mn] mx].
  cbn [fst] in Hscan. rewrite <- Hscan. cbn [fst snd].
  destruct (isFinite best); cbn [negb] in Hh; injection Hh as <-;
    cbn [Sections.score Sections.startSec]; split; reflexivity.
Qed.

(** *** Without rounding: the window sums *)

Lemma energy_value_exact (series N : list num) (w s : nat) :
  allFinite series -> exactSums fround series (length series) = true ->
  s + w <= length series ->
  Energy.windowValue (Energy.prefixSums series) N (ofNat w) s
  = meanWithBonus N w (windowSum series s w) s.
Proof.
  intros Hfin Hex Hs. destruct (allFinite_map Hfin) as (qs & ->).
  rewrite length_map in Hex, Hs.
  unfold Energy.windowValue, meanWithBonus, meanOf.
  rewrite prefix_difference by assumption.
  destruct s; reflexivity.
Qed.

Lemma chorus_value_exact (series : list num) (w s : nat) :
  allFinite series -> exactSums fround series (length series) = true ->
  s + w <= length series ->
  Sections.chorusValue (Energy.prefixSums series) (ofNat w) s
  = meanOf w (windowSum series s w).
Proof.
  intros Hfin Hex Hs. destruct (allFinite_map Hfin) as (qs & ->).
  rewrite length_map in Hex, Hs.
  unfold Sections.chorusValue, meanOf.
  rewrite prefix_difference by assumption. reflexivity.
Qed.

Lemma running_value_exact (series : list num) (w s : nat) :
  allFinite series -> 1 <= w -> exactSums round64 series (S w) = true ->
  s + w <= length series ->
  runningSum series w (s + w) = windowSum series s w.
Proof.
  intros Hfin Hw Hex Hs. destruct (allFinite_map Hfin) as (qs & ->).
  rewrite length_map in Hs. apply runningSum_window; assumption.
Qed.




End WindowScan.

(** ** Legacy and unified energy *)

Module Legacy.

Import Spec NumFacts.
Local Open Scope nat_scope.

Lemma orElse_finite (v : num) : isFinite v = true -> orElse v zero = v.
Proof.
  destruct v as [| |q|]; try discriminate. intros _. unfold orElse, truthy.
  destruct (qeqb q (Q2Qc 0)) eqn:E; [|reflexivity].
  apply qeqb_eq in E. subst q. reflexivity.
Qed.

(** On a finite buffer [samples[k] || 0] and [samples[k] ?? 0] agree. *)
Lemma or_is_nullish (samples : list num) (k : nat) :
  allFinite samples ->
  match nth_error samples k with
  | Some v => orElse v zero
  | None => zero
  end = nullish (nth_error samples k) zero.
Proof.
  intros Hfin. destruct (nth_error samples k) as [v|] eqn:E; [|reflexivity].
  simpl. apply orElse_finite.
  apply nth_error_In in E. unfold allFinite in Hfin.
  rewrite Forall_forall in Hfin. apply Hfin. exact E.
Qed.

Lemma fold_left_map {A B C : Type} (f : A -> B -> A) (g : C -> B) (l : list C) (a : A) :
  fold_left f (map g l) a = fold_left (fun a x => f a (g x)) l a.
Proof. revert a. induction l as [|x l IH]; intros a; simpl; [reflexivity|apply IH]. Qed.

Lemma fold_left_ext {A B : Type} (f g : A -> B -> A) (l : list B) (a : A) :
  (forall a x, f a x = g a x) -> fold_left f l a = fold_left g l a.
Proof.
  intros H. revert a. induction l as [|x l IH]; intros a; simpl; [reflexivity|].
  rewrite H. apply IH.
Qed.

Lemma float32Array_map (samples : list num) :
  float32Array samples -> map fround samples = samples.
Proof.
  induction 1 as [|x l Hx _ IH]; cbn [map]; [reflexivity|].
  rewrite IH. f_equal. apply sameNum_eq. exact Hx.
Qed.

Lemma float32Array_narrowed (samples : list num) : float32Array (map fround samples).
Proof.
  unfold float32Array. apply Forall_map, Forall_forall. intros x _.
  unfold isFloat32. rewrite Rounding.fround_idem. apply sameNum_refl.
Qed.

Lemma allFinite_narrowed (samples : list num) :
  allFinite samples -> allFinite (map fround samples).
Proof.
  unfold allFinite. intros H. apply Forall_map. revert H. apply Forall_impl.
  intros x Hx. rewrite Rounding.fround_finite. exact Hx.
Qed.

Section WithRuntime.
Context {M : MathLib} {F : FFTLib}.

(** The legacy frame energy of the narrowed buffer is the unified frame
    energy of the buffer. *)
Lemma rmsFrame_frameEnergy (samples : list num) (off size : nat) :
  allFinite samples ->
  Energy.rmsFrame (map fround samples) off size
  = Energy.frameEnergy (Energy.frameAt samples off size) size.
Proof.
  intros Hfin. unfold Energy.rmsFrame, Energy.frameEnergy, Energy.frameAt.
  rewrite fold_left_map. f_equal. f_equal.
  apply fold_left_ext. intros a j.
  rewrite (or_is_nullish (off + j) (allFinite_narrowed Hfin)).
  rewrite nth_error_map.
  destruct (nth_error samples (off + j)) as [v|]; cbn [option_map nullish]; [reflexivity|].
  rewrite Rounding.fround_zero. reflexivity.
Qed.

Lemma frameLoop_energy (samples : list num) (sampleRate : Z) (size hop : nat)
      (idxs : list nat) (prev : option (list num)) :
  map (fun r : Energy.Row => fst (fst (fst r)))
      (Energy.frameLoop samples sampleRate size hop idxs prev)
  = map (fun i => Energy.frameEnergy (Energy.frameAt samples (i * hop) size) size) idxs.
Proof.
  revert prev. induction idxs as [|i idxs IH]; intros prev; simpl; [reflexivity|].
  f_equal. apply IH.
Qed.

(** The unified energy series is the legacy one of the narrowed buffer. *)
Lemma unified_energy_narrows (samples : list num) (sampleRate : Z) (frameSec : Qc) :
  allFinite samples ->
  option_map fst (Energy.rmsSeries (map fround samples) sampleRate frameSec)
  = option_map (fun r => Energy.energy (Energy.features r))
               (Energy.extractAllFeatures samples sampleRate frameSec).
Proof.
  intros Hfin. unfold Energy.rmsSeries, Energy.extractAllFeatures.
  destruct (Energy.nextPow2 (Energy.targetSize sampleRate frameSec)) as [N|];
    cbn [bind option_map fst]; [|reflexivity].
  cbn [Energy.energy Energy.features]. f_equal.
  rewrite frameLoop_energy, length_map. apply map_ext. intros i.
  apply rmsFrame_frameEnergy. exact Hfin.
Qed.

End WithRuntime.

(** C10, as stated, fails on a buffer of doubles: the unified pass
    copies every sample into a [Float32Array] before it squares it, the
    legacy pass squares the double.  On the two samples 0.5 and 0.9 at
    22050 Hz the two energies of the only frame differ, and still differ
    once stored as binary32. *)
Lemma narrowing_changes_the_energy :
  let samples := [ofQ (1 # 2); ofQ (8106479329266893 # 9007199254740992)] in
  allFinite samples /\
  exists legacy unified,
    option_map fst (Energy.rmsSeries (M := Runtime.math) samples 22050 (Q2Qc (1 # 10)))
    = Some [legacy] /\
    option_map (fun r => Energy.energy (Energy.features r))
      (Energy.extractAllFeatures (M := Runtime.math) (F := Runtime.fft)
         samples 22050 (Q2Qc (1 # 10)))
    = Some [unified] /\
    legacy <> unified /\ fround legacy <> fround unified.
Proof.
  intros samples.
  assert (Hfin : allFinite samples) by (unfold allFinite, samples; repeat constructor).
  split; [exact Hfin|].
  rewrite <- (@unified_energy_narrows Runtime.math Runtime.fft samples 22050 _ Hfin).
  exists (Energy.rmsFrame (M := Runtime.math) samples 0 4096),
         (Energy.rmsFrame (M := Runtime.math) (map fround samples) 0 4096).
  split; [opt_list_eq|]. split; [opt_list_eq|].
  split; [num_neq|num_neq].
Qed.

(** C10, amended: on every finite sample buffer, at every sample rate
    and frame duration, the energy series of [extractAllFeatures] is the
    series [rmsSeries] gives for the buffer narrowed to binary32; on a
    buffer of binary32 values, [rmsSeries] and [extractAllFeatures] either
    both do not return or return the same energy series, frame by frame;
    and they do return, with at least one frame, when
    [max(2, floor(sampleRate * frameSec))] is at most [2^30]. *)
Theorem rmsSeries_is_unified_energy {M : MathLib} {F : FFTLib}
        (samples : list num) (sampleRate : Z) (frameSec : Qc) :
  allFinite samples ->
  option_map fst (Energy.rmsSeries (map fround samples) sampleRate frameSec)
  = option_map (fun r => Energy.energy (Energy.features r))
               (Energy.extractAllFeatures samples sampleRate frameSec) /\
  (float32Array samples ->
   option_map fst (Energy.rmsSeries samples sampleRate frameSec)
   = option_map (fun r => Energy.energy (Energy.features r))
                (Energy.extractAllFeatures samples sampleRate frameSec) /\
   ((Energy.targetSize sampleRate frameSec <= 2 ^ 30)%Z ->
    exists series step r,
      Energy.rmsSeries samples sampleRate frameSec = Some (series, step) /\
      Energy.extractAllFeatures samples sampleRate frameSec = Some r /\
      Energy.energy (Energy.features r) = series /\
      1 <= length series)).
Proof.
  intros Hfin. split; [apply unified_energy_narrows; exact Hfin|].
  intros H32.
  pose proof (unified_energy_narrows sampleRate frameSec Hfin) as E.
  rewrite (float32Array_map H32) in E. split; [exact E|].
  intros Hb. destruct (Pow2Facts.energy_nextPow2_least Hb) as (N & EN & _).
  revert E. unfold Energy.rmsSeries, Energy.extractAllFeatures.
  rewrite EN. cbn [bind option_map fst]. intros E. injection E as E.
  do 3 eexists. split; [reflexivity|]. split; [reflexivity|].
  cbn [Energy.energy Energy.features] in E |- *. split; [symmetry; exact E|].
  rewrite length_map, length_seq. unfold Energy.frameCount. lia.
Qed.

Lemma rmsSeries_is_unified_energy_witness :
  let samples := map ofQ [1 # 2; -1 # 2; 1 # 4; 0 # 1; 1 # 1; -1 # 1; 1 # 2; 3 # 8]%Q in
  option_map fst (Energy.rmsSeries (M := Runtime.math) samples 40 (Q2Qc (1 # 10)))
  = option_map (fun r => Energy.energy (Energy.features r))
      (Energy.extractAllFeatures (M := Runtime.math) (F := Runtime.fft)
         samples 40 (Q2Qc (1 # 10))) /\
  exists series step r,
    Energy.rmsSeries (M := Runtime.math) samples 40 (Q2Qc (1 # 10))
    = Some (series, step) /\
    Energy.extractAllFeatures (M := Runtime.math) (F := Runtime.fft)
      samples 40 (Q2Qc (1 # 10)) = Some r /\
    Energy.energy (Energy.features r) = series /\
    1 <= length series.
Proof.
  intros samples.
  destruct (@rmsSeries_is_unified_energy Runtime.math Runtime.fft
              samples 40 (Q2Qc (1 # 10))) as [_ H].
  - unfold allFinite, samples. repeat constructor.
  - destruct H as [H1 H2].
    + unfold float32Array, samples. repeat constructor.
    + split; [exact H1|]. apply H2. vm_compute. discriminate.
Defined.

End Legacy.

(** ** Finite features *)

Module Finiteness.

Import Spec NumFacts.
Local Open Scope nat_scope.

Local Abbreviation finite x := (isFinite x = true).

Lemma finite_inv (x : num) : finite x -> exists q, x = Fin q.
Proof. destruct x as [| |q|]; try discriminate. intros _. exists q. reflexivity. Qed.

Ltac fin_destruct H := let q := fresh "q" in destruct (finite_inv _ H) as [q ->].

Lemma finite_add (a b : num) : finite a -> finite b -> finite (a + b)%num.
Proof. intros Ha Hb. fin_destruct Ha. fin_destruct Hb. reflexivity. Qed.

Lemma finite_sub (a b : num) : finite a -> finite b -> finite (a - b)%num.
Proof. intros Ha Hb. fin_destruct Ha. fin_destruct Hb. reflexivity. Qed.

Lemma finite_mul (a b : num) : finite a -> finite b -> finite (a * b)%num.
Proof. intros Ha Hb. fin_destruct Ha. fin_destruct Hb. reflexivity. Qed.

Lemma finite_div (a b : num) : finite a -> finite b -> truthy b = true -> finite (a / b)%num.
Proof.
  intros Ha Hb Ht. fin_destruct Ha. fin_destruct Hb. simpl in *.
  apply negb_true_iff in Ht.
  destruct (qsign q0) eqn:E; try reflexivity.
  apply qsign_eq in E. subst q0. rewrite (proj2 (qeqb_eq _ _) eq_refl) in Ht. discriminate.
Qed.

Lemma finite_ofZ (z : Z) : finite (ofZ z).
Proof. reflexivity. Qed.

Lemma finite_nmax (a b : num) : finite a -> finite b -> finite (nmax a b).
Proof.
  intros Ha Hb. fin_destruct Ha. fin_destruct Hb. unfold nmax.
  destruct (nlt (Fin q) (Fin q0)); reflexivity.
Qed.

Lemma allFinite_get (l : list num) (k : nat) : allFinite l -> k < length l -> finite (get l k).
Proof.
  intros Hl Hk. unfold allFinite in Hl. rewrite Forall_forall in Hl.
  apply Hl. apply nth_In. exact Hk.
Qed.

(** Outside the array a read is NaN, never an infinity. *)
Lemma allFinite_get_cases (l : list num) (k : nat) :
  allFinite l -> finite (get l k) \/ get l k = NaN.
Proof.
  intros Hl. destruct (Nat.lt_ge_cases k (length l)) as [H|H].
  - left. apply allFinite_get; assumption.
  - right. unfold get. apply nth_overflow. exact H.
Qed.

Lemma allFinite_map_seq (f : nat -> num) (s n : nat) :
  (forall i, s <= i < s + n -> finite (f i)) -> allFinite (map f (seq s n)).
Proof.
  intros H. unfold allFinite. apply Forall_forall. intros x Hx.
  apply in_map_iff in Hx. destruct Hx as (i & <- & Hi). apply in_seq in Hi.
  apply H. exact Hi.
Qed.

Lemma fold_finite {A : Type} (f : num -> A -> num) (l : list A) (a : num) :
  (forall s x, finite s -> In x l -> finite (f s x)) -> finite a -> finite (fold_left f l a).
Proof.
  revert a. induction l as [|x l IH]; intros a H Ha; simpl; [exact Ha|].
  apply IH.
  - intros s y Hs Hy. apply H; [exact Hs|right; exact Hy].
  - apply H; [exact Ha|left; reflexivity].
Qed.

(** *** Non-negative rationals *)

Lemma qc_sq_nonneg (x : Qc) : (Q2Qc 0 <= x * x)%Qc.
Proof.
  unfold Qcle, Qcmult. rewrite !this_Q2Qc.
  unfold Qle, Qmult. simpl. nia.
Qed.

Lemma qc_add_nonneg (a b : Qc) : (Q2Qc 0 <= a -> Q2Qc 0 <= b -> Q2Qc 0 <= a + b)%Qc.
Proof.
  unfold Qcle, Qcplus. rewrite !this_Q2Qc. intros Ha Hb.
  replace 0%Q with (0 + 0)%Q by reflexivity. apply Qplus_le_compat; assumption.
Qed.

Lemma qc_div_nonneg (a d : Qc) : (Q2Qc 0 <= a -> Q2Qc 0 <= d -> Q2Qc 0 <= a / d)%Qc.
Proof.
  unfold Qcle, Qcdiv, Qcmult, Qcinv. rewrite !this_Q2Qc. intros Ha Hd.
  apply Qmult_le_0_compat; [exact Ha|apply Qinv_le_0_compat; exact Hd].
Qed.

Lemma truthy_ofNat (n : nat) : 0 < n -> truthy (ofNat n) = true.
Proof. intros Hn. apply truthy_ofZ. lia. Qed.

Lemma ofNat_nonneg (n : nat) : (Q2Qc 0 <= Q2Qc (inject_Z (Z.of_nat n)))%Qc.
Proof.
  unfold Qcle. rewrite !this_Q2Qc. unfold Qle. simpl. lia.
Qed.

(** The sum of squares of a finite frame is finite and non-negative. *)
Lemma sumsq_nonneg (l : list num) :
  allFinite l ->
  forall a, (Q2Qc 0 <= a)%Qc ->
  exists q, fold_left (fun s x => (s + x * x)%num) l (Fin a) = Fin q /\ (Q2Qc 0 <= q)%Qc.
Proof.
  induction 1 as [|x l Hx _ IH]; intros a Ha; simpl.
  - exists a. split; [reflexivity|exact Ha].
  - fin_destruct Hx. apply IH. apply qc_add_nonneg; [exact Ha|apply qc_sq_nonneg].
Qed.

(** *** The per-frame values *)

Section WithRuntime.
Context {M : MathLib} {F : FFTLib}.
Hypothesis contract : RuntimeContract M F.

Lemma frameAt_finite (samples : list num) (start size : nat) :
  allFinite samples -> allFinite (Energy.frameAt samples start size).
Proof.
  intros Hs. unfold Energy.frameAt. apply allFinite_map_seq. intros j _.
  rewrite Rounding.fround_finite.
  destruct (nth_error samples (start + j)) as [v|] eqn:E; simpl; [|reflexivity].
  apply nth_error_In in E. unfold allFinite in Hs. rewrite Forall_forall in Hs.
  apply Hs. exact E.
Qed.

Lemma length_frameAt (samples : list num) (start size : nat) :
  length (Energy.frameAt samples start size) = size.
Proof. unfold Energy.frameAt. rewrite length_map. apply length_seq. Qed.

Lemma frameEnergy_finite (frame : list num) (size : nat) :
  allFinite frame -> 0 < size -> finite (Energy.frameEnergy frame size).
Proof.
  intros Hf Hs. unfold Energy.frameEnergy.
  destruct (sumsq_nonneg Hf (a := Q2Qc 0)) as (q & Eq & Hq); [apply Qcle_refl|].
  change zero with (Fin (Q2Qc 0)). rewrite Eq.
  assert (Ht : truthy (ofNat size) = true) by (apply truthy_ofNat; exact Hs).
  unfold ofNat, ofZ in *. simpl in Ht. apply negb_true_iff in Ht. simpl.
  destruct (qsign (Q2Qc (inject_Z (Z.of_nat size)))) eqn:E.
  - apply qsign_eq in E. rewrite E in Ht.
    rewrite (proj2 (qeqb_eq _ _) eq_refl) in Ht. discriminate.
  - apply (sqrt_finite contract). apply qc_div_nonneg; [exact Hq|apply ofNat_nonneg].
  - apply (sqrt_finite contract). apply qc_div_nonneg; [exact Hq|apply ofNat_nonneg].
Qed.

Lemma frameZcr_finite (frame : list num) (size : nat) :
  2 <= size -> finite (Energy.frameZcr frame size).
Proof.
  intros Hs. unfold Energy.frameZcr.
  apply finite_div; [apply finite_ofZ| |].
  - unfold ofNat, one. rewrite ofZ_sub. apply finite_ofZ.
  - unfold ofNat, one. rewrite ofZ_sub. apply truthy_ofZ. lia.
Qed.

Lemma hann_argument_finite (i N : nat) :
  2 <= N -> finite ((ofZ 2 * Math_PI * ofNat i) / (ofNat N - one))%num.
Proof.
  intros HN. apply finite_div.
  - reflexivity.
  - unfold ofNat, one. rewrite ofZ_sub. apply finite_ofZ.
  - unfold ofNat, one. rewrite ofZ_sub. apply truthy_ofZ. lia.
Qed.

Lemma applyHannWindow_finite (buf : list num) :
  allFinite buf -> 2 <= length buf -> allFinite (Energy.applyHannWindow buf).
Proof.
  intros Hb HN. unfold Energy.applyHannWindow.
  rewrite (Smoothing.imap_seq _ NaN). apply allFinite_map_seq. intros i Hi.
  apply finite_mul; [apply (allFinite_get Hb); lia|].
  apply finite_mul; [reflexivity|]. apply finite_sub; [reflexivity|].
  destruct (finite_inv _ (hann_argument_finite i HN)) as [q ->].
  apply (cos_finite contract).
Qed.

Lemma length_applyHannWindow (buf : list num) :
  length (Energy.applyHannWindow buf) = length buf.
Proof. apply Smoothing.length_imap. Qed.

Lemma interleave_finite (l : list num) :
  allFinite l -> allFinite (flat_map (fun s => [s; zero]) l).
Proof.
  induction 1 as [|x l Hx _ IH]; simpl; [constructor|].
  constructor; [exact Hx|]. constructor; [reflexivity|exact IH].
Qed.

Lemma length_interleave (l : list num) :
  length (flat_map (fun s => [s; zero]) l) = 2 * length l.
Proof. induction l as [|x l IH]; simpl; [reflexivity|]. rewrite IH. lia. Qed.

Lemma shr32_half (n : Z) : (0 <= n < 2 ^ 31)%Z -> shr32 n 1 = (n / 2)%Z.
Proof.
  intros Hn. unfold shr32, toInt32.
  change (2 ^ 31)%Z with 2147483648%Z in *. change (2 ^ 32)%Z with 4294967296%Z.
  rewrite Z.mod_small by lia.
  rewrite Z.shiftr_div_pow2 by lia. f_equal. lia.
Qed.

Lemma computeFFT_finite (buf : list num) :
  allFinite buf -> (Z.of_nat (length buf) < 2 ^ 31)%Z -> allFinite (Energy.computeFFT buf).
Proof.
  intros Hb HN. unfold Energy.computeFFT.
  destruct (Nat.ltb_spec (length buf) 2) as [H|H].
  - repeat constructor.
  - rewrite shr32_half by lia.
    set (out := fft_transform (flat_map (fun s => [s; zero]) buf)).
    assert (Hout : allFinite out) by (apply (fft_finite contract), interleave_finite, Hb).
    assert (Lout : length out = 2 * length buf).
    { unfold out. apply (fft_length contract). apply length_interleave. }
    apply allFinite_map_seq. intros k Hk.
    assert (Hk3 : 2 * k + 1 < 2 * length buf).
    { assert (2 * (Z.of_nat (length buf) / 2) <= Z.of_nat (length buf))%Z
        by (apply Z.mul_div_le; lia).
      assert (0 <= Z.of_nat (length buf) / 2)%Z by (apply Z.div_pos; lia).
      lia. }
    destruct (finite_inv _ (allFinite_get (k := 2 * k) Hout ltac:(lia))) as [a ->].
    destruct (finite_inv _ (allFinite_get (k := 2 * k + 1) Hout ltac:(lia))) as [b ->].
    apply (hypot_finite contract).
Qed.

Lemma frameCentroid_finite (mags : list num) (binHz : num) :
  allFinite mags -> finite binHz -> finite (Energy.frameCentroid mags binHz).
Proof.
  intros Hm Hb. unfold Energy.frameCentroid.
  set (step := fun (st : num * num) (km : nat * num) =>
                 ((fst st + ofNat (fst km) * binHz * snd km)%num,
                  (snd st + snd km)%num)).
  assert (G : forall l st, (forall km, In km l -> finite (snd km)) ->
                           finite (fst st) -> finite (snd st) ->
                           finite (fst (fold_left step l st)) /\
                           finite (snd (fold_left step l st))).
  { induction l as [|km l IH]; intros st Hl H1 H2; simpl; [split; assumption|].
    apply IH.
    - intros km' Hin. apply Hl. right. exact Hin.
    - unfold step. cbn [fst snd]. apply finite_add; [exact H1|].
      apply finite_mul; [apply finite_mul; [reflexivity|exact Hb]|].
      apply Hl. left. reflexivity.
    - unfold step. cbn [fst snd]. apply finite_add; [exact H2|].
      apply Hl. left. reflexivity. }
  destruct (G (combine (seq 0 (length mags)) mags) (zero, zero)) as [G1 G2].
  - intros [k m] Hin. apply in_combine_r in Hin. simpl.
    unfold allFinite in Hm. rewrite Forall_forall in Hm. apply Hm. exact Hin.
  - reflexivity.
  - reflexivity.
  - destruct (fold_left step _ _) as [ws ms]. simpl in G1, G2.
    destruct (ms >? zero)%num eqn:E; [|reflexivity].
    apply finite_div; [exact G1|exact G2|].
    fin_destruct G2. simpl. apply negb_true_iff.
    destruct (qeqb q (Q2Qc 0)) eqn:E0; [|reflexivity].
    apply qeqb_eq in E0. subst q. unfold ngt in E. simpl in E.
    change (Q2Qc (inject_Z 0)) with (Q2Qc 0) in E. rewrite qltb_irrefl in E. discriminate.
Qed.

Lemma frameFlux_finite (mags : list num) (prev : option (list num)) :
  allFinite mags ->
  match prev with Some pm => allFinite pm | None => True end ->
  finite (Energy.frameFlux mags prev).
Proof.
  intros Hm Hp. unfold Energy.frameFlux. destruct prev as [pm|]; [|reflexivity].
  apply fold_finite; [|reflexivity].
  intros s k Hs Hk. apply in_seq in Hk.
  pose proof (allFinite_get (k := k) Hm ltac:(lia)) as Hmk.
  destruct (allFinite_get_cases k Hp) as [Hpk|Hpk].
  - destruct ((get mags k - get pm k) >? zero)%num; [|exact Hs].
    apply finite_add; [exact Hs|]. apply finite_sub; assumption.
  - rewrite Hpk. fin_destruct Hmk. simpl. exact Hs.
Qed.

(** A row whose four values are finite. *)
Let rowFinite (r : Energy.Row) : Prop :=
  finite (fst (fst (fst r))) /\ finite (snd (fst (fst r))) /\
  finite (snd (fst r)) /\ finite (snd r).

Lemma frameLoop_finite (samples : list num) (sampleRate : Z) (size hop : nat)
      (idxs : list nat) :
  allFinite samples -> 2 <= size -> (Z.of_nat size < 2 ^ 31)%Z ->
  forall prev,
    match prev with Some pm => allFinite pm | None => True end ->
    Forall rowFinite (Energy.frameLoop samples sampleRate size hop idxs prev).
Proof.
  intros Hs H2 Hlt. induction idxs as [|i idxs IH]; intros prev Hp;
    cbn [Energy.frameLoop]; [constructor|].
  pose proof (frameAt_finite (i * hop) size Hs) as Hframe.
  pose proof (length_frameAt samples (i * hop) size) as Lframe.
  assert (Hmags : allFinite (Energy.computeFFT
                               (Energy.applyHannWindow (Energy.frameAt samples (i * hop) size)))).
  { apply computeFFT_finite.
    - apply applyHannWindow_finite; [exact Hframe|rewrite Lframe; exact H2].
    - rewrite length_applyHannWindow, Lframe. exact Hlt. }
  constructor.
  - unfold rowFinite. cbn [fst snd]. repeat split.
    + apply frameEnergy_finite; [exact Hframe|lia].
    + apply frameCentroid_finite; [exact Hmags|].
      apply finite_div; [reflexivity|reflexivity|apply truthy_ofNat; lia].
    + apply frameZcr_finite. exact H2.
    + apply frameFlux_finite; assumption.
  - apply IH. exact Hmags.
Qed.

End WithRuntime.

(** *** Novelty *)

Lemma noveltyRaw_finite (series : list num) :
  allFinite series -> allFinite (Energy.noveltyRaw series).
Proof.
  intros Hs. unfold Energy.noveltyRaw. rewrite (Smoothing.imap_seq _ NaN).
  apply allFinite_map_seq. intros i Hi. destruct i as [|i]; [reflexivity|].
  apply finite_nmax; [reflexivity|].
  apply finite_sub; apply (allFinite_get Hs); lia.
Qed.

Lemma centeredMean_finite (r : nat) (x : list num) (i : nat) :
  allFinite x -> i < length x -> finite (centeredMean r x i).
Proof.
  intros Hx Hi. unfold centeredMean, clipped.
  apply finite_div.
  - unfold sumFrom. apply fold_finite; [|reflexivity].
    intros s v Hs Hv. apply finite_add; [exact Hs|].
    apply in_map_iff in Hv. destruct Hv as (j & <- & Hj). apply in_seq in Hj.
    apply (allFinite_get Hx). lia.
  - reflexivity.
  - apply truthy_ofNat. rewrite length_seq. lia.
Qed.

Lemma computeNovelty_finite (series : list num) :
  allFinite series -> allFinite (Energy.computeNovelty series).
Proof.
  intros Hs. rewrite Smoothing.computeNovelty_movingAverage. unfold movingAverage.
  apply allFinite_map_seq. intros i Hi.
  apply centeredMean_finite; [apply noveltyRaw_finite; exact Hs|lia].
Qed.

(** Below the wrap-around of [nextPow2], the extraction is total and
    its five series are finite, equally long and not empty. *)
Lemma extractAllFeatures_finite {M : MathLib} {F : FFTLib}
      (contract : RuntimeContract M F)
      (samples : list num) (sampleRate : Z) (frameSec : Qc) :
  allFinite samples ->
  (Energy.targetSize sampleRate frameSec <= 2 ^ 30)%Z ->
  exists r,
    Energy.extractAllFeatures samples sampleRate frameSec = Some r /\
    let f := Energy.features r in
    let n := Z.to_nat (Energy.nFrames r) in
    1 <= n /\
    (length (Energy.energy f) = n /\ length (Energy.centroid f) = n /\
     length (Energy.zcr f) = n /\ length (Energy.spectralFlux f) = n /\
     length (Energy.novelty f) = n) /\
    (allFinite (Energy.energy f) /\ allFinite (Energy.centroid f) /\
     allFinite (Energy.zcr f) /\ allFinite (Energy.spectralFlux f) /\
     allFinite (Energy.novelty f)).
Proof.
  intros Hs Hb.
  destruct (Pow2Facts.energy_nextPow2_least Hb) as (N & EN & HN).
  assert (H2 : (2 <= N)%Z).
  { apply (Pow2Facts.LeastPow2_ge2 (n := Energy.targetSize sampleRate frameSec));
      [unfold Energy.targetSize; lia|exact HN]. }
  assert (Hle : (N <= 2 ^ 30)%Z).
  { destruct HN as (_ & _ & Hmin). apply (Hmin 30%Z); [lia|exact Hb]. }
  destruct (ExtractFacts.extract_shape samples sampleRate frameSec EN)
    as (r & Er & _ & _ & Hn & _ & Hlen).
  exists r. split; [exact Er|]. cbv zeta. split; [|split; [exact Hlen|]].
  - rewrite Hn. unfold Energy.frameCount. lia.
  - clear Hlen. unfold Energy.extractAllFeatures in Er. rewrite EN in Er.
    cbn [bind] in Er. injection Er as <-.
    cbn [Energy.features Energy.energy Energy.centroid Energy.zcr
         Energy.spectralFlux Energy.novelty].
    match goal with
    | |- context [Energy.frameLoop ?a ?b ?c ?d ?e ?f] =>
        assert (Hrows : Forall (fun r : Energy.Row =>
                                  finite (fst (fst (fst r))) /\ finite (snd (fst (fst r))) /\
                                  finite (snd (fst r)) /\ finite (snd r))
                               (Energy.frameLoop a b c d e f))
    end.
    { apply (frameLoop_finite contract); try exact Hs; try exact I.
      - lia.
      - rewrite Z2Nat.id by lia. change (2 ^ 30)%Z with 1073741824%Z in Hle.
        change (2 ^ 31)%Z with 2147483648%Z. lia. }
    assert (He : allFinite (map (fun r : Energy.Row => fst (fst (fst r)))
                              (Energy.frameLoop samples sampleRate (Z.to_nat N)
                                 (Z.to_nat (N / 2))
                                 (seq 0 (Z.to_nat (Energy.frameCount
                                                     (Z.of_nat (length samples)) N (N / 2))))
                                 None))).
    { apply Forall_map. eapply Forall_impl; [|exact Hrows]. intros row H. apply H. }
    repeat split.
    + exact He.
    + apply Forall_map. eapply Forall_impl; [|exact Hrows]. intros row H. apply H.
    + apply Forall_map. eapply Forall_impl; [|exact Hrows]. intros row H. apply H.
    + apply Forall_map. eapply Forall_impl; [|exact Hrows]. intros row H. apply H.
    + apply computeNovelty_finite. exact He.
Qed.

(** At very high sample rates the extraction does not return.  At 2^34 Hz
    the default 0.1 s frame asks for 1717986918 samples, more than 2^30:
    the 32-bit shift of [nextPow2] wraps (2^30, -2^31, 0, 0, ...), its
    loop never ends, and [extractAllFeatures] returns nothing. *)
Lemma extractAllFeatures_does_not_return {M : MathLib} {F : FFTLib}
      (samples : list num) :
  Energy.targetSize 17179869184 (Q2Qc (1 # 10)) = 1717986918%Z /\
  (forall fuel, Energy.nextPow2_loop fuel 1 1717986918 = None) /\
  Energy.extractAllFeatures samples 17179869184 (Q2Qc (1 # 10)) = None.
Proof.
  assert (ET : Energy.targetSize 17179869184 (Q2Qc (1 # 10)) = 1717986918%Z) by reflexivity.
  assert (Hloop : forall fuel, Energy.nextPow2_loop fuel 1 1717986918 = None).
  { intros fuel. apply Pow2Facts.energy_nextPow2_diverges. reflexivity. }
  split; [exact ET|]. split; [exact Hloop|].
  unfold Energy.extractAllFeatures, Energy.nextPow2. rewrite ET, Hloop. reflexivity.
Qed.

(** Every rate a WAV header can carry, up to [2^32 - 1] Hz, is below the
    wrap at the frame duration of 0.1 s that [findBestHook] asks for. *)
Lemma header_rates_fit (sampleRate : Z) :
  (sampleRate <= 4294967295)%Z ->
  (Energy.targetSize sampleRate (Q2Qc (1 # 10)) <= 2 ^ 30)%Z.
Proof.
  intros H. unfold Energy.targetSize. apply Z.max_lub; [lia|].
  apply Z.le_trans with (Qfloor (Q2Qc (inject_Z 4294967295) * Q2Qc (1 # 10))%Qc);
    [|vm_compute; discriminate].
  apply Qfloor_resp_le.
  change ((Q2Qc (inject_Z sampleRate) * Q2Qc (1 # 10)
           <= Q2Qc (inject_Z 4294967295) * Q2Qc (1 # 10))%Qc).
  apply Qcmult_le_compat_r.
  - unfold Qcle. rewrite !this_Q2Qc. rewrite <- Zle_Qle. exact H.
  - unfold Qcle, Qle. simpl. lia.
Qed.

End Finiteness.

(** ** The rational runtime meets the contract *)

Module RuntimeFacts.

Import Spec NumFacts Finiteness.
Local Open Scope nat_scope.

Lemma sqrt_nonneg_finite (q : Qc) : (Q2Qc 0 <= q)%Qc -> isFinite (Runtime.sqrt (Fin q)) = true.
Proof.
  intros Hq. unfold Runtime.sqrt.
  rewrite (proj2 (WindowScan.qltb_false q (Q2Qc 0)) Hq). reflexivity.
Qed.

Lemma hypot_is_finite (a b : Qc) : isFinite (Runtime.hypot (Fin a) (Fin b)) = true.
Proof.
  unfold Runtime.hypot.
  change (Fin a * Fin a + Fin b * Fin b)%num with (Fin (a * a + b * b)%Qc).
  apply sqrt_nonneg_finite. apply qc_add_nonneg; apply qc_sq_nonneg.
Qed.

Lemma turn_finite (j n : nat) : 0 < n -> isFinite (Runtime.turn j n) = true.
Proof.
  intros Hn. unfold Runtime.turn. apply finite_div.
  - apply finite_mul; reflexivity.
  - reflexivity.
  - apply truthy_ofNat. exact Hn.
Qed.

Lemma cosTurn_finite (j n : nat) : 0 < n -> isFinite (Runtime.cosTurn j n) = true.
Proof.
  intros Hn. unfold Runtime.cosTurn.
  destruct (finite_inv _ (turn_finite j Hn)) as [q ->]. reflexivity.
Qed.

Lemma sinTurn_finite (j n : nat) : 0 < n -> isFinite (Runtime.sinTurn j n) = true.
Proof.
  intros Hn. unfold Runtime.sinTurn.
  assert (H : isFinite (Runtime.turn j n - Runtime.halfPi)%num = true)
    by (apply finite_sub; [apply turn_finite; exact Hn|reflexivity]).
  destruct (finite_inv _ H) as [q ->]. reflexivity.
Qed.

Lemma dftBin_finite (data : list num) (n k : nat) :
  allFinite data -> 2 * n <= length data -> allFinite (Runtime.dftBin data n k).
Proof.
  intros Hd Hn. unfold Runtime.dftBin.
  set (step := fun (st : num * num) (t : nat) =>
                 ((fst st + (get data (2 * t) * Runtime.cosTurn (k * t) n
                             + get data (2 * t + 1) * Runtime.sinTurn (k * t) n))%num,
                  (snd st + (get data (2 * t + 1) * Runtime.cosTurn (k * t) n
                             - get data (2 * t) * Runtime.sinTurn (k * t) n))%num)).
  assert (G : forall l st, (forall t, In t l -> t < n) ->
                           isFinite (fst st) = true -> isFinite (snd st) = true ->
                           isFinite (fst (fold_left step l st)) = true /\
                           isFinite (snd (fold_left step l st)) = true).
  { induction l as [|t l IH]; intros st Hl H1 H2; cbn [fold_left]; [split; assumption|].
    assert (Ht : t < n) by (apply Hl; left; reflexivity).
    pose proof (allFinite_get (k := 2 * t) Hd ltac:(lia)) as Hr.
    pose proof (allFinite_get (k := 2 * t + 1) Hd ltac:(lia)) as Hi.
    pose proof (cosTurn_finite (k * t) (n := n) ltac:(lia)) as Hc.
    pose proof (sinTurn_finite (k * t) (n := n) ltac:(lia)) as Hsn.
    apply IH.
    - intros t' Hin. apply Hl. right. exact Hin.
    - unfold step. cbn [fst snd]. apply finite_add; [exact H1|].
      apply finite_add; apply finite_mul; assumption.
    - unfold step. cbn [fst snd]. apply finite_add; [exact H2|].
      apply finite_sub; apply finite_mul; assumption. }
  destruct (G (seq 0 n) (zero, zero)) as [G1 G2].
  - intros t Ht. apply in_seq in Ht. lia.
  - reflexivity.
  - reflexivity.
  - fold step. destruct (fold_left step (seq 0 n) (zero, zero)) as [re im].
    cbn [fst snd] in G1, G2. repeat constructor; assumption.
Qed.

Lemma div2_bound (m : nat) : 2 * Nat.div2 m <= m.
Proof.
  induction m as [m IH] using lt_wf_ind.
  destruct m as [|[|m]]; simpl; try lia.
  specialize (IH m ltac:(lia)). lia.
Qed.

Lemma div2_double (n : nat) : Nat.div2 (2 * n) = n.
Proof.
  induction n as [|n IH]; [reflexivity|].
  replace (2 * S n) with (S (S (2 * n))) by lia. simpl. f_equal. exact IH.
Qed.

Lemma dft_finite (data : list num) : allFinite data -> allFinite (Runtime.dft data).
Proof.
  intros Hd. unfold Runtime.dft, allFinite.
  apply Forall_flat_map. apply Forall_forall. intros k _.
  apply dftBin_finite; [exact Hd|apply div2_bound].
Qed.

Lemma dft_length (data : list num) (n : nat) :
  length data = 2 * n -> length (Runtime.dft data) = 2 * n.
Proof.
  intros L. unfold Runtime.dft. rewrite L, div2_double.
  assert (G : forall l, length (flat_map (Runtime.dftBin data n) l) = 2 * length l).
  { induction l as [|k l IH]; [reflexivity|].
    cbn [flat_map]. rewrite length_app, IH.
    unfold Runtime.dftBin.
    destruct (fold_left _ (seq 0 n) (zero, zero)) as [re im]. simpl. lia. }
  rewrite G, length_seq. reflexivity.
Qed.

Lemma runtime_contract : RuntimeContract Runtime.math Runtime.fft.
Proof.
  constructor.
  - exact sqrt_nonneg_finite.
  - intros q. reflexivity.
  - exact hypot_is_finite.
  - exact dft_finite.
  - exact dft_length.
Qed.

(** The extraction run on eight samples at 40 Hz: three frames of four
    samples, all values finite. *)
Lemma extractAllFeatures_finite_instance :
  let samples := map ofQ [1 # 2; -1 # 2; 1 # 4; 0 # 1; 1 # 1; -1 # 1; 1 # 2; 1 # 3]%Q in
  exists r,
    Energy.extractAllFeatures (M := Runtime.math) (F := Runtime.fft)
      samples 40 (Q2Qc (1 # 10)) = Some r /\
    Energy.nFrames r = 3%Z /\
    allFinite (Energy.energy (Energy.features r)) /\
    allFinite (Energy.centroid (Energy.features r)) /\
    allFinite (Energy.zcr (Energy.features r)) /\
    allFinite (Energy.spectralFlux (Energy.features r)) /\
    allFinite (Energy.novelty (Energy.features r)).
Proof.
  intros samples.
  destruct (@extractAllFeatures_finite Runtime.math Runtime.fft runtime_contract
              samples 40 (Q2Qc (1 # 10))) as (r & Er & _ & _ & H).
  - unfold allFinite, samples. repeat constructor.
  - vm_compute. discriminate.
  - exists r. split; [exact Er|]. split; [|exact H].
    destruct (@ExtractFacts.extract_shape Runtime.math Runtime.fft samples 40
                (Q2Qc (1 # 10)) 4%Z eq_refl) as (r' & Er' & _ & _ & Hn & _).
    rewrite Er in Er'. injection Er' as <-. rewrite Hn. reflexivity.
Qed.

End RuntimeFacts.

(** ** The extraction returns finite series *)

Module Totality.

Import Spec NumFacts.
Local Open Scope nat_scope.




End Totality.

(** ** The scans inside the two hook finders *)

Module HookScan.

Import Spec NumFacts Finiteness.
Local Open Scope nat_scope.

Lemma minMax_fold_finite (l : list num) :
  allFinite l ->
  forall st, isFinite (fst st) = true -> isFinite (snd st) = true ->
  let r := fold_left (fun (st : num * num) x =>
                        (if (x <? fst st)%num then x else fst st,
                         if (x >? snd st)%num then x else snd st)) l st in
  isFinite (fst r) = true /\ isFinite (snd r) = true.
Proof.
  induction 1 as [|x l Hx _ IH]; intros st H1 H2; cbn [fold_left]; [split; assumption|].
  apply IH; cbn [fst snd].
  - destruct (x <? fst st)%num; assumption.
  - destruct (x >? snd st)%num; assumption.
Qed.

Lemma normalize_finite (arr : list num) : allFinite arr -> allFinite (Energy.normalize arr).
Proof.
  intros Ha. unfold Energy.normalize, Energy.minMax.
  destruct Ha as [|x l Hx Hl]; [constructor|].
  cbn [fold_left fst snd].
  destruct (finite_inv _ Hx) as [q Eq]. subst x.
  change (Fin q <? PosInf)%num with true. change (Fin q >? NegInf)%num with true.
  cbv iota.
  destruct (minMax_fold_finite Hl (Fin q, Fin q) eq_refl eq_refl) as [H1 H2].
  destruct (fold_left _ l (Fin q, Fin q)) as [mn mx]. cbn [fst snd] in H1, H2.
  assert (Hr : isFinite (orElse (mx - mn)%num one) = true
               /\ truthy (orElse (mx - mn)%num one) = true).
  { split; [|apply Similarity.truthy_orElse_one].
    unfold orElse. destruct (truthy (mx - mn)%num); [apply finite_sub; assumption|reflexivity]. }
  destruct Hr as [Hr1 Hr2].
  unfold allFinite. apply Forall_map. apply Forall_forall. intros y Hy.
  apply finite_div; [|exact Hr1|exact Hr2].
  apply finite_sub; [|exact H1].
  assert (Hall : allFinite (Fin q :: l)) by (constructor; [reflexivity|exact Hl]).
  unfold allFinite in Hall. rewrite Forall_forall in Hall. apply Hall. exact Hy.
Qed.

Lemma length_normalize (arr : list num) : length (Energy.normalize arr) = length arr.
Proof.
  unfold Energy.normalize. destruct (Energy.minMax arr) as [mn mx]. apply length_map.
Qed.

Lemma allFinite_firstn (n : nat) (l : list num) : allFinite l -> allFinite (firstn n l).
Proof.
  intros H. unfold allFinite in *. rewrite Forall_forall in *.
  intros x Hx. apply H. rewrite <- (firstn_skipn n l). apply in_or_app. left. exact Hx.
Qed.

Lemma frameScores_finite (weights : Energy.Weights) (E C Z N : list num) (L : nat) :
  isFinite (Energy.w_energy weights) = true ->
  isFinite (Energy.w_centroid weights) = true ->
  isFinite (Energy.w_zcr weights) = true ->
  isFinite (Energy.w_novelty weights) = true ->
  allFinite E -> allFinite C -> allFinite Z -> allFinite N ->
  length E = L -> length C = L -> length Z = L -> length N = L ->
  allFinite (Energy.frameScores weights E C Z N L).
Proof.
  intros W1 W2 W3 W4 HE HC HZ HN LE LC LZ LN. unfold Energy.frameScores.
  apply allFinite_map_seq. intros i Hi.
  repeat apply finite_add; apply finite_mul; try assumption.
  - apply (allFinite_get HE). lia.
  - apply (allFinite_get HC). lia.
  - apply (allFinite_get HZ). lia.
  - apply (allFinite_get HN). lia.
Qed.

Lemma length_firstn_common (f : Energy.Features) :
  let L := Energy.commonLength f in
  length (firstn L (Energy.energy f)) = L /\
  length (firstn L (Energy.centroid f)) = L /\
  length (firstn L (Energy.zcr f)) = L /\
  length (firstn L (Energy.novelty f)) = L.
Proof.
  cbv zeta. unfold Energy.commonLength. rewrite !length_firstn. lia.
Qed.

End HookScan.

(** ** Order on the finite numbers *)

Module Order.

Import Spec NumFacts Bounds Steps.
Local Open Scope nat_scope.

Lemma qc_eq (a b : Qc) : (this a == this b)%Q -> a = b.
Proof. apply Qc_is_canon. Qed.

Lemma neqb_fin (a b : Qc) : neqb (Fin a) (Fin b) = true <-> a = b.
Proof. apply qeqb_eq. Qed.

Lemma nle_fin (a b : Qc) : nle (Fin a) (Fin b) = true <-> (a <= b)%Qc.
Proof.
  unfold nle. rewrite orb_true_iff. cbn [nlt neqb]. rewrite qltb_lt, qeqb_eq.
  split.
  - intros [H| ->]; [apply Qclt_le_weak; exact H|apply Qcle_refl].
  - intros H. destruct (Qcle_lt_or_eq _ _ H) as [H'|H']; [left|right]; assumption.
Qed.

Lemma nlt_fin (a b : Qc) : nlt (Fin a) (Fin b) = true <-> (a < b)%Qc.
Proof. apply qltb_lt. Qed.

Lemma nlt_fin_false (a b : Qc) : nlt (Fin a) (Fin b) = false <-> (b <= a)%Qc.
Proof. apply WindowScan.qltb_false. Qed.

Lemma between_fin (lo hi : Qc) (x : num) :
  between (Fin lo) (Fin hi) x = true <-> exists q, x = Fin q /\ (lo <= q <= hi)%Qc.
Proof.
  unfold between. rewrite andb_true_iff. split.
  - intros [H1 H2]. destruct x as [| |q|]; try discriminate.
    exists q. split; [reflexivity|]. split; apply nle_fin; assumption.
  - intros (q & -> & H1 & H2). split; apply nle_fin; assumption.
Qed.

Lemma between_finite (lo hi : Qc) (x : num) :
  between (Fin lo) (Fin hi) x = true -> isFinite x = true.
Proof. intros H. apply between_fin in H. destruct H as (q & -> & _). reflexivity. Qed.

Lemma allBetween_finite (lo hi : Qc) (l : list num) :
  allBetween (Fin lo) (Fin hi) l -> allFinite l.
Proof.
  unfold allBetween, allFinite. apply Forall_impl. intros x. apply between_finite.
Qed.

Lemma ndiv_fin (a b : Qc) : b <> Q2Qc 0 -> (Fin a / Fin b)%num = Fin (a / b)%Qc.
Proof.
  intros Hb. cbn [ndiv]. destruct (qsign b) eqn:E; try reflexivity.
  apply qsign_eq in E. contradiction.
Qed.

Lemma qc_pos_neq (b : Qc) : (Q2Qc 0 < b)%Qc -> b <> Q2Qc 0.
Proof. intros H ->. revert H. apply Qcle_not_lt, Qcle_refl. Qed.

(** [0 <= a <= r], [0 < r]: the quotient is in [0, 1]. *)
Lemma qc_div_unit (a r : Qc) :
  (Q2Qc 0 <= a)%Qc -> (a <= r)%Qc -> (Q2Qc 0 < r)%Qc ->
  (Q2Qc 0 <= a / r)%Qc /\ (a / r <= Q2Qc 1)%Qc.
Proof.
  intros H1 H2 H3. qc_unfold. rewrite !this_Q2Qc in *. split.
  - apply Qle_shift_div_l; lra.
  - apply Qle_shift_div_r; lra.
Qed.

Lemma truthy_fin (q : Qc) : truthy (Fin q) = true <-> q <> Q2Qc 0.
Proof.
  cbn [truthy]. rewrite negb_true_iff. split.
  - intros H E. apply qeqb_eq in E. congruence.
  - intros H. destruct (qeqb q (Q2Qc 0)) eqn:E; [|reflexivity].
    apply qeqb_eq in E. contradiction.
Qed.

Lemma truthy_fin_false (q : Qc) : truthy (Fin q) = false <-> q = Q2Qc 0.
Proof.
  cbn [truthy]. rewrite negb_false_iff. apply qeqb_eq.
Qed.

(** *** The running minimum and maximum *)

Lemma minMax_from (l : list Qc) :
  forall a b : Qc,
    (a <= b)%Qc ->
    exists mn mx : Qc,
      fold_left mmStep (map Fin l) (Fin a, Fin b) = (Fin mn, Fin mx) /\
      (mn <= a)%Qc /\ (b <= mx)%Qc /\
      (forall x, In x l -> (mn <= x <= mx)%Qc) /\
      (mn = a \/ In mn l) /\ (mx = b \/ In mx l).
Proof.
  induction l as [|x l IH]; intros a b Hab; cbn [map fold_left].
  - exists a, b. split; [reflexivity|]. split; [apply Qcle_refl|].
    split; [apply Qcle_refl|]. split; [intros y []|]. split; left; reflexivity.
  - unfold mmStep at 2. cbn [fst snd]. unfold ngt.
    destruct (nlt (Fin x) (Fin a)) eqn:E1; destruct (nlt (Fin b) (Fin x)) eqn:E2;
      try apply nlt_fin in E1; try apply nlt_fin in E2;
      try apply nlt_fin_false in E1; try apply nlt_fin_false in E2.
    + exfalso. qc2q. lra.
    + destruct (IH x b) as (mn & mx & E & H1 & H2 & H3 & H4 & H5); [qc2q; lra|].
      exists mn, mx. split; [exact E|]. split; [qc2q; lra|]. split; [exact H2|].
      split; [|split].
      * intros y [<-|Hy]; [split; [exact H1|qc2q; lra]|apply H3; exact Hy].
      * right. destruct H4 as [->|H4]; [left; reflexivity|right; exact H4].
      * destruct H5 as [->|H5]; [left; reflexivity|right; right; exact H5].
    + destruct (IH a x) as (mn & mx & E & H1 & H2 & H3 & H4 & H5); [qc2q; lra|].
      exists mn, mx. split; [exact E|]. split; [exact H1|]. split; [qc2q; lra|].
      split; [|split].
      * intros y [<-|Hy]; [split; [qc2q; lra|exact H2]|apply H3; exact Hy].
      * destruct H4 as [->|H4]; [left; reflexivity|right; right; exact H4].
      * right. destruct H5 as [->|H5]; [left; reflexivity|right; exact H5].
    + destruct (IH a b Hab) as (mn & mx & E & H1 & H2 & H3 & H4 & H5).
      exists mn, mx. split; [exact E|]. split; [exact H1|]. split; [exact H2|].
      split; [|split].
      * intros y [<-|Hy]; [split; qc2q; lra|apply H3; exact Hy].
      * destruct H4 as [->|H4]; [left; reflexivity|right; right; exact H4].
      * destruct H5 as [->|H5]; [left; reflexivity|right; right; exact H5].
Qed.

(** The loop [if (v < mn) mn = v; if (v > mx) mx = v] over a non-empty
    finite array ends on its least and its greatest value. *)
Lemma minMax_spec (x : Qc) (l : list Qc) :
  exists mn mx : Qc,
    fold_left mmStep (map Fin (x :: l)) (PosInf, NegInf) = (Fin mn, Fin mx) /\
    (forall y, In y (x :: l) -> (mn <= y <= mx)%Qc) /\
    In mn (x :: l) /\ In mx (x :: l).
Proof.
  cbn [map fold_left]. unfold mmStep at 2. cbn [fst snd ngt nlt].
  destruct (minMax_from l (Qcle_refl x)) as (mn & mx & E & H1 & H2 & H3 & H4 & H5).
  exists mn, mx. split; [exact E|]. split; [|split].
  - intros y [<-|Hy]; [split; assumption|apply H3; exact Hy].
  - destruct H4 as [->|H4]; [left; reflexivity|right; exact H4].
  - destruct H5 as [->|H5]; [left; reflexivity|right; exact H5].
Qed.

(** The range [(mx - mn) || 1] is positive. *)
Lemma range_pos (mn mx : Qc) :
  (mn <= mx)%Qc ->
  exists r : Qc, orElse (Fin mx - Fin mn)%num one = Fin r /\ (Q2Qc 0 < r)%Qc /\
                 (r = mx - mn \/ (mx = mn /\ r = Q2Qc 1))%Qc.
Proof.
  intros H. unfold orElse, nsub. cbn [nneg nadd].
  destruct (truthy (Fin (mx + - mn)%Qc)) eqn:E.
  - apply truthy_fin in E. exists (mx + - mn)%Qc. split; [reflexivity|]. split.
    + apply Qcle_lt_or_eq in H. destruct H as [H|H].
      * qc2q. lra.
      * exfalso. apply E. subst mx. apply Qcplus_opp_r.
    + left. reflexivity.
  - apply truthy_fin_false in E. exists (Q2Qc 1). split; [reflexivity|].
    split; [reflexivity|]. right. split; [|reflexivity].
    apply qc_eq. apply (f_equal this) in E. cbn [this] in E.
    assert (E' : (this (mx + - mn)%Qc == 0)%Q) by (rewrite E; reflexivity).
    qc2q. lra.
Qed.

Lemma scale_unit (mn mx x : Qc) :
  (mn <= x <= mx)%Qc ->
  between zero one (scale (Fin mn) (orElse (Fin mx - Fin mn)%num one) (Fin x)) = true.
Proof.
  intros [H1 H2].
  destruct (@range_pos mn mx) as (r & -> & Hr & Hc); [qc2q; lra|].
  unfold scale, nsub. cbn [nneg nadd]. rewrite ndiv_fin by (apply qc_pos_neq; exact Hr).
  apply between_fin. eexists. split; [reflexivity|].
  apply qc_div_unit; [qc2q; lra| |exact Hr].
  destruct Hc as [->|[-> ->]]; qc2q; lra.
Qed.

End Order.

(** ** Min-max scaling *)

Module Scaling.

Import Spec NumFacts Bounds Steps Order.
Local Open Scope nat_scope.

(** What [normalize] computes on a non-empty finite array. *)
Lemma normalize_fin (x : Qc) (l : list Qc) :
  exists mn mx : Qc,
    Energy.normalize (map Fin (x :: l))
    = map (scale (Fin mn) (orElse (Fin mx - Fin mn)%num one)) (map Fin (x :: l)) /\
    (forall y, In y (x :: l) -> (mn <= y <= mx)%Qc) /\
    In mn (x :: l) /\ In mx (x :: l).
Proof.
  destruct (minMax_spec x l) as (mn & mx & E & H).
  exists mn, mx. split; [|exact H].
  unfold Energy.normalize, Energy.minMax.
  change (fun (st : num * num) (x0 : num) =>
            (if (x0 <? fst st)%num then x0 else fst st,
             if (x0 >? snd st)%num then x0 else snd st)) with mmStep.
  rewrite E. reflexivity.
Qed.

Lemma normalize01_normalize (R : list num) : Sections.normalize01 R = Energy.normalize R.
Proof. reflexivity. Qed.

Lemma normalize_between (arr : list num) :
  allFinite arr -> allBetween zero one (Energy.normalize arr).
Proof.
  intros Ha. destruct (WindowScan.allFinite_map Ha) as (qs & ->).
  destruct qs as [|x l]; [constructor|].
  destruct (normalize_fin x l) as (mn & mx & -> & Hb & _).
  unfold allBetween. rewrite map_map. apply Forall_map, Forall_forall.
  intros y Hy. apply scale_unit. apply Hb. exact Hy.
Qed.

(** X1.  [normalize] (energy.js) and the normalization that ends
    [repetitionScore] (sections.js) keep the length of a finite array
    and send every value into [0, 1]. *)
Theorem normalize_in_unit_interval (arr : list num) :
  allFinite arr ->
  (length (Energy.normalize arr) = length arr /\
   allBetween zero one (Energy.normalize arr)) /\
  (length (Sections.normalize01 arr) = length arr /\
   allBetween zero one (Sections.normalize01 arr)).
Proof.
  intros Ha. change (Sections.normalize01 arr) with (Energy.normalize arr).
  assert (H : length (Energy.normalize arr) = length arr /\
              allBetween zero one (Energy.normalize arr)).
  { split; [apply HookScan.length_normalize|apply normalize_between; exact Ha]. }
  split; exact H.
Qed.

Lemma normalize_in_unit_interval_witness :
  let arr := map ofQ [3 # 1; (-1) # 2; 7 # 4]%Q in
  (length (Energy.normalize arr) = length arr /\
   allBetween zero one (Energy.normalize arr)) /\
  (length (Sections.normalize01 arr) = length arr /\
   allBetween zero one (Sections.normalize01 arr)).
Proof.
  intros arr. apply (@normalize_in_unit_interval arr).
  repeat constructor.
Defined.

Lemma scale_min (mn r : Qc) : r <> Q2Qc 0 -> scale (Fin mn) (Fin r) (Fin mn) = zero.
Proof.
  intros Hr. unfold scale. rewrite Selector.nsub_self.
  apply Similarity.ndiv_zero_truthy. apply truthy_fin. exact Hr.
Qed.

(** X2.  On a finite array with two different values the least value is
    sent to 0 and the greatest to 1; a constant array is sent to zeros. *)
Theorem normalize_reaches_both_ends (arr : list num) :
  allFinite arr ->
  ((exists x y, In x arr /\ In y arr /\ x <> y) ->
   In zero (Energy.normalize arr) /\ In one (Energy.normalize arr)) /\
  ((forall x y, In x arr -> In y arr -> x = y) ->
   Energy.normalize arr = zeros (length arr)).
Proof.
  intros Ha. destruct (WindowScan.allFinite_map Ha) as (qs & ->).
  destruct qs as [|x0 l].
  - split; [intros (x & _ & [] & _)|reflexivity].
  - destruct (normalize_fin x0 l) as (mn & mx & -> & Hb & Hmn & Hmx).
    assert (Hle : (mn <= mx)%Qc) by (apply (Hb mn Hmn)).
    destruct (range_pos Hle) as (r & Er & Hr & Hc). rewrite Er.
    assert (Hr0 : r <> Q2Qc 0) by (apply qc_pos_neq; exact Hr).
    split.
    + intros (x & y & Hx & Hy & Hxy).
      destruct Hc as [Hc|[Hc _]].
      * split.
        -- apply in_map_iff. exists (Fin mn). split; [apply scale_min; exact Hr0|].
           apply in_map. exact Hmn.
        -- apply in_map_iff. exists (Fin mx). split; [|apply in_map; exact Hmx].
           unfold scale, nsub. cbn [nneg nadd]. subst r.
           apply Similarity.ndiv_self; [reflexivity|].
           apply truthy_fin. exact Hr0.
      * exfalso. subst mx.
        apply in_map_iff in Hx. destruct Hx as (qx & <- & Hx).
        apply in_map_iff in Hy. destruct Hy as (qy & <- & Hy).
        apply Hxy. f_equal. apply Qcle_antisym.
        -- apply Qcle_trans with mn; [apply (Hb qx Hx)|apply (Hb qy Hy)].
        -- apply Qcle_trans with mn; [apply (Hb qy Hy)|apply (Hb qx Hx)].
    + intros Hconst. unfold zeros. rewrite !length_map.
      assert (G : forall l', (forall q, In q l' -> q = mn) ->
                             map (scale (Fin mn) (Fin r)) (map Fin l')
                             = repeat zero (length l')).
      { induction l' as [|q l' IH]; intros Hq; cbn [map length repeat]; [reflexivity|].
        rewrite (Hq q) by (left; reflexivity). rewrite scale_min by exact Hr0.
        f_equal. apply IH. intros q' Hq'. apply Hq. right. exact Hq'. }
      apply G. intros q Hq.
      assert (E : Fin q = Fin mn)
        by (apply Hconst; apply in_map; assumption).
      injection E as E. exact E.
Qed.

Lemma normalize_reaches_both_ends_witness :
  let arr := map ofQ [3 # 1; (-1) # 2; 7 # 4]%Q in
  ((exists x y, In x arr /\ In y arr /\ x <> y) ->
   In zero (Energy.normalize arr) /\ In one (Energy.normalize arr)) /\
  ((forall x y, In x arr -> In y arr -> x = y) ->
   Energy.normalize arr = zeros (length arr)).
Proof.
  intros arr. apply (@normalize_reaches_both_ends arr).
  repeat constructor.
Defined.

End Scaling.

(** ** Moving averages stay inside the range of their input *)

Module Averages.

Import Spec NumFacts Bounds Steps Order.
Local Open Scope nat_scope.

Lemma inject_S (n : nat) :
  (inject_Z (Z.of_nat (S n)) == inject_Z (Z.of_nat n) + 1)%Q.
Proof. rewrite Nat2Z.inj_succ. unfold Z.succ. rewrite inject_Z_plus. reflexivity. Qed.

Lemma inject_nat_pos (n : nat) : 0 < n -> (0 < inject_Z (Z.of_nat n))%Q.
Proof. intros H. rewrite <- (Zlt_Qlt 0). lia. Qed.

Lemma inject_nat_nonneg (n : nat) : (0 <= inject_Z (Z.of_nat n))%Q.
Proof. rewrite <- (Zle_Qle 0). lia. Qed.

(** A sum of [n] values in [lo, hi] is in [n lo, n hi]. *)
Lemma qsum_bounds (lo hi : Qc) (l : list Qc) :
  (forall q, In q l -> (lo <= q <= hi)%Qc) ->
  (this lo * inject_Z (Z.of_nat (length l)) <= this (qsum l)
   /\ this (qsum l) <= this hi * inject_Z (Z.of_nat (length l)))%Q.
Proof.
  induction l as [|q l IH]; intros H.
  - cbn [length qsum]. change (inject_Z (Z.of_nat 0)) with 0%Q. qc2q. lra.
  - destruct IH as [I1 I2]; [intros y Hy; apply H; right; exact Hy|].
    destruct (H q (or_introl eq_refl)) as [H1 H2].
    cbn [length qsum]. rewrite inject_S.
    qc2q. lra.
Qed.

(** The mean of a non-empty list of values in [lo, hi] is in [lo, hi]. *)
Lemma mean_between (lo hi : Qc) (l : list Qc) :
  l <> [] ->
  (forall q, In q l -> (lo <= q <= hi)%Qc) ->
  between (Fin lo) (Fin hi) (sumFrom zero (map Fin l) / ofNat (length l))%num = true.
Proof.
  intros Hne H. rewrite WindowScan.zero_fin, WindowScan.sumFrom_fin.
  assert (Hn : 0 < length l) by (destruct l; [contradiction|simpl; lia]).
  unfold ofNat, ofZ. rewrite ndiv_fin.
  2:{ intros E. apply (f_equal this) in E.
      assert (E' : (this (Q2Qc (inject_Z (Z.of_nat (length l)))) == this (Q2Qc 0))%Q)
        by (rewrite E; reflexivity).
      rewrite !this_Q2Qc in E'. pose proof (inject_nat_pos Hn). lra. }
  apply between_fin. eexists. split; [reflexivity|].
  destruct (@qsum_bounds lo hi l H) as [B1 B2]. pose proof (inject_nat_pos Hn) as Hp.
  replace (Q2Qc 0 + qsum l)%Qc with (qsum l) by ring.
  qc_unfold. rewrite !this_Q2Qc. split.
  - apply Qle_shift_div_l; assumption.
  - apply Qle_shift_div_r; assumption.
Qed.

Lemma allBetween_get (lo hi : Qc) (x : list num) (j : nat) :
  allBetween (Fin lo) (Fin hi) x -> j < length x ->
  exists q, get x j = Fin q /\ (lo <= q <= hi)%Qc.
Proof.
  intros Hx Hj. unfold allBetween in Hx. rewrite Forall_forall in Hx.
  apply between_fin. apply Hx. apply nth_In. exact Hj.
Qed.

Lemma map_get_fin (lo hi : Qc) (x : list num) (idx : list nat) :
  allBetween (Fin lo) (Fin hi) x -> (forall j, In j idx -> j < length x) ->
  exists qs, map (get x) idx = map Fin qs /\ length qs = length idx /\
             forall q, In q qs -> (lo <= q <= hi)%Qc.
Proof.
  intros Hx. induction idx as [|j idx IH]; intros Hidx.
  - exists []. split; [reflexivity|]. split; [reflexivity|]. intros q [].
  - destruct IH as (qs & E & L & B); [intros k Hk; apply Hidx; right; exact Hk|].
    destruct (allBetween_get Hx (Hidx j (or_introl eq_refl))) as (q & Eq & Hq).
    exists (q :: qs). cbn [map length]. rewrite E, Eq, L.
    split; [reflexivity|]. split; [reflexivity|].
    intros y [<-|Hy]; [exact Hq|apply B; exact Hy].
Qed.

Lemma centeredMean_between (lo hi : Qc) (r : nat) (x : list num) (i : nat) :
  allBetween (Fin lo) (Fin hi) x -> i < length x ->
  between (Fin lo) (Fin hi) (centeredMean r x i) = true.
Proof.
  intros Hx Hi. unfold centeredMean.
  set (idx := clipped r (length x) i).
  assert (Hidx : forall j, In j idx -> j < length x).
  { intros j Hj. unfold idx, clipped in Hj. apply in_seq in Hj. lia. }
  assert (Lidx : 0 < length idx).
  { unfold idx, clipped. rewrite length_seq. lia. }
  destruct (map_get_fin idx Hx Hidx) as (qs & -> & L & B).
  rewrite <- L. apply mean_between; [|exact B].
  intros ->. simpl in L. lia.
Qed.

Lemma movingAverage_between (lo hi : Qc) (r : nat) (x : list num) :
  allBetween (Fin lo) (Fin hi) x -> allBetween (Fin lo) (Fin hi) (movingAverage r x).
Proof.
  intros Hx. unfold movingAverage, allBetween. apply Forall_map, Forall_forall.
  intros i Hi. apply in_seq in Hi. apply centeredMean_between; [exact Hx|lia].
Qed.

Lemma length_movingAverage (r : nat) (x : list num) :
  length (movingAverage r x) = length x.
Proof. unfold movingAverage. rewrite length_map. apply length_seq. Qed.

Lemma smooth1D_between (lo hi : Qc) (x : list num) (win : Z) :
  allBetween (Fin lo) (Fin hi) x ->
  length (Sections.smooth1D x win) = length x /\
  allBetween (Fin lo) (Fin hi) (Sections.smooth1D x win).
Proof.
  intros Hx. destruct (Z.leb_spec win 1) as [H|H].
  - unfold Sections.smooth1D. destruct x as [|x0 x]; [split; [reflexivity|exact Hx]|].
    destruct (Z.leb_spec win 1); [|lia]. split; [reflexivity|exact Hx].
  - rewrite Smoothing.smooth1D_movingAverage by exact H.
    split; [apply length_movingAverage|apply movingAverage_between; exact Hx].
Qed.

(** X3.  [smooth1D] keeps the length of its input, and a series inside
    [lo, hi] is smoothed into a series inside [lo, hi], whatever the
    window. *)
Theorem smooth1D_keeps_range (lo hi : Qc) (x : list num) (win : Z) :
  allBetween (Fin lo) (Fin hi) x ->
  length (Sections.smooth1D x win) = length x /\
  allBetween (Fin lo) (Fin hi) (Sections.smooth1D x win).
Proof.
  intros Hx. destruct (Z.leb_spec win 1) as [H|H].
  - unfold Sections.smooth1D. destruct x as [|x0 x]; [split; [reflexivity|exact Hx]|].
    destruct (Z.leb_spec win 1); [|lia]. split; [reflexivity|exact Hx].
  - rewrite Smoothing.smooth1D_movingAverage by exact H.
    split; [apply length_movingAverage|apply movingAverage_between; exact Hx].
Qed.

Lemma smooth1D_keeps_range_witness :
  let x := map ofQ [0 # 1; 1 # 1; 1 # 2; 0 # 1; 1 # 4; 1 # 1; 3 # 4]%Q in
  length (Sections.smooth1D x 5) = length x /\
  allBetween (Fin (Q2Qc 0)) (Fin (Q2Qc 1)) (Sections.smooth1D x 5).
Proof.
  intros x. apply (@smooth1D_keeps_range (Q2Qc 0) (Q2Qc 1) x 5).
  repeat constructor.
Defined.

(** *** Novelty *)

Lemma nmax_zero_fin (q : Qc) :
  nmax zero (Fin q) = Fin (if qltb (Q2Qc 0) q then q else Q2Qc 0).
Proof.
  unfold nmax, zero, ofZ. cbn [nlt]. change (Q2Qc (inject_Z 0)) with (Q2Qc 0).
  destruct (qltb (Q2Qc 0) q); reflexivity.
Qed.

Lemma noveltyRaw_between (lo hi : Qc) (series : list num) :
  allBetween (Fin lo) (Fin hi) series ->
  allBetween zero (Fin (hi - lo)) (Energy.noveltyRaw series).
Proof.
  intros Hs. unfold Energy.noveltyRaw. rewrite (Smoothing.imap_seq _ NaN).
  unfold allBetween. apply Forall_map, Forall_forall. intros i Hi. apply in_seq in Hi.
  assert (H0 : (lo <= hi)%Qc).
  { destruct (@allBetween_get lo hi series i Hs) as (q & _ & Hq); [lia|].
    apply Qcle_trans with q; apply Hq. }
  destruct i as [|i].
  - apply between_fin. exists (Q2Qc 0). split; [reflexivity|]. qc2q. lra.
  - destruct (@allBetween_get lo hi series (S i) Hs) as (a & -> & Ha); [lia|].
    destruct (@allBetween_get lo hi series i Hs) as (b & -> & Hb); [lia|].
    unfold nsub. cbn [nneg nadd]. rewrite nmax_zero_fin.
    apply between_fin. eexists. split; [reflexivity|].
    destruct (qltb (Q2Qc 0) (a + - b)) eqn:E.
    + apply qltb_lt in E. qc2q. lra.
    + qc2q. lra.
Qed.

Lemma computeNovelty_between (lo hi : Qc) (series : list num) :
  allBetween (Fin lo) (Fin hi) series ->
  length (Energy.computeNovelty series) = length series /\
  allBetween zero (Fin (hi - lo)) (Energy.computeNovelty series).
Proof.
  intros Hs. split; [apply ExtractFacts.length_computeNovelty|].
  rewrite Smoothing.computeNovelty_movingAverage.
  apply (@movingAverage_between (Q2Qc 0) (hi - lo)). apply noveltyRaw_between. exact Hs.
Qed.

(** X4.  The novelty of a series inside [lo, hi] has the length of the
    series and lies inside [0, hi - lo]: it is never negative, and never
    larger than the largest possible rise.  Its first raw value, before
    smoothing, is 0. *)
Theorem computeNovelty_range (lo hi : Qc) (series : list num) :
  allBetween (Fin lo) (Fin hi) series ->
  length (Energy.computeNovelty series) = length series /\
  allBetween zero (Fin (hi - lo)) (Energy.computeNovelty series) /\
  (series <> [] -> get (Energy.noveltyRaw series) 0 = zero).
Proof.
  intros Hs. destruct (computeNovelty_between Hs) as [H1 H2].
  split; [exact H1|]. split; [exact H2|].
  intros Hne. destruct series as [|x series]; [contradiction|]. reflexivity.
Qed.

Lemma computeNovelty_range_witness :
  let series := map ofQ [1 # 10; 2 # 10; 9 # 10; 8 # 10; 3 # 10; 1 # 10]%Q in
  length (Energy.computeNovelty series) = length series /\
  allBetween zero (Fin (Q2Qc 1 - Q2Qc 0)) (Energy.computeNovelty series) /\
  (series <> [] -> get (Energy.noveltyRaw series) 0 = zero).
Proof.
  intros series. apply (@computeNovelty_range (Q2Qc 0) (Q2Qc 1) series).
  repeat constructor.
Defined.

Lemma movingAverage_zeros (r n : nat) : movingAverage r (zeros n) = zeros n.
Proof.
  unfold movingAverage, zeros. rewrite repeat_length.
  assert (G : forall i, i < n -> centeredMean r (repeat zero n) i = zero).
  { intros i Hi.
    assert (B : between (Fin (Q2Qc 0)) (Fin (Q2Qc 0)) (centeredMean r (repeat zero n) i) = true).
    { apply centeredMean_between; [|rewrite repeat_length; exact Hi].
      unfold allBetween. apply Forall_forall. intros x Hx.
      apply repeat_spec in Hx. subst x. reflexivity. }
    apply between_fin in B. destruct B as (q & -> & H1 & H2).
    unfold zero, ofZ. f_equal. apply Qcle_antisym; assumption. }
  clear - G. revert G. generalize (centeredMean r (repeat zero n)). intros f.
  assert (H : forall s m, (forall i, s <= i < s + m -> f i = zero) ->
                          map f (seq s m) = repeat zero m).
  { intros s m. revert s. induction m as [|m IH]; intros s Hf; [reflexivity|].
    cbn [seq map repeat]. rewrite Hf by lia. f_equal. apply IH. intros i Hi. apply Hf. lia. }
  intros G. apply H. intros i Hi. apply G. lia.
Qed.

(** X5.  A finite series that never rises has no novelty at all. *)
Theorem computeNovelty_of_falling_series (series : list num) :
  allFinite series ->
  (forall i, S i < length series -> (get series (S i) <=? get series i)%num = true) ->
  Energy.computeNovelty series = zeros (length series).
Proof.
  intros Hs Hfall. rewrite Smoothing.computeNovelty_movingAverage.
  assert (E : Energy.noveltyRaw series = zeros (length series)).
  { unfold Energy.noveltyRaw. rewrite (Smoothing.imap_seq _ NaN).
    unfold zeros.
    assert (H : forall s m, s + m <= length series ->
                map (fun i => match i with
                              | O => zero
                              | S i' => nmax zero (get series i - get series i')%num
                              end) (seq s m) = repeat zero m).
    { intros s m. revert s. induction m as [|m IH]; intros s Hm; [reflexivity|].
      cbn [seq map repeat]. f_equal; [|apply IH; lia].
      destruct s as [|s]; [reflexivity|].
      specialize (Hfall s ltac:(lia)).
      pose proof (Finiteness.allFinite_get (k := S s) Hs ltac:(lia)) as Fa.
      pose proof (Finiteness.allFinite_get (k := s) Hs ltac:(lia)) as Fb.
      destruct (Finiteness.finite_inv _ Fa) as [a Ea].
      destruct (Finiteness.finite_inv _ Fb) as [b Eb].
      change (nth (S s) series NaN) with (get series (S s)).
      rewrite Ea, Eb in *. apply nle_fin in Hfall.
      unfold nsub. cbn [nneg nadd]. rewrite nmax_zero_fin.
      destruct (qltb (Q2Qc 0) (a + - b)) eqn:E; [|reflexivity].
      apply qltb_lt in E. exfalso. qc2q. lra. }
    apply H. lia. }
  rewrite E. apply movingAverage_zeros.
Qed.

Lemma computeNovelty_of_falling_series_witness :
  let series := map ofQ [9 # 10; 9 # 10; 1 # 2; 1 # 4; 0 # 1]%Q in
  Energy.computeNovelty series = zeros (length series).
Proof.
  intros series. apply (@computeNovelty_of_falling_series series).
  - repeat constructor.
  - intros i Hi. simpl in Hi.
    do 4 (destruct i as [|i]; [vm_compute; reflexivity|]). lia.
Defined.

End Averages.

(** ** The per-frame values of [extractAllFeatures] *)

Module FrameValues.

Import Spec NumFacts Bounds Steps Order.
Local Open Scope nat_scope.

Lemma nextPow2_some (n N : Z) :
  Energy.nextPow2 n = Some N -> LeastPow2 n N /\ (n <= 2 ^ 30)%Z.
Proof.
  intros E. destruct (Z_le_gt_dec n (2 ^ 30)) as [Hn|Hn].
  - destruct (@Pow2Facts.energy_nextPow2_least n Hn) as (N' & E' & HL).
    rewrite E in E'. injection E' as <-. split; assumption.
  - unfold Energy.nextPow2 in E.
    rewrite Pow2Facts.energy_nextPow2_diverges in E by lia. discriminate.
Qed.

Lemma targetSize_ge2 (sampleRate : Z) (frameSec : Qc) :
  (2 <= Energy.targetSize sampleRate frameSec)%Z.
Proof. unfold Energy.targetSize. lia. Qed.

(** The frame length is a power of two, at least 2, and twice the hop. *)
Lemma frame_shape (sampleRate : Z) (frameSec : Qc) (N : Z) :
  Energy.nextPow2 (Energy.targetSize sampleRate frameSec) = Some N ->
  (2 <= N /\ N = 2 * (N / 2) /\ 1 <= N / 2)%Z.
Proof.
  intros E. destruct (@nextPow2_some _ _ E) as [HL _].
  pose proof (targetSize_ge2 sampleRate frameSec) as H2.
  pose proof (@Pow2Facts.LeastPow2_ge2 _ _ H2 HL) as HN.
  pose proof (@Pow2Facts.LeastPow2_even _ _ H2 HL) as He.
  split; [exact HN|]. split; [exact He|]. lia.
Qed.

Section WithRuntime.
Context {M : MathLib} {F : FFTLib}.

(** The zero-crossing column of the frame loop. *)
Lemma frameLoop_zcr (samples : list num) (sampleRate : Z) (size hop : nat)
      (idxs : list nat) (prev : option (list num)) :
  map (fun r : Energy.Row => snd (fst r))
      (Energy.frameLoop samples sampleRate size hop idxs prev)
  = map (fun i => Energy.frameZcr (Energy.frameAt samples (i * hop) size) size) idxs.
Proof.
  revert prev. induction idxs as [|i idxs IH]; intros prev; cbn [Energy.frameLoop map].
  - reflexivity.
  - cbn [fst snd]. f_equal. apply IH.
Qed.

(** The spectral-flux column: every entry is a [frameFlux]. *)
Lemma frameLoop_flux (P : num -> Prop) (samples : list num) (sampleRate : Z)
      (size hop : nat) (idxs : list nat) :
  (forall mags prev, P (Energy.frameFlux mags prev)) ->
  forall prev,
    Forall P (map (fun r : Energy.Row => snd r)
                  (Energy.frameLoop samples sampleRate size hop idxs prev)).
Proof.
  intros HP. induction idxs as [|i idxs IH]; intros prev; cbn [Energy.frameLoop map].
  - constructor.
  - constructor; [apply HP|apply IH].
Qed.

End WithRuntime.

(** *** Zero crossings *)

Lemma zcrStep_count (frame : list num) (mean : num) (l : list nat) :
  forall st : Z * Z,
    (snd st <= snd (fold_left (Energy.zcrStep frame mean) l st)
     <= snd st + Z.of_nat (length l))%Z.
Proof.
  induction l as [|j l IH]; intros [prev c]; cbn [fold_left length].
  - cbn [snd]. lia.
  - specialize (IH (Energy.zcrStep frame mean (prev, c) j)).
    assert (H : (c <= snd (Energy.zcrStep frame mean (prev, c) j) <= c + 1)%Z).
    { unfold Energy.zcrStep. cbn [snd].
      match goal with |- context [if ?b then (c + 1)%Z else c] => destruct b end; lia. }
    cbn [snd]. lia.
Qed.

Lemma ratio_unit (c n : Z) :
  (0 <= c <= n)%Z -> (0 < n)%Z -> between zero one (ofZ c / ofZ n)%num = true.
Proof.
  intros Hc Hn. unfold ofZ. rewrite ndiv_fin.
  2:{ intros E. apply (proj1 (Q2Qc_eq_iff _ _)) in E.
      apply (proj1 (inject_Z_injective n 0)) in E. lia. }
  apply between_fin. eexists. split; [reflexivity|].
  apply qc_div_unit.
  - unfold Qcle. rewrite !this_Q2Qc. rewrite <- (Zle_Qle 0). lia.
  - unfold Qcle. rewrite !this_Q2Qc. rewrite <- Zle_Qle. lia.
  - unfold Qclt. rewrite !this_Q2Qc. rewrite <- (Zlt_Qlt 0). lia.
Qed.

Lemma frameZcr_between (frame : list num) (size : nat) :
  2 <= size -> between zero one (Energy.frameZcr frame size) = true.
Proof.
  intros Hs. unfold Energy.frameZcr.
  set (mean := (sumFrom zero frame / ofNat size)%num).
  pose proof (zcrStep_count frame mean (seq 1 (size - 1))
                (Energy.sgn (get frame 0 - mean)%num, 0%Z)) as H.
  rewrite length_seq in H. cbn [snd] in H.
  unfold ofNat, one. rewrite ofZ_sub.
  apply ratio_unit; lia.
Qed.

(** X6.  Every zero-crossing rate [extractAllFeatures] returns is in
    [0, 1], whatever the samples are (finite or not) and whatever the
    runtime's functions return. *)
Theorem zcr_in_unit_interval {M : MathLib} {F : FFTLib}
        (samples : list num) (sampleRate : Z) (frameSec : Qc) (r : Energy.Extraction) :
  Energy.extractAllFeatures samples sampleRate frameSec = Some r ->
  allBetween zero one (Energy.zcr (Energy.features r)).
Proof.
  unfold Energy.extractAllFeatures.
  destruct (Energy.nextPow2 (Energy.targetSize sampleRate frameSec)) as [N|] eqn:EN;
    cbn [bind]; [|discriminate].
  intros [= <-]. cbn [Energy.features Energy.zcr].
  destruct (@frame_shape _ _ _ EN) as (HN & _ & _).
  rewrite frameLoop_zcr. unfold allBetween. apply Forall_map, Forall_forall.
  intros i _. apply frameZcr_between. lia.
Qed.

Lemma zcr_in_unit_interval_witness :
  exists r,
    Energy.extractAllFeatures (M := Runtime.math) (F := Runtime.fft)
      (map ofQ [1 # 2; (-1) # 2; 1 # 4; (-1) # 4; 1 # 2; (-1) # 2]%Q) 40 (Q2Qc (1 # 10))
    = Some r /\
    allBetween zero one (Energy.zcr (Energy.features r)).
Proof.
  eexists. split; [reflexivity|].
  apply (@zcr_in_unit_interval Runtime.math Runtime.fft
           (map ofQ [1 # 2; (-1) # 2; 1 # 4; (-1) # 4; 1 # 2; (-1) # 2]%Q) 40 (Q2Qc (1 # 10))).
  reflexivity.
Defined.

End FrameValues.

(** ** More on the per-frame values *)

Module FrameFacts.

Import Spec NumFacts Bounds Steps Order.
Local Open Scope nat_scope.

(** *** A constant frame has no zero crossing *)

Lemma mean_constant (v : Qc) (n : nat) :
  0 < n -> (sumFrom zero (repeat (Fin v) n) / ofNat n)%num = Fin v.
Proof.
  intros Hn.
  assert (E : repeat (Fin v) n = map Fin (repeat v n)).
  { clear Hn. induction n as [|n IH]; [reflexivity|]. cbn [repeat map]. rewrite IH. reflexivity. }
  rewrite E.
  assert (B : between (Fin v) (Fin v)
                (sumFrom zero (map Fin (repeat v n)) / ofNat (length (repeat v n)))%num = true).
  { apply Averages.mean_between.
    - destruct n; [lia|discriminate].
    - intros q Hq. apply repeat_spec in Hq. subst q. split; apply Qcle_refl. }
  rewrite repeat_length in B. apply between_fin in B.
  destruct B as (q & -> & H1 & H2). f_equal. apply Qcle_antisym; assumption.
Qed.

Lemma sgn_zero : Energy.sgn zero = 0%Z.
Proof. reflexivity. Qed.

Lemma get_repeat (x : num) (n j : nat) : j < n -> get (repeat x n) j = x.
Proof.
  intros Hj. unfold get. apply (@repeat_spec _ n x). apply nth_In.
  rewrite repeat_length. exact Hj.
Qed.

(** X7.  A frame whose samples are all equal (silence, or a constant
    offset) has zero-crossing rate 0: the mean is removed first. *)
Theorem frameZcr_of_constant_frame (v : Qc) (size : nat) :
  2 <= size -> Energy.frameZcr (repeat (Fin v) size) size = zero.
Proof.
  intros Hs. unfold Energy.frameZcr. rewrite mean_constant by lia.
  assert (D : forall j, j < size -> Energy.sgn (get (repeat (Fin v) size) j - Fin v)%num = 0%Z).
  { intros j Hj. rewrite get_repeat by exact Hj. rewrite Selector.nsub_self. apply sgn_zero. }
  rewrite D by lia.
  assert (G : forall l, (forall j, In j l -> j < size) ->
                        fold_left (Energy.zcrStep (repeat (Fin v) size) (Fin v)) l (0%Z, 0%Z)
                        = (0%Z, 0%Z)).
  { induction l as [|j l IH]; intros Hl; cbn [fold_left]; [reflexivity|].
    unfold Energy.zcrStep at 2. rewrite D by (apply Hl; left; reflexivity).
    cbn. apply IH. intros k Hk. apply Hl. right. exact Hk. }
  rewrite G by (intros j Hj; apply in_seq in Hj; lia).
  cbn [snd]. apply Similarity.ndiv_zero_truthy.
  unfold ofNat, one. rewrite ofZ_sub. apply truthy_ofZ. lia.
Qed.

Lemma frameZcr_of_constant_frame_witness :
  Energy.frameZcr (repeat (Fin (Q2Qc (3 # 10))) 8) 8 = zero.
Proof. apply (@frameZcr_of_constant_frame (Q2Qc (3 # 10)) 8). lia. Defined.

(** *** Spectral flux *)

Lemma nle_zero_cases (x : num) :
  (zero <=? x)%num = true <-> x = PosInf \/ exists q, x = Fin q /\ (Q2Qc 0 <= q)%Qc.
Proof.
  split.
  - destruct x as [| |q|]; try discriminate.
    + intros H. right. exists q. split; [reflexivity|]. apply nle_fin in H. exact H.
    + intros _. left. reflexivity.
  - intros [->|(q & -> & H)]; [reflexivity|]. apply nle_fin. exact H.
Qed.

Lemma ngt_zero_cases (x : num) :
  (x >? zero)%num = true -> x = PosInf \/ exists q, x = Fin q /\ (Q2Qc 0 < q)%Qc.
Proof.
  unfold ngt. destruct x as [| |q|]; try discriminate.
  - intros H. right. exists q. split; [reflexivity|]. apply nlt_fin in H. exact H.
  - intros _. left. reflexivity.
Qed.

Lemma fluxStep_nonneg (mags pm : list num) (flux : num) (k : nat) :
  (zero <=? flux)%num = true -> (zero <=? fluxStep mags pm flux k)%num = true.
Proof.
  intros H. unfold fluxStep.
  destruct ((get mags k - get pm k) >? zero)%num eqn:E; [|exact H].
  apply ngt_zero_cases in E. apply nle_zero_cases in H. apply nle_zero_cases.
  destruct H as [->|(a & -> & Ha)], E as [->|(d & -> & Hd)].
  - left. reflexivity.
  - left. reflexivity.
  - left. reflexivity.
  - right. exists (a + d)%Qc. split; [reflexivity|]. qc2q. lra.
Qed.

Lemma fluxStep_fold_nonneg (mags pm : list num) (l : list nat) :
  forall a, (zero <=? a)%num = true ->
            (zero <=? fold_left (fluxStep mags pm) l a)%num = true.
Proof.
  induction l as [|k l IH]; intros a Ha; cbn [fold_left]; [exact Ha|].
  apply IH. apply fluxStep_nonneg. exact Ha.
Qed.

Lemma frameFlux_eq (mags pm : list num) :
  Energy.frameFlux mags (Some pm)
  = fold_left (fluxStep mags pm) (seq 0 (length mags)) zero.
Proof. reflexivity. Qed.

Lemma frameFlux_nonneg (mags : list num) (prevMags : option (list num)) :
  (zero <=? Energy.frameFlux mags prevMags)%num = true.
Proof.
  destruct prevMags as [pm|]; [|reflexivity].
  rewrite frameFlux_eq. apply fluxStep_fold_nonneg. reflexivity.
Qed.

(** X8.  The spectral flux of a frame is never negative and never NaN,
    whatever the two magnitude spectra hold: only rises are added up.
    Against a spectrum that it exceeds in no bin, a spectrum has flux 0. *)
Theorem frameFlux_nonnegative (mags : list num) (prevMags : option (list num)) :
  (zero <=? Energy.frameFlux mags prevMags)%num = true /\
  (forall pm,
     prevMags = Some pm ->
     (forall k, k < length mags -> ((get mags k - get pm k) >? zero)%num = false) ->
     Energy.frameFlux mags prevMags = zero).
Proof.
  split; [apply frameFlux_nonneg|].
  intros pm -> H. rewrite frameFlux_eq.
  assert (G : forall l, (forall k, In k l -> k < length mags) ->
                        fold_left (fluxStep mags pm) l zero = zero).
  { induction l as [|k l IH]; intros Hl; cbn [fold_left]; [reflexivity|].
    unfold fluxStep at 2. cbv zeta. rewrite H by (apply Hl; left; reflexivity).
    apply IH. intros j Hj. apply Hl. right. exact Hj. }
  apply G. intros k Hk. apply in_seq in Hk. lia.
Qed.

(** *** Spectral centroid *)

Lemma qc_mul_nonneg (a b : Qc) : (Q2Qc 0 <= a -> Q2Qc 0 <= b -> Q2Qc 0 <= a * b)%Qc.
Proof.
  intros Ha Hb. replace (Q2Qc 0) with (Q2Qc 0 * b)%Qc by ring.
  apply Qcmult_le_compat_r; assumption.
Qed.

Lemma centroid_fold (b K : Qc) (l : list (nat * num)) :
  (Q2Qc 0 <= b)%Qc ->
  (forall km, In km l ->
     (Q2Qc (inject_Z (Z.of_nat (fst km))) <= K)%Qc /\
     exists m, snd km = Fin m /\ (Q2Qc 0 <= m)%Qc) ->
  forall ws ms : Qc,
    (Q2Qc 0 <= ws)%Qc -> (ws <= K * b * ms)%Qc -> (Q2Qc 0 <= ms)%Qc ->
    exists ws' ms' : Qc,
      fold_left (centroidStep (Fin b)) l (Fin ws, Fin ms) = (Fin ws', Fin ms') /\
      (Q2Qc 0 <= ws')%Qc /\ (ws' <= K * b * ms')%Qc /\ (Q2Qc 0 <= ms')%Qc.
Proof.
  intros Hb. induction l as [|[k m] l IH]; intros Hl ws ms H1 H2 H3; cbn [fold_left].
  - exists ws, ms. repeat split; assumption.
  - destruct (Hl (k, m) (or_introl eq_refl)) as (Hk & q & Em & Hq). cbn [fst snd] in *.
    subst m. unfold centroidStep at 2. cbn [fst snd nmul nadd]. unfold ofNat, ofZ. cbn [nmul].
    apply IH.
    + intros km Hkm. apply Hl. right. exact Hkm.
    + apply Finiteness.qc_add_nonneg; [exact H1|].
      repeat apply qc_mul_nonneg; try assumption. apply Finiteness.ofNat_nonneg.
    + replace (K * b * (ms + q))%Qc with (K * b * ms + K * (b * q))%Qc by ring.
      apply Qcplus_le_compat; [exact H2|].
      rewrite <- Qcmult_assoc. apply Qcmult_le_compat_r; [exact Hk|].
      apply qc_mul_nonneg; assumption.
    + apply Finiteness.qc_add_nonneg; assumption.
Qed.

Lemma nonneg_inv (x : num) :
  nonneg x = true -> exists q, x = Fin q /\ (Q2Qc 0 <= q)%Qc.
Proof.
  unfold nonneg. intros H. apply andb_true_iff in H. destruct H as [H1 H2].
  destruct x as [| |q|]; try discriminate. exists q. split; [reflexivity|].
  apply nle_fin in H2. exact H2.
Qed.

Lemma frameCentroid_eq (mags : list num) (binHz : num) :
  Energy.frameCentroid mags binHz
  = let '(ws, ms) := fold_left (centroidStep binHz) (combine (seq 0 (length mags)) mags)
                               (Fin (Q2Qc 0), Fin (Q2Qc 0)) in
    if (ms >? zero)%num then (ws / ms)%num else zero.
Proof. reflexivity. Qed.

(** X9.  On magnitudes that are finite and not negative, and a bin
    width that is not negative, the spectral centroid lies between 0 and
    the frequency of the last bin; it is 0 on an all-zero spectrum. *)
Theorem frameCentroid_within_band (mags : list num) (b : Qc) :
  Forall (fun m => nonneg m = true) mags -> (Q2Qc 0 <= b)%Qc ->
  between zero (ofNat (length mags - 1) * Fin b)%num
          (Energy.frameCentroid mags (Fin b)) = true /\
  ((forall m, In m mags -> m = zero) -> Energy.frameCentroid mags (Fin b) = zero).
Proof.
  intros Hm Hb. rewrite frameCentroid_eq.
  set (K := Q2Qc (inject_Z (Z.of_nat (length mags - 1)))).
  assert (HK : (Q2Qc 0 <= K)%Qc) by apply Finiteness.ofNat_nonneg.
  destruct (@centroid_fold b K (combine (seq 0 (length mags)) mags) Hb) with
    (ws := Q2Qc 0) (ms := Q2Qc 0) as (ws & ms & E & H1 & H2 & H3).
  { intros [k m] Hkm. cbn [fst snd].
    pose proof (in_combine_l _ _ _ _ Hkm) as Hk. apply in_seq in Hk.
    pose proof (in_combine_r _ _ _ _ Hkm) as Hin.
    rewrite Forall_forall in Hm. split; [|apply nonneg_inv, Hm; exact Hin].
    unfold K, Qcle. rewrite !this_Q2Qc. rewrite <- Zle_Qle. lia. }
  { apply Qcle_refl. }
  { replace (K * b * Q2Qc 0)%Qc with (Q2Qc 0) by ring. apply Qcle_refl. }
  { apply Qcle_refl. }
  rewrite E.
  change (ofNat (length mags - 1) * Fin b)%num with (Fin (K * b)%Qc).
  assert (HKb : (Q2Qc 0 <= K * b)%Qc) by (apply qc_mul_nonneg; assumption).
  split.
  - unfold ngt. destruct (nlt zero (Fin ms)) eqn:Ems.
    + apply nlt_fin in Ems. rewrite ndiv_fin by (apply qc_pos_neq; exact Ems).
      apply between_fin. eexists. split; [reflexivity|]. split.
      * apply Finiteness.qc_div_nonneg; assumption.
      * clear E. qc_unfold. rewrite !this_Q2Qc in *.
        apply Qle_shift_div_r; assumption.
    + apply between_fin. exists (Q2Qc 0). split; [reflexivity|].
      split; [apply Qcle_refl|exact HKb].
  - intros Hz.
    assert (G : forall l w, (forall km, In km l -> snd km = zero) ->
                            snd (fold_left (centroidStep (Fin b)) l (w, zero)) = zero).
    { induction l as [|km l IH]; intros w Hl; cbn [fold_left]; [reflexivity|].
      unfold centroidStep at 2. cbn [fst snd]. rewrite (Hl km (or_introl eq_refl)).
      assert (Z0 : (zero + zero)%num = zero) by num_eq. rewrite Z0.
      apply IH. intros km' H'. apply Hl. right. exact H'. }
    specialize (G (combine (seq 0 (length mags)) mags) (Fin (Q2Qc 0))).
    change (Fin (Q2Qc 0), zero) with (Fin (Q2Qc 0), Fin (Q2Qc 0)) in G.
    rewrite E in G. cbn [snd] in G. rewrite G.
    + reflexivity.
    + intros [k m] Hkm. cbn [snd]. apply Hz. apply (in_combine_r _ _ _ _ Hkm).
Qed.

Lemma frameCentroid_within_band_witness :
  let mags := map ofQ [0 # 1; 2 # 1; 1 # 1; 1 # 1]%Q in
  between zero (ofNat (length mags - 1) * Fin (Q2Qc (10 # 1)))%num
          (Energy.frameCentroid mags (Fin (Q2Qc (10 # 1)))) = true /\
  ((forall m, In m mags -> m = zero) ->
   Energy.frameCentroid mags (Fin (Q2Qc (10 # 1))) = zero).
Proof.
  intros mags. apply (@frameCentroid_within_band mags (Q2Qc (10 # 1))).
  - repeat constructor.
  - vm_compute. discriminate.
Defined.

(** *** The frames and the signal *)

Lemma frameCount_cover (len N H : Z) :
  (1 <= H)%Z ->
  let n := Energy.frameCount len N H in
  (1 <= n)%Z /\
  (N <= len -> (n - 1) * H + N <= len < (n - 1) * H + N + H)%Z /\
  (len < N -> n = 1)%Z.
Proof.
  intros HH. cbv zeta. unfold Energy.frameCount.
  split; [lia|]. split.
  - intros Hlen.
    assert (0 <= (len - N) / H)%Z by (apply Z.div_pos; lia).
    pose proof (Z.mul_div_le (len - N) H ltac:(lia)).
    pose proof (Z.mul_succ_div_gt (len - N) H ltac:(lia)).
    rewrite Z.max_r by lia. nia.
  - intros Hlen.
    assert ((len - N) / H < 0)%Z by (apply Z.div_lt_upper_bound; lia).
    lia.
Qed.

(** X10.  The frames of [extractAllFeatures] have a length [N] that is
    at least 2 and twice the hop.  On a signal of at least [N] samples
    the last frame ends inside the signal and fewer than [hop] samples
    after it are left out; a shorter signal gives exactly one frame. *)
Theorem frames_cover_the_signal {M : MathLib} {F : FFTLib}
        (samples : list num) (sampleRate : Z) (frameSec : Qc) (r : Energy.Extraction) :
  Energy.extractAllFeatures samples sampleRate frameSec = Some r ->
  let len := Z.of_nat (length samples) in
  let N := Energy.frameSize r in
  let H := Energy.hop r in
  let n := Energy.nFrames r in
  (2 <= N /\ N = 2 * H /\ 1 <= n)%Z /\
  length (Energy.energy (Energy.features r)) = Z.to_nat n /\
  (N <= len -> (n - 1) * H + N <= len < (n - 1) * H + N + H)%Z /\
  (len < N -> n = 1)%Z.
Proof.
  intros E. cbv zeta.
  destruct (Energy.nextPow2 (Energy.targetSize sampleRate frameSec)) as [N|] eqn:EN.
  2:{ unfold Energy.extractAllFeatures in E. rewrite EN in E. discriminate. }
  destruct (@ExtractFacts.extract_shape M F samples sampleRate frameSec N EN)
    as (r' & E' & HN & HH & Hn & _ & Le & _).
  rewrite E in E'. injection E' as <-.
  destruct (@FrameValues.frame_shape _ _ _ EN) as (H2 & He & H1).
  rewrite HN, HH, Hn.
  destruct (@frameCount_cover (Z.of_nat (length samples)) N (N / 2) H1) as (C1 & C2 & C3).
  split; [split; [exact H2|split; [exact He|exact C1]]|].
  split; [rewrite <- Hn; exact Le|]. split; assumption.
Qed.

Lemma frames_cover_the_signal_witness :
  exists r,
    Energy.extractAllFeatures (M := Runtime.math) (F := Runtime.fft)
      (map ofQ [1 # 2; (-1) # 2; 1 # 4; (-1) # 4; 1 # 2; (-1) # 2; 1 # 8]%Q) 40 (Q2Qc (1 # 10))
    = Some r /\
    let len := 7%Z in
    let N := Energy.frameSize r in
    let H := Energy.hop r in
    let n := Energy.nFrames r in
    (2 <= N /\ N = 2 * H /\ 1 <= n)%Z /\
    length (Energy.energy (Energy.features r)) = Z.to_nat n /\
    (N <= len -> (n - 1) * H + N <= len < (n - 1) * H + N + H)%Z /\
    (len < N -> n = 1)%Z.
Proof.
  eexists. split; [reflexivity|].
  apply (@frames_cover_the_signal Runtime.math Runtime.fft
           (map ofQ [1 # 2; (-1) # 2; 1 # 4; (-1) # 4; 1 # 2; (-1) # 2; 1 # 8]%Q)
           40 (Q2Qc (1 # 10))).
  reflexivity.
Defined.

(** *** Zero padding *)

Lemma frameAt_pad (samples : list num) (k start size : nat) :
  Energy.frameAt (samples ++ zeros k) start size = Energy.frameAt samples start size.
Proof.
  unfold Energy.frameAt. apply map_ext. intros j.
  destruct (Nat.lt_ge_cases (start + j) (length samples)) as [H|H].
  - rewrite nth_error_app1 by exact H. reflexivity.
  - rewrite nth_error_app2 by exact H.
    rewrite (proj2 (nth_error_None samples (start + j)) H).
    cbn [nullish]. unfold zeros.
    destruct (nth_error (repeat zero k) (start + j - length samples)) as [v|] eqn:E;
      [|reflexivity].
    apply nth_error_In, repeat_spec in E. subst v. reflexivity.
Qed.

Lemma frameLoop_pad {M : MathLib} {F : FFTLib} (samples : list num) (k : nat)
      (sampleRate : Z) (size hop : nat) (idxs : list nat) (prev : option (list num)) :
  Energy.frameLoop (samples ++ zeros k) sampleRate size hop idxs prev
  = Energy.frameLoop samples sampleRate size hop idxs prev.
Proof.
  revert prev. induction idxs as [|i idxs IH]; intros prev; cbn [Energy.frameLoop];
    [reflexivity|].
  rewrite frameAt_pad, IH. reflexivity.
Qed.

(** X11.  A signal shorter than one frame is analysed as if it were
    padded with zeros: appending zeros up to the frame length changes
    nothing in what [extractAllFeatures] returns. *)
Theorem short_signal_is_zero_padded {M : MathLib} {F : FFTLib}
        (samples : list num) (k : nat) (sampleRate : Z) (frameSec : Qc)
        (r : Energy.Extraction) :
  Energy.extractAllFeatures samples sampleRate frameSec = Some r ->
  (Z.of_nat (length samples + k) <= Energy.frameSize r)%Z ->
  Energy.extractAllFeatures (samples ++ zeros k) sampleRate frameSec = Some r.
Proof.
  unfold Energy.extractAllFeatures.
  destruct (Energy.nextPow2 (Energy.targetSize sampleRate frameSec)) as [N|] eqn:EN;
    cbn [bind]; [|discriminate].
  destruct (@FrameValues.frame_shape _ _ _ EN) as (H2 & He & H1).
  intros [= <-]. cbn [Energy.frameSize]. intros Hk.
  assert (C : forall len, (len <= N)%Z -> Energy.frameCount len N (N / 2) = 1%Z).
  { intros len Hlen. unfold Energy.frameCount.
    assert ((len - N) / (N / 2) <= 0)%Z; [|lia].
    apply Z.div_le_upper_bound; lia. }
  assert (L : length (samples ++ zeros k) = length samples + k).
  { rewrite length_app. unfold zeros. rewrite repeat_length. reflexivity. }
  rewrite L.
  rewrite (C (Z.of_nat (length samples + k))) by exact Hk.
  rewrite (C (Z.of_nat (length samples))) by lia.
  rewrite !frameLoop_pad. reflexivity.
Qed.

Lemma short_signal_is_zero_padded_witness :
  exists r,
    Energy.extractAllFeatures (M := Runtime.math) (F := Runtime.fft)
      (map ofQ [1 # 2; (-1) # 2]%Q) 40 (Q2Qc (1 # 10)) = Some r /\
    Energy.extractAllFeatures (M := Runtime.math) (F := Runtime.fft)
      (map ofQ [1 # 2; (-1) # 2]%Q ++ zeros 2) 40 (Q2Qc (1 # 10)) = Some r.
Proof.
  eexists. split; [reflexivity|].
  apply (@short_signal_is_zero_padded Runtime.math Runtime.fft
           (map ofQ [1 # 2; (-1) # 2]%Q) 2 40 (Q2Qc (1 # 10))).
  - reflexivity.
  - vm_compute. discriminate.
Defined.

End FrameFacts.

(** ** The repetition score *)

Module RepetitionRange.

Import Spec NumFacts Bounds Steps Order.
Local Open Scope nat_scope.

Local Abbreviation finite x := (isFinite x = true).

Lemma nmax_ofZ (a b : Z) : nmax (ofZ a) (ofZ b) = ofZ (Z.max a b).
Proof.
  assert (E : nmax (ofZ a) (ofZ b) = if nlt (ofZ a) (ofZ b) then ofZ b else ofZ a)
    by reflexivity.
  rewrite E, nlt_ofZ.
  destruct (Z.ltb_spec a b); [rewrite Z.max_r by lia|rewrite Z.max_l by lia]; reflexivity.
Qed.

Lemma nmin_ofZ (a b : Z) : nmin (ofZ a) (ofZ b) = ofZ (Z.min a b).
Proof.
  assert (E : nmin (ofZ a) (ofZ b) = if nlt (ofZ b) (ofZ a) then ofZ b else ofZ a)
    by reflexivity.
  rewrite E, nlt_ofZ.
  destruct (Z.ltb_spec b a); [rewrite Z.min_r by lia|rewrite Z.min_l by lia]; reflexivity.
Qed.

Lemma nround_fin (q : Qc) : exists z, nround (Fin q) = ofZ z.
Proof. eexists. reflexivity. Qed.

(** [max(1, round(x / frameSec))] is an integer, at least 1. *)
Lemma lag_frames (x frameSec : num) :
  finite x -> finite frameSec -> truthy frameSec = true ->
  exists z, (1 <= z)%Z /\ nmax one (nround (x / frameSec)%num) = ofZ z.
Proof.
  intros Hx Hf Ht.
  destruct (Finiteness.finite_inv _ (@Finiteness.finite_div _ _ Hx Hf Ht)) as [q ->].
  destruct (nround_fin q) as [z ->]. unfold one. rewrite nmax_ofZ.
  exists (Z.max 1 z). split; [lia|reflexivity].
Qed.

Lemma lagRange_ofZ (a b s : Z) :
  (a <= b)%Z -> (1 <= s)%Z ->
  exists zs, Sections.lagRange (ofZ a) (ofZ b) (ofZ s) = Some (map ofZ zs) /\
             zs <> [] /\ Forall (fun z => (a <= z)%Z) zs.
Proof.
  intros Hab Hs. unfold Sections.lagRange. rewrite nle_ofZ.
  destruct (Z.leb_spec a b) as [_|H]; [|lia]. cbn [negb].
  unfold ofZ. cbv beta iota.
  assert (E : qltb (Q2Qc 0) (Q2Qc (inject_Z s)) = true).
  { apply qltb_lt. apply (proj2 (qlt_inject 0 s)). lia. }
  rewrite E.
  set (n := Z.to_nat (Qfloor ((Q2Qc (inject_Z b) - Q2Qc (inject_Z a)) / Q2Qc (inject_Z s))%Qc + 1)).
  exists (map (fun t => (a + Z.of_nat t * s)%Z) (seq 0 n)).
  split; [|split].
  - f_equal. rewrite map_map. apply map_ext. intros t.
    change (Fin (Q2Qc (inject_Z a) + Q2Qc (inject_Z (Z.of_nat t)) * Q2Qc (inject_Z s))%Qc)
      with (ofZ a + ofZ (Z.of_nat t) * ofZ s)%num.
    rewrite ofZ_mul, ofZ_add. reflexivity.
  - assert (Hn : 0 < n).
    { unfold n.
      assert (0 <= Qfloor ((Q2Qc (inject_Z b) - Q2Qc (inject_Z a)) / Q2Qc (inject_Z s))%Qc)%Z;
        [|lia].
      apply (Qfloor_resp_le 0). 
      assert (G : (Q2Qc 0 <= (Q2Qc (inject_Z b) - Q2Qc (inject_Z a)) / Q2Qc (inject_Z s))%Qc).
      { apply Finiteness.qc_div_nonneg.
        - unfold Qcle, Qcminus, Qcplus, Qcopp. rewrite !this_Q2Qc.
          rewrite <- inject_Z_opp, <- inject_Z_plus. rewrite <- (Zle_Qle 0). lia.
        - unfold Qcle. rewrite !this_Q2Qc. rewrite <- (Zle_Qle 0). lia. }
      unfold Qcle in G. rewrite this_Q2Qc in G. exact G. }
    destruct n; [lia|]. discriminate.
  - apply Forall_map, Forall_forall. intros t _. nia.
Qed.

(** The lag loop ends as soon as the frame step is finite and not zero
    (and the three durations are finite): the lags are integers, at
    least 1, and there is at least one. *)
Lemma lagsOf_returns (opts : Sections.Opts) :
  let frameSec := nullish (Sections.o_frameSec opts) (ofQ (464 # 10000)) in
  finite frameSec -> truthy frameSec = true ->
  finite (nullish (Sections.o_minLagSec opts) (ofZ 6)) ->
  finite (nullish (Sections.o_maxLagSec opts) (ofZ 45)) ->
  finite (nullish (Sections.o_lagStepSec opts) (ofQ (25 # 100))) ->
  exists zs, Sections.lagsOf opts = Some (map ofZ zs) /\
             zs <> [] /\ Forall (fun z => (1 <= z)%Z) zs.
Proof.
  intros frameSec Hf Ht H1 H2 H3. unfold Sections.lagsOf. fold frameSec.
  destruct (@lag_frames _ _ H1 Hf Ht) as (a & Ha & ->).
  destruct (@lag_frames _ _ H3 Hf Ht) as (s & Hs & ->).
  destruct (Finiteness.finite_inv _ (@Finiteness.finite_div _ _ H2 Hf Ht)) as [q ->].
  destruct (nround_fin q) as [z ->]. unfold one at 1. rewrite ofZ_add, nmax_ofZ.
  destruct (@lagRange_ofZ a (Z.max (a + 1) z) s) as (zs & E & Hne & Hz); [lia|exact Hs|].
  exists zs. split; [exact E|]. split; [exact Hne|].
  eapply Forall_impl; [|exact Hz]. cbv beta. intros; lia.
Qed.

(** *** Finite raw scores *)

Lemma indexOf_ofZ (z : Z) : (0 <= z)%Z -> indexOf (ofZ z) = Some (Z.to_nat z).
Proof.
  intros Hz. rewrite <- (Z2Nat.id z) at 1 by exact Hz. apply WindowScan.indexOf_ofNat.
Qed.

Lemma safeCell_finite (S : list (list num)) (r : nat) (z : Z) :
  finiteMatrix S -> finite (Sections.safeCell S r (ofZ z)).
Proof.
  intros HS. unfold Sections.safeCell.
  destruct (nth_error S r) as [row|] eqn:E; [|reflexivity].
  assert (Hrow : allFinite row).
  { unfold finiteMatrix in HS. rewrite Forall_forall in HS. apply HS.
    apply nth_error_In with r. exact E. }
  unfold nge, zero, ofNat. rewrite nle_ofZ, nlt_ofZ.
  destruct (Z.leb_spec 0 z) as [H0|H0]; [|reflexivity].
  destruct (Z.ltb_spec z (Z.of_nat (length row))) as [H1|H1]; [|reflexivity].
  cbn [andb]. unfold getAt. rewrite indexOf_ofZ by exact H0.
  apply Finiteness.allFinite_get; [exact Hrow|lia].
Qed.

Lemma stripeSum_finite (S : list (list num)) (W : num) (r0 : nat) (z : Z) :
  finiteMatrix S -> finite (Sections.stripeSum S W r0 (ofZ z)).
Proof.
  intros HS. unfold Sections.stripeSum. apply Finiteness.fold_finite; [|reflexivity].
  intros s k Hs _. apply Finiteness.finite_add; [exact Hs|].
  unfold ofNat. rewrite ofZ_add. apply safeCell_finite. exact HS.
Qed.

Lemma forwardStep_finite (S : list (list num)) (N : nat) (W : num) (i : nat)
      (st : num * Z) (z : Z) :
  finiteMatrix S -> finite W -> truthy W = true ->
  finite (fst st) -> (0 <= snd st)%Z ->
  finite (fst (Sections.forwardStep S N W i st (ofZ z))) /\
  (0 <= snd (Sections.forwardStep S N W i st (ofZ z)))%Z.
Proof.
  intros HS HW HT Hs Hc. unfold Sections.forwardStep.
  destruct (ofNat i + ofZ z + W >? ofNat N)%num; [split; assumption|].
  cbn [fst snd]. split; [|lia].
  apply Finiteness.finite_add; [exact Hs|].
  apply Finiteness.finite_div; [|exact HW|exact HT].
  unfold ofNat. rewrite ofZ_add. apply stripeSum_finite. exact HS.
Qed.

Lemma backwardStep_finite (S : list (list num)) (N : nat) (W : num) (i : nat)
      (st : num * Z) (z : Z) :
  finiteMatrix S -> finite W -> truthy W = true ->
  finite (fst st) -> (0 <= snd st)%Z ->
  finite (fst (Sections.backwardStep S N W i st (ofZ z))) /\
  (0 <= snd (Sections.backwardStep S N W i st (ofZ z)))%Z.
Proof.
  intros HS HW HT Hs Hc. unfold Sections.backwardStep.
  destruct ((ofNat i - ofZ z <? zero)%num || (ofNat i - ofZ z + W >? ofNat N)%num);
    [split; assumption|].
  cbn [fst snd]. split; [|lia].
  apply Finiteness.finite_add; [exact Hs|].
  apply Finiteness.finite_div; [|exact HW|exact HT].
  unfold ofNat. rewrite ofZ_sub. apply stripeSum_finite. exact HS.
Qed.

Lemma lag_fold_finite (step : num * Z -> num -> num * Z) (zs : list Z) :
  (forall st z, finite (fst st) -> (0 <= snd st)%Z ->
                finite (fst (step st (ofZ z))) /\ (0 <= snd (step st (ofZ z)))%Z) ->
  forall st, finite (fst st) -> (0 <= snd st)%Z ->
             finite (fst (fold_left step (map ofZ zs) st)) /\
             (0 <= snd (fold_left step (map ofZ zs) st))%Z.
Proof.
  intros Hstep. induction zs as [|z zs IH]; intros st H1 H2; cbn [map fold_left].
  - split; assumption.
  - destruct (Hstep st z H1 H2) as [H3 H4]. apply IH; assumption.
Qed.

Lemma rawScore_finite (S : list (list num)) (N : nat) (W : num) (zs : list Z)
      (bidir : bool) (i : nat) :
  finiteMatrix S -> finite W -> truthy W = true ->
  finite (Sections.rawScore S N W (map ofZ zs) bidir i).
Proof.
  intros HS HW HT. unfold Sections.rawScore, Sections.frameAccum.
  assert (F1 : finite (fst (fold_left (Sections.forwardStep S N W i) (map ofZ zs) (zero, 0%Z)))
               /\ (0 <= snd (fold_left (Sections.forwardStep S N W i) (map ofZ zs) (zero, 0%Z)))%Z).
  { apply lag_fold_finite; [|reflexivity|cbn [snd]; lia].
    intros st z. apply forwardStep_finite; assumption. }
  set (st1 := fold_left (Sections.forwardStep S N W i) (map ofZ zs) (zero, 0%Z)) in *.
  assert (F2 : finite (fst (fold_left (Sections.backwardStep S N W i) (map ofZ zs) st1))
               /\ (0 <= snd (fold_left (Sections.backwardStep S N W i) (map ofZ zs) st1))%Z).
  { apply lag_fold_finite; [|apply F1|apply F1].
    intros st z. apply backwardStep_finite; assumption. }
  assert (G : forall st : num * Z, finite (fst st) -> (0 <= snd st)%Z ->
              finite (let '(sum, count) := st in
                      if (count =? 0)%Z then zero else (sum / ofZ count)%num)).
  { intros [sum count] H1 H2. cbn [fst snd] in *.
    destruct (Z.eqb_spec count 0); [reflexivity|].
    apply Finiteness.finite_div; [exact H1|reflexivity|apply truthy_ofZ; assumption]. }
  destruct bidir; apply G; (apply F1 || apply F2).
Qed.

(** The window of [repetitionScore], [max(1, min(w, N))], is finite and
    at least 1 unless [w] is NaN. *)
Lemma windowFrames_finite (w : num) (N : nat) :
  w <> NaN -> finite (Sections.windowFrames w N) /\ truthy (Sections.windowFrames w N) = true.
Proof.
  intros Hw. unfold Sections.windowFrames.
  assert (E : exists q, nmin w (ofNat N) = Fin q \/ nmin w (ofNat N) = NegInf).
  { unfold nmin, ofNat, ofZ. destruct w as [| |q|]; [contradiction| | |].
    - exists (Q2Qc 0). right. reflexivity.
    - cbv iota. destruct (nlt _ _); eexists; left; reflexivity.
    - eexists. left. reflexivity. }
  destruct E as (q & [E|E]); rewrite E.
  - unfold nmax, one, ofZ. cbv iota. cbn [nlt].
    destruct (qltb (Q2Qc (inject_Z 1)) q) eqn:El.
    + split; [reflexivity|]. apply truthy_fin. intros ->.
      apply qltb_lt in El. revert El. apply Qcle_not_lt. unfold Qcle, Qle. simpl. lia.
    + split; reflexivity.
  - split; reflexivity.
Qed.

Lemma repetitionScore_returns (S : list (list num)) (w : num)
      (opts : Sections.Opts) :
  finiteMatrix S -> w <> NaN ->
  let frameSec := nullish (Sections.o_frameSec opts) (ofQ (464 # 10000)) in
  finite frameSec -> truthy frameSec = true ->
  finite (nullish (Sections.o_minLagSec opts) (ofZ 6)) ->
  finite (nullish (Sections.o_maxLagSec opts) (ofZ 45)) ->
  finite (nullish (Sections.o_lagStepSec opts) (ofQ (25 # 100))) ->
  exists R, Sections.repetitionScore S w opts = Some R /\
            length R = length S /\ allBetween zero one R.
Proof.
  intros HS Hw frameSec Hf Ht H1 H2 H3.
  destruct (@lagsOf_returns opts Hf Ht H1 H2 H3) as (zs & El & _ & _).
  unfold Sections.repetitionScore, Sections.repetitionRaw.
  destruct (length S) as [|n] eqn:EL.
  - cbn [bind]. exists []. split; [reflexivity|]. split; [reflexivity|constructor].
  - rewrite El. cbn [bind].
    eexists. split; [reflexivity|].
    change (Sections.normalize01 ?x) with (Energy.normalize x).
    split.
    + rewrite HookScan.length_normalize, length_map, length_seq. reflexivity.
    + apply Scaling.normalize_between. apply Finiteness.allFinite_map_seq.
      intros i _. destruct (@windowFrames_finite w (Datatypes.S n) Hw) as [W1 W2].
      apply rawScore_finite; assumption.
Qed.

(** X12.  On a finite similarity matrix, and with a frame step that is
    finite and not zero, [repetitionScore] returns: the lag loop ends,
    and the series has one value per frame, each in [0, 1]. *)
Theorem repetitionScore_in_unit_interval (S : list (list num)) (w : num)
        (opts : Sections.Opts) :
  finiteMatrix S -> w <> NaN ->
  let frameSec := nullish (Sections.o_frameSec opts) (ofQ (464 # 10000)) in
  finite frameSec -> truthy frameSec = true ->
  finite (nullish (Sections.o_minLagSec opts) (ofZ 6)) ->
  finite (nullish (Sections.o_maxLagSec opts) (ofZ 45)) ->
  finite (nullish (Sections.o_lagStepSec opts) (ofQ (25 # 100))) ->
  exists R, Sections.repetitionScore S w opts = Some R /\
            length R = length S /\ allBetween zero one R.
Proof. apply repetitionScore_returns. Qed.

Lemma repetitionScore_in_unit_interval_witness :
  exists R, Sections.repetitionScore ones10 (ofZ 3) lags67 = Some R /\
            length R = length ones10 /\ allBetween zero one R.
Proof.
  apply (@repetitionScore_in_unit_interval ones10 (ofZ 3) lags67);
    try reflexivity; try discriminate.
  repeat constructor.
Defined.

End RepetitionRange.

(** ** The stored prefix sums

    The prefix sums of values that are not negative do not decrease:
    rounding is monotone, and a sum that is stored is not rounded again. *)

Module PrefixSums.

Import Spec NumFacts Bounds Steps Order.
Local Open Scope nat_scope.

Lemma prefixFrom_nondecreasing (qs : list Qc) :
  (forall q, In q qs -> (Q2Qc 0 <= q)%Qc) ->
  forall a : Qc,
    fround (Fin a) = Fin a ->
    forall i j, i <= j -> j <= length qs ->
      exists p q : Qc,
        get (Fin a :: Energy.prefixFrom (Fin a) (map Fin qs)) i = Fin p /\
        get (Fin a :: Energy.prefixFrom (Fin a) (map Fin qs)) j = Fin q /\
        (a <= p)%Qc /\ (p <= q)%Qc.
Proof.
  induction qs as [|x qs IH]; intros Hq a Ha i j Hij Hj; cbn [length] in Hj.
  - assert (j = 0) by lia. assert (i = 0) by lia. subst i j.
    exists a, a. repeat split; try reflexivity; apply Qcle_refl.
  - cbn [map Energy.prefixFrom]. change (Fin a + Fin x)%num with (Fin (a + x)%Qc).
    set (a' := roundQc 24 149 (a + x)%Qc).
    change (fround (Fin (a + x)%Qc)) with (Fin a').
    assert (Ha' : fround (Fin a') = Fin a').
    { apply (Rounding.fround_idem (Fin (a + x)%Qc)). }
    assert (Hle : (a <= a')%Qc).
    { assert (Hx : (a <= a + x)%Qc).
      { pose proof (Hq x (or_introl eq_refl)) as H0. qc2q. lra. }
      apply Rounding.fround_le in Hx. apply fin_inj in Ha. rewrite Ha in Hx. exact Hx. }
    assert (Hq' : forall q, In q qs -> (Q2Qc 0 <= q)%Qc).
    { intros q Hin. apply Hq. right. exact Hin. }
    destruct j as [|j].
    + assert (i = 0) by lia. subst i. exists a, a.
      repeat split; try reflexivity; apply Qcle_refl.
    + destruct i as [|i].
      * destruct (IH Hq' a' Ha' 0 j ltac:(lia) ltac:(lia)) as (p & q & Ep & Eq & H1 & H2).
        exists a, q. split; [reflexivity|]. split; [exact Eq|].
        split; [apply Qcle_refl|].
        eapply Qcle_trans; [exact Hle|]. eapply Qcle_trans; eassumption.
      * destruct (IH Hq' a' Ha' i j ltac:(lia) ltac:(lia)) as (p & q & Ep & Eq & H1 & H2).
        exists p, q. split; [exact Ep|]. split; [exact Eq|].
        split; [eapply Qcle_trans; eassumption|exact H2].
Qed.

(** The difference of two stored prefix sums, over the window length. *)
Lemma window_value_nonneg (qs : list Qc) (w i : nat) :
  (forall q, In q qs -> (Q2Qc 0 <= q)%Qc) -> 1 <= w -> i + w <= length qs ->
  exists v : Qc,
    Sections.chorusValue (Energy.prefixSums (map Fin qs)) (ofNat w) i = Fin v /\
    (Q2Qc 0 <= v)%Qc.
Proof.
  intros Hq Hw Hi. unfold Sections.chorusValue, Energy.prefixSums.
  rewrite WindowScan.ofNat_add, WindowScan.getAt_ofNat.
  destruct (@prefixFrom_nondecreasing qs Hq (Q2Qc 0) Rounding.fround_zero i (i + w)
              ltac:(lia) Hi) as (p & q & Ep & Eq & _ & Hpq).
  change zero with (Fin (Q2Qc 0)). rewrite Ep, Eq.
  assert (Hne : Q2Qc (inject_Z (Z.of_nat w)) <> Q2Qc 0).
  { intros E. apply Q2Qc_eq_iff in E. unfold Qeq in E. simpl in E. lia. }
  unfold nsub. cbn [nneg nadd]. unfold round64 at 2. cbn [round].
  unfold ofNat, ofZ. rewrite ndiv_fin by exact Hne.
  eexists. split; [reflexivity|].
  apply Rounding.round64_nonneg.
  apply Finiteness.qc_div_nonneg; [|apply Finiteness.ofNat_nonneg].
  apply Rounding.round64_nonneg. qc2q. lra.
Qed.

Lemma nonneg_fin (q : Qc) : (Q2Qc 0 <= q)%Qc -> nonneg (Fin q) = true.
Proof. intros H. unfold nonneg. cbn [isFinite andb]. apply nle_fin. exact H. Qed.

Lemma nonneg_map (l : list num) :
  Forall (fun x => nonneg x = true) l ->
  exists qs, l = map Fin qs /\ forall q, In q qs -> (Q2Qc 0 <= q)%Qc.
Proof.
  induction 1 as [|x l Hx _ (qs & -> & Hq)].
  - exists []. split; [reflexivity|]. intros q [].
  - unfold nonneg in Hx. apply andb_true_iff in Hx. destruct Hx as [H1 H2].
    destruct x as [| |q|]; try discriminate. apply nle_fin in H2.
    exists (q :: qs). split; [reflexivity|].
    intros y [<-|Hy]; [exact H2|apply Hq; exact Hy].
Qed.

End PrefixSums.

(** ** The chorus hook *)

Module ChorusHookFacts.

Import Spec NumFacts Bounds Steps Order.
Local Open Scope nat_scope.

Local Abbreviation finite x := (isFinite x = true).

(** *** The similarity matrix is finite *)

Section WithMath.
Context {M : MathLib}.
Hypothesis sqrt_ok : forall q, (Q2Qc 0 <= q)%Qc -> finite (Math_sqrt (Fin q)).

Lemma dotp_finite (a b : list num) (n : nat) :
  allFinite a -> allFinite b -> n <= length a -> n <= length b ->
  finite (dotp a b n).
Proof.
  intros Ha Hb La Lb. unfold dotp. apply Finiteness.fold_finite; [|reflexivity].
  intros s i Hs Hi. apply in_seq in Hi.
  apply Finiteness.finite_add; [exact Hs|].
  apply Finiteness.finite_mul; apply Finiteness.allFinite_get; try assumption; lia.
Qed.

Lemma dotp_self_nonneg (a : list num) (n : nat) :
  allFinite a -> n <= length a ->
  exists q, dotp a a n = Fin q /\ (Q2Qc 0 <= q)%Qc.
Proof.
  intros Ha La. unfold dotp.
  assert (G : forall l s, (forall i, In i l -> i < length a) -> (Q2Qc 0 <= s)%Qc ->
              exists q, fold_left (fun s i => (s + get a i * get a i)%num) l (Fin s) = Fin q
                        /\ (Q2Qc 0 <= q)%Qc).
  { induction l as [|i l IH]; intros s Hl Hs; cbn [fold_left].
    - exists s. split; [reflexivity|exact Hs].
    - pose proof (@Finiteness.allFinite_get a i Ha (Hl i (or_introl eq_refl))) as Hi.
      destruct (Finiteness.finite_inv _ Hi) as [x ->]. cbn [nmul nadd].
      apply IH; [intros j Hj; apply Hl; right; exact Hj|].
      apply Finiteness.qc_add_nonneg; [exact Hs|apply Finiteness.qc_sq_nonneg]. }
  apply (G (seq 0 n) (Q2Qc 0)); [|apply Qcle_refl].
  intros i Hi. apply in_seq in Hi. lia.
Qed.

Lemma cos_finite_vec (a b : list num) :
  allFinite a -> allFinite b -> length a <= length b -> finite (Sections.cos a b).
Proof.
  intros Ha Hb L. rewrite Similarity.cos_dotp.
  apply Finiteness.finite_div.
  - apply dotp_finite; try assumption. lia.
  - unfold orElse.
    destruct (truthy (Math_sqrt (dotp a a (length a)) * Math_sqrt (dotp b b (length a)))%num);
      [|reflexivity].
    destruct (@dotp_self_nonneg a (length a) Ha (Nat.le_refl _)) as (qa & -> & Hqa).
    destruct (@dotp_self_nonneg b (length a) Hb L) as (qb & -> & Hqb).
    apply Finiteness.finite_mul; apply sqrt_ok; assumption.
  - apply Similarity.truthy_orElse_one.
Qed.

Lemma selfSimilarity_finite (C : list (list num)) (n : nat) :
  Forall (fun c => allFinite c /\ length c = n) C ->
  finiteMatrix (Sections.selfSimilarity C) /\
  length (Sections.selfSimilarity C) = length C.
Proof.
  intros HC. unfold Sections.selfSimilarity. split; [|apply length_map].
  unfold finiteMatrix. apply Forall_map, Forall_forall. intros ci Hi.
  unfold allFinite. apply Forall_map, Forall_forall. intros cj Hj.
  rewrite Forall_forall in HC.
  destruct (HC ci Hi) as [Fi Li], (HC cj Hj) as [Fj Lj].
  rewrite Rounding.fround_finite. apply cos_finite_vec; try assumption. lia.
Qed.

End WithMath.

(** *** The scan with its running range, as a fold *)

Lemma chorusScan_fold (cond : nat -> bool) (value : nat -> num) (n : nat) :
  forall fuel i (st : num * nat * num * num),
    n < fuel ->
    (forall j, i <= j < i + n -> cond j = true) ->
    cond (i + n) = false ->
    Sections.chorusScan fuel cond value i st = fold_left (chorusStep value) (seq i n) st.
Proof.
  induction n as [|n IH]; intros fuel i [[[b bi] mn] mx] Hf Ht Hfalse;
    (destruct fuel as [|fuel]; [lia|]); cbn [Sections.chorusScan seq fold_left].
  - rewrite Nat.add_0_r in Hfalse. rewrite Hfalse. reflexivity.
  - rewrite (Ht i) by lia. unfold chorusStep at 2.
    destruct (value i >? b)%num; apply IH; try lia;
      try (intros j Hj; apply Ht; lia);
      try (rewrite <- Hfalse; f_equal; lia).
Qed.

Lemma chorusStep_eq (value : nat -> num) (best : num) (bi : nat) (mn mx : num) (i : nat) :
  chorusStep value (best, bi, mn, mx) i
  = (if (value i >? best)%num then value i else best,
     if (value i >? best)%num then i else bi,
     if (value i <? mn)%num then value i else mn,
     if (value i >? mx)%num then value i else mx).
Proof. unfold chorusStep. destruct (value i >? best)%num; reflexivity. Qed.

(** The best value and the running maximum move together; the running
    range is that of the values seen. *)
Lemma chorusStep_fold (value : nat -> num) (l : list nat) :
  forall best bi mn mx,
    let r := fold_left (chorusStep value) l (best, bi, mn, mx) in
    (best = mx -> fst (fst (fst r)) = snd r) /\
    (snd (fst r), snd r) = fold_left mmStep (map value l) (mn, mx).
Proof.
  induction l as [|i l IH]; intros best bi mn mx; cbn [fold_left map].
  - cbn [fst snd]. split; [intros H; exact H|reflexivity].
  - rewrite chorusStep_eq. cbv zeta.
    destruct (IH (if (value i >? best)%num then value i else best)
                 (if (value i >? best)%num then i else bi)
                 (if (value i <? mn)%num then value i else mn)
                 (if (value i >? mx)%num then value i else mx)) as [I1 I2].
    split; [|exact I2]. intros Hb. apply I1. rewrite Hb. reflexivity.
Qed.

Lemma finite_nmin (a b : num) : finite a -> finite b -> finite (nmin a b).
Proof.
  intros Ha Hb. destruct (Finiteness.finite_inv _ Ha) as [x ->].
  destruct (Finiteness.finite_inv _ Hb) as [y ->]. unfold nmin.
  destruct (nlt (Fin y) (Fin x)); reflexivity.
Qed.

Lemma allBetween_map (lo hi : Qc) (l : list num) :
  allBetween (Fin lo) (Fin hi) l ->
  exists qs, l = map Fin qs /\ forall q, In q qs -> (lo <= q <= hi)%Qc.
Proof.
  induction 1 as [|x l Hx _ (qs & -> & Hq)].
  - exists []. split; [reflexivity|]. intros q [].
  - apply between_fin in Hx. destruct Hx as (q & -> & Hb).
    exists (q :: qs). split; [reflexivity|].
    intros y [<-|Hy]; [exact Hb|apply Hq; exact Hy].
Qed.

(** The window of the hook, in frames: [max(1, min(max(8, floor(windowSec
    / frameSec)), L))] is a whole number between 1 and [L]. *)
Lemma hook_window (windowSec frameSec : num) (L : nat) :
  finite windowSec -> finite frameSec -> truthy frameSec = true -> 1 <= L ->
  exists (z : Z) (w : nat),
    nmax (ofZ 8) (nfloor (windowSec / frameSec)%num) = ofZ z /\
    nmax one (nmin (ofZ z) (ofNat L)) = ofNat w /\ 1 <= w <= L.
Proof.
  intros Hw Hf Ht HL.
  destruct (Finiteness.finite_inv _ (@Finiteness.finite_div _ _ Hw Hf Ht)) as [q ->].
  change (nfloor (Fin q)) with (ofZ (Qfloor q)). rewrite RepetitionRange.nmax_ofZ.
  exists (Z.max 8 (Qfloor q)), (Z.to_nat (Z.max 1 (Z.min (Z.max 8 (Qfloor q)) (Z.of_nat L)))).
  split; [reflexivity|]. split; [|lia].
  unfold ofNat, one. rewrite RepetitionRange.nmin_ofZ, RepetitionRange.nmax_ofZ.
  rewrite Z2Nat.id by lia. reflexivity.
Qed.

Lemma in_firstn {A : Type} (n : nat) (l : list A) (x : A) : In x (firstn n l) -> In x l.
Proof. intros H. rewrite <- (firstn_skipn n l). apply in_or_app. left. exact H. Qed.

Lemma in_skipn {A : Type} (n : nat) (l : list A) (x : A) : In x (skipn n l) -> In x l.
Proof. intros H. rewrite <- (firstn_skipn n l). apply in_or_app. right. exact H. Qed.

Section Hook.
Context {M : MathLib}.
Hypothesis sqrt_ok : forall q, (Q2Qc 0 <= q)%Qc -> finite (Math_sqrt (Fin q)).

(** What [findChorusHook] returns, from the chroma sequence on. *)
Lemma chorusHookOf_shape (C : list (list num)) (n : nat) (frameSec windowSec : num) :
  C <> [] ->
  Forall (fun c => allFinite c /\ length c = n) C ->
  finite frameSec -> truthy frameSec = true -> finite windowSec ->
  exists (h : Sections.ChorusHook) (k w : nat) (qs : list Qc) (mn mx : Qc),
    Sections.chorusHookOf C frameSec windowSec = Some h /\
    Sections.repetition h = map Fin qs /\ length qs = length C /\
    (forall q, In q qs -> (Q2Qc 0 <= q <= Q2Qc 1)%Qc) /\
    nmax one (nmin (nmax (ofZ 8) (nfloor (windowSec / frameSec)%num)) (ofNat (length C)))
    = ofNat w /\
    (1 <= w /\ k + w <= length C) /\
    Sections.startSec h = (ofNat k * frameSec)%num /\
    Sections.frameSec h = frameSec /\
    Sections.score h
    = Sections.chorusValue (Energy.prefixSums (map Fin qs)) (ofNat w) k /\
    Sections.score h = Sections.scoreMax h /\
    Sections.scoreMin h = Fin mn /\ Sections.scoreMax h = Fin mx /\
    (Q2Qc 0 <= mn /\ mn <= mx)%Qc.
Proof.
  intros HC Hrows Hf Ht Hw.
  destruct (@selfSimilarity_finite M sqrt_ok C n Hrows) as [HS LS].
  assert (HL : 1 <= length C) by (destruct C; [contradiction|simpl; lia]).
  destruct (@hook_window windowSec frameSec (length C) Hw Hf Ht HL) as (z & w & Ez & EW & Hw1).
  unfold Sections.chorusHookOf. destruct C as [|c C']; [contradiction|].
  set (CC := c :: C') in *. rewrite Ez.
  destruct (@RepetitionRange.repetitionScore_returns (Sections.selfSimilarity CC) (ofZ z)
              {| Sections.o_frameSec := Some frameSec;
                 Sections.o_minLagSec := Some (ofZ 6);
                 Sections.o_maxLagSec :=
                   Some (nmin (ofZ 60) (nmax (ofZ 30) (ofZ 3 * windowSec)%num));
                 Sections.o_lagStepSec := Some (ofQ (25 # 100));
                 Sections.o_bidirectional := Some true |})
    as (Rraw & ER & LR & BR); try assumption; try reflexivity; try discriminate.
  { cbn [nullish Sections.o_maxLagSec]. apply finite_nmin; [reflexivity|].
    apply Finiteness.finite_nmax; [reflexivity|].
    apply Finiteness.finite_mul; [reflexivity|exact Hw]. }
  rewrite ER. cbn [bind].
  destruct (@Averages.smooth1D_between (Q2Qc 0) (Q2Qc 1) Rraw 5 BR) as [LR' BR'].
  destruct (@allBetween_map _ _ _ BR') as (qs & EQ & Hq).
  assert (Lq : length qs = length CC).
  { rewrite <- (length_map Fin), <- EQ, LR', LR, LS. reflexivity. }
  assert (Hq0 : forall q, In q qs -> (Q2Qc 0 <= q)%Qc).
  { intros q Hin. apply (Hq q Hin). }
  rewrite EQ. rewrite length_map, Lq, EW.
  set (value := Sections.chorusValue (Energy.prefixSums (map Fin qs)) (ofNat w)).
  set (nn := length CC + 1 - w).
  assert (Hv0 : forall j, j < nn -> nonneg (value j) = true).
  { intros j Hj.
    destruct (@PrefixSums.window_value_nonneg qs w j Hq0) as (v & Ev & Hv);
      [lia|unfold nn in Hj; lia|].
    unfold value. rewrite Ev. apply PrefixSums.nonneg_fin. exact Hv. }
  assert (Hfin : forall j, j < nn -> finite (value j)).
  { intros j Hj. specialize (Hv0 j Hj). unfold nonneg in Hv0.
    apply andb_true_iff in Hv0. apply Hv0. }
  set (cond := fun i => (ofNat i + ofNat w <=? ofNat (length CC))%num).
  assert (C1 : nn < S (length CC)) by (unfold nn; lia).
  assert (C2 : forall j, 0 <= j < 0 + nn -> cond j = true).
  { intros j Hj. unfold cond. rewrite WindowScan.ofNat_add, WindowScan.nle_ofNat.
    apply Nat.leb_le. unfold nn in Hj. lia. }
  assert (C3 : cond (0 + nn) = false).
  { unfold cond. rewrite WindowScan.ofNat_add, WindowScan.nle_ofNat.
    apply Nat.leb_gt. unfold nn. lia. }
  pose proof (@WindowScan.chorusScan_windowScan cond value (S (length CC)) 0
                NegInf 0 PosInf NegInf) as TB.
  pose proof (@WindowScan.windowScan_fold cond value nn (S (length CC)) 0 (NegInf, 0)
                C1 C2 C3) as WS.
  cbn [fst snd] in WS. rewrite WS in TB. clear WS.
  rewrite (@chorusScan_fold cond value nn (S (length CC)) 0 _ C1 C2 C3) in TB |- *.
  fold (bruteForce value (seq 0 nn)) in TB.
  destruct (@chorusStep_fold value (seq 0 nn) NegInf 0 PosInf NegInf) as [T1 T2].
  specialize (T1 eq_refl).
  assert (Hnn : 0 < nn) by (unfold nn; lia).
  destruct (@WindowScan.bruteForce_earliest_max value nn Hfin Hnn) as (Hk & Hbest & _ & _).
  (* the running range *)
  assert (BV : Forall (fun x => nonneg x = true) (map value (seq 0 nn))).
  { apply Forall_map, Forall_forall. intros i Hi. apply in_seq in Hi. apply Hv0. lia. }
  destruct (PrefixSums.nonneg_map BV) as (vs & EVS & Hvs).
  destruct vs as [|v0 vs].
  { exfalso. apply (f_equal (@length num)) in EVS.
    rewrite length_map, length_seq in EVS. simpl in EVS. lia. }
  destruct (minMax_spec v0 vs) as (mn & mx & EMM & Hrange & Hmn & Hmx).
  rewrite EVS, EMM in T2.
  destruct (fold_left (chorusStep value) (seq 0 nn) (NegInf, 0, PosInf, NegInf))
    as [[[best bestIdx] smn] smx] eqn:EF.
  cbn [fst snd] in T1, T2, TB. injection T2 as -> ->. subst best.
  cbn [isFinite negb].
  exists {| Sections.startSec := (ofNat bestIdx * frameSec)%num;
            Sections.score := Fin mx;
            Sections.scoreMin := Fin mn;
            Sections.scoreMax := Fin mx;
            Sections.frameSec := frameSec;
            Sections.repetition := map Fin qs |}, bestIdx, w, qs, mn, mx.
  cbn [Sections.startSec Sections.score Sections.scoreMin Sections.scoreMax
       Sections.frameSec Sections.repetition].
  assert (Ebi : bestIdx = snd (bruteForce value (seq 0 nn))) by (rewrite <- TB; reflexivity).
  assert (Ebv : Fin mx = fst (bruteForce value (seq 0 nn))) by (rewrite <- TB; reflexivity).
  rewrite <- Ebi in Hk, Hbest. rewrite <- Ebv in Hbest.
  split; [reflexivity|]. split; [reflexivity|]. split; [exact Lq|]. split; [exact Hq|].
  split; [reflexivity|].
  split; [split; [lia|unfold nn in Hk; lia]|].
  split; [reflexivity|]. split; [reflexivity|]. split; [exact Hbest|].
  split; [reflexivity|]. split; [reflexivity|]. split; [reflexivity|].
  split; [apply (Hvs mn Hmn)|apply (Hrange mn Hmn)].
Qed.

End Hook.

Lemma allBetween_of_map (lo hi : Qc) (qs : list Qc) :
  (forall q, In q qs -> (lo <= q <= hi)%Qc) -> allBetween (Fin lo) (Fin hi) (map Fin qs).
Proof.
  intros H. unfold allBetween. apply Forall_map, Forall_forall. intros q Hq.
  apply between_fin. exists q. split; [reflexivity|apply H; exact Hq].
Qed.

(** X13.  From the chroma sequence on, and with a square root that is
    finite on what is not negative: on a non-empty sequence of finite
    chroma vectors of one length, a frame step that is finite and not
    zero and a finite window, [findChorusHook] returns a hook whose
    repetition series has one value in [0, 1] per frame, whose score is
    finite and not negative, and whose window of [w] frames, starting at
    frame [k], lies inside the series. *)
Theorem chorus_hook_is_well_formed {M : MathLib}
        (C : list (list num)) (n : nat) (frameSec windowSec : num) :
  (forall q, (Q2Qc 0 <= q)%Qc -> finite (Math_sqrt (Fin q))) ->
  C <> [] ->
  Forall (fun c => allFinite c /\ length c = n) C ->
  finite frameSec -> truthy frameSec = true -> finite windowSec ->
  exists (h : Sections.ChorusHook) (k w : nat),
    Sections.chorusHookOf C frameSec windowSec = Some h /\
    length (Sections.repetition h) = length C /\
    allBetween zero one (Sections.repetition h) /\
    nonneg (Sections.score h) = true /\
    nmax one (nmin (nmax (ofZ 8) (nfloor (windowSec / frameSec)%num)) (ofNat (length C)))
    = ofNat w /\
    1 <= w /\ k + w <= length C /\
    Sections.startSec h = (ofNat k * frameSec)%num /\
    Sections.frameSec h = frameSec.
Proof.
  intros Hs HC Hrows Hf Ht Hw.
  destruct (@chorusHookOf_shape M Hs C n frameSec windowSec HC Hrows Hf Ht Hw)
    as (h & k & w & qs & mn & mx & E & ER & Lq & Hq & EW & [W1 W2] & Es & Ef & Esc & _).
  exists h, k, w. split; [exact E|]. rewrite ER, length_map.
  split; [exact Lq|]. split; [apply (@allBetween_of_map (Q2Qc 0) (Q2Qc 1)); exact Hq|].
  split.
  { rewrite Esc.
    destruct (@PrefixSums.window_value_nonneg qs w k) as (v & -> & Hv);
      [intros q Hin; apply (Hq q Hin)|exact W1|lia|].
    apply PrefixSums.nonneg_fin. exact Hv. }
  split; [exact EW|]. split; [exact W1|]. split; [exact W2|]. split; assumption.
Qed.

Lemma chorus_hook_is_well_formed_witness :
  exists (h : Sections.ChorusHook) (k w : nat),
    Sections.chorusHookOf (M := Runtime.math) repeatedPattern one (ofZ 8) = Some h /\
    length (Sections.repetition h) = length repeatedPattern /\
    allBetween zero one (Sections.repetition h) /\
    nonneg (Sections.score h) = true /\
    nmax one (nmin (nmax (ofZ 8) (nfloor (ofZ 8 / one)%num)) (ofNat (length repeatedPattern)))
    = ofNat w /\
    1 <= w /\ k + w <= length repeatedPattern /\
    Sections.startSec h = (ofNat k * one)%num /\
    Sections.frameSec h = one.
Proof.
  apply (@chorus_hook_is_well_formed Runtime.math repeatedPattern 12 one (ofZ 8)).
  - apply (sqrt_finite RuntimeFacts.runtime_contract).
  - discriminate.
  - repeat constructor.
  - reflexivity.
  - reflexivity.
  - reflexivity.
Defined.

(** [norm(s, lo, hi)] at [s = hi]: 0 when the range is empty, 1
    otherwise. *)
Lemma norm_at_top (mn mx : Qc) :
  Index.norm (Fin mx) (Fin mn) (Fin mx) = if qeqb mn mx then zero else one.
Proof.
  unfold Index.norm. destruct (qeqb mn mx) eqn:Eq.
  - apply qeqb_eq in Eq. subst mx. rewrite Selector.nsub_self.
    apply Similarity.ndiv_zero_truthy, Similarity.truthy_orElse_one.
  - assert (Hne : (mx + - mn)%Qc <> Q2Qc 0).
    { intros H. assert (mn = mx); [|subst mx; rewrite (proj2 (qeqb_eq mn mn) eq_refl) in Eq;
                                     discriminate].
      apply qc_eq. apply (f_equal this) in H.
      assert (H' : (this (mx + - mn)%Qc == this (Q2Qc 0))%Q) by (rewrite H; reflexivity).
      clear H. qc2q. lra. }
    unfold nsub. cbn [nneg nadd]. unfold orElse.
    rewrite (proj2 (truthy_fin _) Hne).
    apply Similarity.ndiv_self; [reflexivity|apply truthy_fin; exact Hne].
Qed.

(** X14.  Under the same conditions the score of the chorus hook is the
    greatest window mean the scan saw, so it is its own [scoreMax]: the
    score the selector normalizes by that range is 1, or 0 when all the
    window means are equal. *)
Theorem chorus_score_is_its_own_maximum {M : MathLib}
        (C : list (list num)) (n : nat) (frameSec windowSec : num) :
  (forall q, (Q2Qc 0 <= q)%Qc -> finite (Math_sqrt (Fin q))) ->
  C <> [] ->
  Forall (fun c => allFinite c /\ length c = n) C ->
  finite frameSec -> truthy frameSec = true -> finite windowSec ->
  exists h : Sections.ChorusHook,
    Sections.chorusHookOf C frameSec windowSec = Some h /\
    Sections.score h = Sections.scoreMax h /\
    (Sections.scoreMin h <=? Sections.scoreMax h)%num = true /\
    Index.normOf (Index.ofChorus h)
    = if neqb (Sections.scoreMin h) (Sections.scoreMax h) then zero else one.
Proof.
  intros Hs HC Hrows Hf Ht Hw.
  destruct (@chorusHookOf_shape M Hs C n frameSec windowSec HC Hrows Hf Ht Hw)
    as (h & k & w & qs & mn & mx & E & _ & _ & _ & _ & _ & _ & _ & _ & Esm & Emn & Emx
        & H0 & Hle).
  exists h. split; [exact E|]. split; [exact Esm|].
  rewrite Selector.normOf_chorus, Esm, Emn, Emx.
  split; [apply nle_fin; exact Hle|]. apply norm_at_top.
Qed.

Lemma chorus_score_is_its_own_maximum_witness :
  exists h : Sections.ChorusHook,
    Sections.chorusHookOf (M := Runtime.math) repeatedPattern one (ofZ 8) = Some h /\
    Sections.score h = Sections.scoreMax h /\
    (Sections.scoreMin h <=? Sections.scoreMax h)%num = true /\
    Index.normOf (Index.ofChorus h)
    = if neqb (Sections.scoreMin h) (Sections.scoreMax h) then zero else one.
Proof.
  apply (@chorus_score_is_its_own_maximum Runtime.math repeatedPattern 12 one (ofZ 8)).
  - apply (sqrt_finite RuntimeFacts.runtime_contract).
  - discriminate.
  - repeat constructor.
  - reflexivity.
  - reflexivity.
  - reflexivity.
Defined.

(** X15.  In the [auto] branch, against an energy hook with a finite
    score, such a chorus hook wins exactly when its window means are not
    all equal, and the [normScore] that is printed is then 1; otherwise
    energy is chosen with [normScore] 0.  The scores themselves play no
    part. *)
Theorem auto_mode_decision {M : MathLib} (a : Energy.Hook)
        (C : list (list num)) (n : nat) (frameSec windowSec : num) :
  (forall q, (Q2Qc 0 <= q)%Qc -> finite (Math_sqrt (Fin q))) ->
  C <> [] ->
  Forall (fun c => allFinite c /\ length c = n) C ->
  finite frameSec -> truthy frameSec = true -> finite windowSec ->
  finite (Energy.score a) ->
  exists h : Sections.ChorusHook,
    Sections.chorusHookOf C frameSec windowSec = Some h /\
    let chosen := Index.selectAuto (Index.ofEnergy a) (Some (Index.ofChorus h)) in
    if neqb (Sections.scoreMin h) (Sections.scoreMax h)
    then Index.method chosen = Index.energy /\ Index.normScore chosen = Some zero
    else Index.method chosen = Index.chorus /\ Index.normScore chosen = Some one.
Proof.
  intros Hs HC Hrows Hf Ht Hw Ha.
  destruct (@chorusHookOf_shape M Hs C n frameSec windowSec HC Hrows Hf Ht Hw)
    as (h & k & w & qs & mn & mx & E & _ & _ & _ & _ & _ & _ & _ & _ & Esm & Emn & Emx
        & _).
  exists h. split; [exact E|]. cbv zeta. unfold Index.selectAuto.
  rewrite Selector.normOf_chorus, Esm, Emn, Emx. fold (Index.norm (Fin mx) (Fin mn) (Fin mx)).
  rewrite norm_at_top. cbn [neqb].
  rewrite (Selector.normOf_energy a Ha).
  unfold Index.bias, ofQ. rewrite Selector.zero_mul_fin.
  destruct (qeqb mn mx).
  - change (zero >? zero)%num with false. cbv iota. split; reflexivity.
  - change (one >? zero)%num with true. cbv iota. split; reflexivity.
Qed.

Lemma auto_mode_decision_witness :
  let a := Energy.bestHookOf sixFrames one (ofZ 2) (Energy.genrePresets Energy.hiphop) in
  exists h : Sections.ChorusHook,
    Sections.chorusHookOf (M := Runtime.math) repeatedPattern one (ofZ 8) = Some h /\
    let chosen := Index.selectAuto (Index.ofEnergy a) (Some (Index.ofChorus h)) in
    if neqb (Sections.scoreMin h) (Sections.scoreMax h)
    then Index.method chosen = Index.energy /\ Index.normScore chosen = Some zero
    else Index.method chosen = Index.chorus /\ Index.normScore chosen = Some one.
Proof.
  intros a.
  apply (@auto_mode_decision Runtime.math a repeatedPattern 12 one (ofZ 8)).
  - apply (sqrt_finite RuntimeFacts.runtime_contract).
  - discriminate.
  - repeat constructor.
  - reflexivity.
  - reflexivity.
  - reflexivity.
  - vm_compute. reflexivity.
Defined.

End ChorusHookFacts.

(** ** The energy hook *)

Module EnergyHookFacts.

Import Spec NumFacts Bounds Steps Order.
Local Open Scope nat_scope.

Local Abbreviation finite x := (isFinite x = true).

Lemma slice_window (a : list num) (k w : nat) :
  k + w <= length a ->
  slice a k (ofNat k + ofNat w)%num = firstn w (skipn k a).
Proof.
  intros H. rewrite WindowScan.ofNat_add. unfold slice, ofNat, ofZ, Q2Qc. cbn [this].
  rewrite WindowScan.Qred_inject_Z. cbn [inject_Z Qnum Qden]. rewrite Z.quot_1_r.
  destruct (Z.ltb_spec (Z.of_nat (k + w)) 0); [lia|].
  rewrite Z.min_l by lia. rewrite Nat2Z.id. f_equal. lia.
Qed.

Lemma length_window (a : list num) (k w : nat) :
  k + w <= length a -> length (firstn w (skipn k a)) = w.
Proof. intros H. rewrite length_firstn, length_skipn. lia. Qed.

Lemma allBetween_window (lo hi : num) (a : list num) (k w : nat) :
  allBetween lo hi a -> allBetween lo hi (firstn w (skipn k a)).
Proof.
  unfold allBetween. rewrite !Forall_forall. intros H x Hx. apply H.
  apply (@ChorusHookFacts.in_skipn _ k). apply (@ChorusHookFacts.in_firstn _ w). exact Hx.
Qed.

Lemma weightsOf_convex (g : option Energy.Genre) : convex (weightsOf g).
Proof.
  unfold convex. destruct g as [[| | | |]|]; cbn [weightsOf Energy.genrePresets
    Energy.defaultWeights Energy.w_energy Energy.w_centroid Energy.w_zcr Energy.w_novelty];
    unfold Energy.dec, ofQ; do 4 eexists;
    (split; [reflexivity|]); (split; [reflexivity|]); (split; [reflexivity|]);
    (split; [reflexivity|]);
    (split; [repeat split; unfold Qcle, Qle; simpl; lia|apply Qc_is_canon; reflexivity]).
Qed.

Lemma convex_combination (a b c d x y z t : Qc) :
  (Q2Qc 0 <= a /\ Q2Qc 0 <= b /\ Q2Qc 0 <= c /\ Q2Qc 0 <= d)%Qc ->
  (a + b + c + d)%Qc = Q2Qc 1 ->
  (Q2Qc 0 <= x <= Q2Qc 1)%Qc -> (Q2Qc 0 <= y <= Q2Qc 1)%Qc ->
  (Q2Qc 0 <= z <= Q2Qc 1)%Qc -> (Q2Qc 0 <= t <= Q2Qc 1)%Qc ->
  (Q2Qc 0 <= a * x + b * y + c * z + d * t <= Q2Qc 1)%Qc.
Proof.
  intros (Ha & Hb & Hc & Hd) Hsum [X0 X1] [Y0 Y1] [Z0 Z1] [T0 T1].
  assert (P : forall u v : Qc, (Q2Qc 0 <= u)%Qc -> (Q2Qc 0 <= v <= Q2Qc 1)%Qc ->
                               (Q2Qc 0 <= u * v /\ u * v <= u)%Qc).
  { intros u v Hu [V0 V1]. split; [apply FrameFacts.qc_mul_nonneg; assumption|].
    replace u with (u * Q2Qc 1)%Qc at 2 by ring.
    rewrite (Qcmult_comm u v), (Qcmult_comm u (Q2Qc 1)).
    apply Qcmult_le_compat_r; assumption. }
  destruct (P a x Ha (conj X0 X1)) as [A0 A1].
  destruct (P b y Hb (conj Y0 Y1)) as [B0 B1].
  destruct (P c z Hc (conj Z0 Z1)) as [C0 C1].
  destruct (P d t Hd (conj T0 T1)) as [D0 D1].
  split.
  - repeat apply Finiteness.qc_add_nonneg; assumption.
  - rewrite <- Hsum. repeat apply Qcplus_le_compat; assumption.
Qed.

Lemma frameScores_between (weights : Energy.Weights) (E C Z N : list num) (L : nat) :
  convex weights ->
  allBetween zero one E -> allBetween zero one C ->
  allBetween zero one Z -> allBetween zero one N ->
  length E = L -> length C = L -> length Z = L -> length N = L ->
  allBetween zero one (Energy.frameScores weights E C Z N L).
Proof.
  intros (a & b & c & d & Wa & Wb & Wc & Wd & Hpos & Hsum) HE HC HZ HN LE LC LZ LN.
  unfold Energy.frameScores, allBetween. rewrite Wa, Wb, Wc, Wd.
  apply Forall_map, Forall_forall.
  intros i Hi. apply in_seq in Hi.
  destruct (@Averages.allBetween_get (Q2Qc 0) (Q2Qc 1) E i HE) as (x & -> & Hx); [lia|].
  destruct (@Averages.allBetween_get (Q2Qc 0) (Q2Qc 1) C i HC) as (y & -> & Hy); [lia|].
  destruct (@Averages.allBetween_get (Q2Qc 0) (Q2Qc 1) Z i HZ) as (z & -> & Hz); [lia|].
  destruct (@Averages.allBetween_get (Q2Qc 0) (Q2Qc 1) N i HN) as (t & -> & Ht); [lia|].
  cbn [nmul nadd]. apply (proj2 (between_fin (Q2Qc 0) (Q2Qc 1) _)).
  eexists. split; [reflexivity|]. apply convex_combination; assumption.
Qed.

Lemma bestHookOf_frameSec (f : Energy.Features) (frameSec windowSec : num)
      (weights : Energy.Weights) :
  Energy.hookFrameSec (Energy.bestHookOf f frameSec windowSec weights) = frameSec.
Proof.
  unfold Energy.bestHookOf. destruct (Energy.windowScan _ _ _ _ _ _). reflexivity.
Qed.

(** The values of the windows that fit are not negative, when the
    per-frame scores and the novelty are in [0, 1]. *)
Lemma window_values_nonneg (scores N : list num) (w L i : nat) :
  allBetween zero one scores -> allBetween zero one N ->
  length scores = L -> length N = L -> 1 <= w -> i < L + 1 - w ->
  nonneg (Energy.windowValue (Energy.prefixSums scores) N (ofNat w) i) = true.
Proof.
  intros BS BN LS LN Hw Hi.
  destruct (@ChorusHookFacts.allBetween_map (Q2Qc 0) (Q2Qc 1) scores BS) as (qs & EQ & Hq).
  assert (Lq : length qs = L) by (rewrite <- (length_map Fin), <- EQ; exact LS).
  set (value := Energy.windowValue (Energy.prefixSums scores) N (ofNat w)).
  assert (Ev : value i
               = round64 (Sections.chorusValue (Energy.prefixSums scores) (ofNat w) i
                          + entranceBonus N i)%num).
  { unfold value, Energy.windowValue, Sections.chorusValue. destruct i; reflexivity. }
  rewrite Ev, EQ.
  destruct (@PrefixSums.window_value_nonneg qs w i) as (m & -> & M0);
    [intros q Hin; apply (Hq q Hin)|lia|lia|].
  assert (Hb : exists e, entranceBonus N i = Fin e /\ (Q2Qc 0 <= e)%Qc).
  { destruct i as [|i]; cbn [entranceBonus].
    - exists (Q2Qc 0). split; [reflexivity|]. unfold Qcle, Qle; simpl; lia.
    - destruct (@Averages.allBetween_get (Q2Qc 0) (Q2Qc 1) N i BN) as (t & -> & T0 & T1);
        [lia|].
      unfold ofQ, round64. cbn [round nmul]. eexists. split; [reflexivity|].
      apply Rounding.round64_nonneg.
      apply FrameFacts.qc_mul_nonneg; [exact T0|].
      apply Rounding.round64_nonneg. unfold Qcle, Qle; simpl; lia. }
  destruct Hb as (e & -> & E0). cbn [nadd]. unfold round64. cbn [round].
  apply PrefixSums.nonneg_fin. apply Rounding.round64_nonneg.
  apply Finiteness.qc_add_nonneg; assumption.
Qed.

(** What [findBestHook] returns once the features are known, when at
    least one window of [w] frames fits. *)
Lemma bestHookOf_shape (f : Energy.Features) (frameSec windowSec : num)
      (weights : Energy.Weights) (w : nat) :
  allFinite (Energy.energy f) -> allFinite (Energy.centroid f) ->
  allFinite (Energy.zcr f) -> allFinite (Energy.novelty f) ->
  convex weights ->
  Energy.windowFrames windowSec frameSec = ofNat w ->
  1 <= w <= Energy.commonLength f ->
  let h := Energy.bestHookOf f frameSec windowSec weights in
  let hf := Energy.hookFeatures h in
  exists k,
    k + w <= Energy.commonLength f /\
    Energy.startSec h = (ofNat k * frameSec)%num /\
    Energy.hookFrameSec h = frameSec /\
    nonneg (Energy.score h) = true /\
    (length (Energy.energy hf) = w /\ length (Energy.centroid hf) = w /\
     length (Energy.zcr hf) = w /\ length (Energy.novelty hf) = w) /\
    (allBetween zero one (Energy.energy hf) /\ allBetween zero one (Energy.centroid hf) /\
     allBetween zero one (Energy.zcr hf) /\ allBetween zero one (Energy.novelty hf)) /\
    Energy.spectralFlux hf = [].
Proof.
  intros He Hc Hz Hn Hcv Hwin Hw. cbv zeta.
  set (L := Energy.commonLength f) in *.
  destruct (HookScan.length_firstn_common f) as (Le & Lc & Lz & Ln).
  fold L in Le, Lc, Lz, Ln.
  set (E := Energy.normalize (firstn L (Energy.energy f))).
  set (C := Energy.normalize (firstn L (Energy.centroid f))).
  set (Z := Energy.normalize (firstn L (Energy.zcr f))).
  set (N := Energy.normalize (firstn L (Energy.novelty f))).
  assert (BE : allBetween zero one E)
    by (apply Scaling.normalize_between, HookScan.allFinite_firstn; exact He).
  assert (BC : allBetween zero one C)
    by (apply Scaling.normalize_between, HookScan.allFinite_firstn; exact Hc).
  assert (BZ : allBetween zero one Z)
    by (apply Scaling.normalize_between, HookScan.allFinite_firstn; exact Hz).
  assert (BN : allBetween zero one N)
    by (apply Scaling.normalize_between, HookScan.allFinite_firstn; exact Hn).
  assert (LE : length E = L) by (unfold E; rewrite HookScan.length_normalize; exact Le).
  assert (LC : length C = L) by (unfold C; rewrite HookScan.length_normalize; exact Lc).
  assert (LZ : length Z = L) by (unfold Z; rewrite HookScan.length_normalize; exact Lz).
  assert (LN : length N = L) by (unfold N; rewrite HookScan.length_normalize; exact Ln).
  set (scores := Energy.frameScores weights E C Z N L).
  assert (BS : allBetween zero one scores) by (apply frameScores_between; assumption).
  assert (LS : length scores = L).
  { unfold scores, Energy.frameScores. rewrite length_map. apply length_seq. }
  set (value := Energy.windowValue (Energy.prefixSums scores) N (ofNat w)).
  assert (Hval : forall i, i < L + 1 - w -> nonneg (value i) = true).
  { intros i Hi. apply window_values_nonneg with (L := L); try assumption; lia. }
  destruct (@WindowScan.bestHookOf_scan f frameSec windowSec weights w Hwin (proj1 Hw))
    as [Hscore Hstart].
  fold L in Hscore, Hstart. fold N in Hscore, Hstart. fold E C Z in Hscore, Hstart.
  fold scores in Hscore, Hstart. fold value in Hscore, Hstart.
  unfold validStarts in Hscore, Hstart.
  destruct (@WindowScan.bruteForce_earliest_max value (L + 1 - w)) as (Hk & Hbest & _ & _).
  { intros i Hi. specialize (Hval i Hi). unfold nonneg in Hval.
    apply andb_true_iff in Hval. apply Hval. }
  { lia. }
  set (B := bruteForce value (seq 0 (L + 1 - w))) in *.
  exists (snd B). split; [lia|]. split; [exact Hstart|].
  split; [apply bestHookOf_frameSec|].
  split; [rewrite Hscore, Hbest; apply Hval; exact Hk|].
  (* the slices *)
  unfold Energy.bestHookOf. fold L E C Z N scores. rewrite Hwin.
  rewrite WindowScan.scan_over_valid_starts by lia.
  unfold validStarts. fold value. fold B.
  destruct B as [best k] eqn:EB. cbn [snd] in *.
  cbn [Energy.hookFeatures Energy.energy Energy.centroid Energy.zcr Energy.novelty
       Energy.spectralFlux].
  rewrite !slice_window by lia.
  split; [|split; [|reflexivity]].
  - repeat split; apply length_window; lia.
  - repeat split; apply allBetween_window; assumption.
Qed.



Lemma ratio_pos (a b : Z) :
  (0 < a)%Z -> (0 < b)%Z -> finite (ofZ a / ofZ b)%num /\ truthy (ofZ a / ofZ b)%num = true.
Proof.
  intros Ha Hb. unfold ofZ.
  assert (Hb' : Q2Qc (inject_Z b) <> Q2Qc 0).
  { intros E. apply (proj1 (Q2Qc_eq_iff _ _)) in E.
    apply (proj1 (inject_Z_injective b 0)) in E. lia. }
  rewrite ndiv_fin by exact Hb'. split; [reflexivity|].
  apply truthy_fin. apply qc_pos_neq.
  unfold Qclt, Qcdiv, Qcmult, Qcinv. rewrite !this_Q2Qc.
  apply Qmult_lt_0_compat; [|apply Qinv_lt_0_compat]; rewrite <- (Zlt_Qlt 0); assumption.
Qed.

(** The window of [findBestHook] in frames is a whole number, at least 1. *)
Lemma energy_window (windowSec frameSec : num) :
  finite windowSec -> finite frameSec -> truthy frameSec = true ->
  exists w, 1 <= w /\ Energy.windowFrames windowSec frameSec = ofNat w.
Proof.
  intros Hw Hf Ht. unfold Energy.windowFrames.
  destruct (Finiteness.finite_inv _ (@Finiteness.finite_div _ _ Hw Hf Ht)) as [q ->].
  change (nfloor (Fin q)) with (ofZ (Qfloor q)). unfold one.
  rewrite RepetitionRange.nmax_ofZ.
  exists (Z.to_nat (Z.max 1 (Qfloor q))). split; [lia|].
  unfold ofNat. rewrite Z2Nat.id by lia. reflexivity.
Qed.

(** X17.  [findBestHook], with the unified extraction, a genre preset or
    the default weights, and a runtime that meets the contract: on finite
    samples, a positive sample rate below the wrap-around of [nextPow2]
    and a finite window, it returns a hook that starts on a frame, and
    whose score is either -Infinity (no window fits) or finite and not
    negative. *)
Theorem findBestHook_returns {M : MathLib} {F : FFTLib}
        (contract : RuntimeContract M F)
        (samples : list num) (sampleRate : Z) (windowSec : num)
        (g : option Energy.Genre) :
  allFinite samples ->
  (0 < sampleRate)%Z ->
  (Energy.targetSize sampleRate (Q2Qc (1 # 10)) <= 2 ^ 30)%Z ->
  finite windowSec ->
  exists (h : Energy.Hook) (k : nat),
    Energy.findBestHook samples sampleRate windowSec (weightsOf g) true = Some h /\
    Energy.startSec h = (ofNat k * Energy.hookFrameSec h)%num /\
    finite (Energy.hookFrameSec h) /\
    ((Energy.score h = NegInf /\ k = 0) \/ nonneg (Energy.score h) = true).
Proof.
  intros Hs Hsr Hb Hw.
  destruct (@Finiteness.extractAllFeatures_finite M F contract samples sampleRate
              (Q2Qc (1 # 10)) Hs Hb) as (r & Er & Hn & (Le & Lc & Lz & _ & Ln)
                                         & (Fe & Fc & Fz & _ & Fn)).
  destruct (@Pow2Facts.energy_nextPow2_least _ Hb) as (N & EN & _).
  destruct (@ExtractFacts.extract_shape M F samples sampleRate (Q2Qc (1 # 10)) N EN)
    as (r' & Er' & _ & _ & _ & Efs & _).
  rewrite Er in Er'. injection Er' as <-.
  destruct (@FrameValues.frame_shape _ _ _ EN) as (_ & _ & Hhop).
  destruct (@ratio_pos (N / 2) sampleRate ltac:(lia) Hsr) as [Ff Tf].
  rewrite <- Efs in Ff, Tf.
  destruct (@energy_window windowSec (Energy.frameSec r) Hw Ff Tf) as (w & Hw1 & EW).
  unfold Energy.findBestHook. rewrite Er. cbn [bind fst snd].
  set (L := Energy.commonLength (Energy.features r)).
  eexists.
  destruct (Nat.le_gt_cases w L) as [Hfit|Hno].
  - destruct (@bestHookOf_shape (Energy.features r) (Energy.frameSec r) windowSec
                (weightsOf g) w Fe Fc Fz Fn (weightsOf_convex g) EW (conj Hw1 Hfit))
      as (k & _ & Est & Efr & Bsc & _).
    exists k. split; [reflexivity|]. rewrite Efr. split; [exact Est|].
    split; [exact Ff|]. right. exact Bsc.
  - destruct (@Degenerate.bestHookOf_no_window (Energy.features r) (Energy.frameSec r)
                windowSec (weightsOf g)) as [Esc Est].
    { rewrite EW, WindowScan.ofNat_add, WindowScan.nle_ofNat. apply Nat.leb_gt.
      fold L. lia. }
    exists 0. split; [reflexivity|]. rewrite bestHookOf_frameSec.
    split; [exact Est|]. split; [exact Ff|]. left. split; [exact Esc|reflexivity].
Qed.

Lemma findBestHook_returns_witness :
  exists (h : Energy.Hook) (k : nat),
    Energy.findBestHook (M := Runtime.math) (F := Runtime.fft)
      (map ofQ [1 # 2; (-1) # 2; 1 # 4; 0 # 1; 1 # 1; (-1) # 1; 1 # 2; 1 # 3]%Q)
      40 (ofQ (1 # 10)) (weightsOf (Some Energy.pop)) true = Some h /\
    Energy.startSec h = (ofNat k * Energy.hookFrameSec h)%num /\
    finite (Energy.hookFrameSec h) /\
    ((Energy.score h = NegInf /\ k = 0) \/ nonneg (Energy.score h) = true).
Proof.
  apply (@findBestHook_returns Runtime.math Runtime.fft RuntimeFacts.runtime_contract
           (map ofQ [1 # 2; (-1) # 2; 1 # 4; 0 # 1; 1 # 1; (-1) # 1; 1 # 2; 1 # 3]%Q)
           40 (ofQ (1 # 10)) (Some Energy.pop)).
  - repeat constructor.
  - lia.
  - vm_compute. discriminate.
  - reflexivity.
Defined.

End EnergyHookFacts.

(** ** The mono mixdown of [decodeMonoWav] *)

Module Mixdown.

Import Spec NumFacts Bounds Steps Order.
Local Open Scope nat_scope.

Lemma length_mixStep (n : nat) (a ch : list num) :
  length (Energy.mixStep n a ch) = length a.
Proof. apply Smoothing.length_imap. Qed.

Lemma get_mixStep (n : nat) (a ch : list num) (i : nat) :
  i < length a ->
  get (Energy.mixStep n a ch) i = ((get a i + get ch i) / ofNat n)%num.
Proof.
  intros Hi. unfold Energy.mixStep. rewrite (Smoothing.imap_seq _ NaN).
  unfold get at 1.
  rewrite (@Similarity.nth_map_lt _ _ _ (seq 0 (length a)) i NaN 0)
    by (rewrite length_seq; exact Hi).
  rewrite seq_nth by exact Hi. reflexivity.
Qed.

Lemma three_neq_0 : Q2Qc (inject_Z (Z.of_nat 3)) <> Q2Qc 0.
Proof. intros E. apply (f_equal (fun q => Qnum (this q))) in E. discriminate. Qed.

Lemma two_neq_0 : Q2Qc (inject_Z (Z.of_nat 2)) <> Q2Qc 0.
Proof. intros E. apply (f_equal (fun q => Qnum (this q))) in E. discriminate. Qed.

(** X18.  The mixdown of [decodeMonoWav] on finite channels of one
    length.  Two channels give the mean of the two.  Three channels do
    not give the mean of the three: the channels are folded in one after
    the other and every step divides by 3, so the result is
    (a + b) / 9 + c / 3, and three equal channels come out at 5/9 of
    their level. *)
Theorem mixDown_weights (a b c : list num) :
  allFinite a -> allFinite b -> allFinite c ->
  length b = length a -> length c = length a ->
  (exists m, Energy.mixDown [a; b] = Some m /\ length m = length a /\
             forall i, i < length a ->
                       get m i = ((get a i + get b i) / ofZ 2)%num) /\
  (exists m, Energy.mixDown [a; b; c] = Some m /\ length m = length a /\
             forall i, i < length a ->
                       get m i = ((get a i + get b i) / ofZ 9 + get c i / ofZ 3)%num) /\
  (a = b -> b = c ->
   exists m, Energy.mixDown [a; b; c] = Some m /\
             forall i, i < length a -> get m i = (ofQ (5 # 9) * get a i)%num).
Proof.
  intros Fa Fb Fc Lb Lc.
  assert (M3 : forall i, i < length a ->
                 get (Energy.mixStep 3 (Energy.mixStep 3 a b) c) i
                 = ((get a i + get b i) / ofZ 9 + get c i / ofZ 3)%num).
  { intros i Hi.
    rewrite get_mixStep by (rewrite length_mixStep; exact Hi).
    rewrite get_mixStep by exact Hi.
    destruct (Finiteness.finite_inv _ (@Finiteness.allFinite_get a i Fa Hi)) as [x ->].
    destruct (Finiteness.finite_inv _ (@Finiteness.allFinite_get b i Fb ltac:(lia))) as [y ->].
    destruct (Finiteness.finite_inv _ (@Finiteness.allFinite_get c i Fc ltac:(lia))) as [z ->].
    unfold ofNat, ofZ. cbn [nadd].
    rewrite !ndiv_fin by (first [exact three_neq_0
                                |intros E; apply (f_equal (fun q => Qnum (this q))) in E;
                                 discriminate]).
    cbn [nadd]. rewrite ndiv_fin by exact three_neq_0. f_equal.
    change (Z.of_nat 3) with 3%Z.
    replace (Q2Qc (inject_Z 9)) with (Q2Qc (inject_Z 3) * Q2Qc (inject_Z 3))%Qc
      by (apply Qc_is_canon; reflexivity).
    field. intros E. apply (f_equal (fun q => Qnum (this q))) in E. discriminate. }
  split; [|split].
  - eexists. split; [reflexivity|]. cbn [length fold_left].
    split; [apply length_mixStep|]. intros i Hi. apply get_mixStep. exact Hi.
  - eexists. split; [reflexivity|]. cbn [length fold_left].
    split; [rewrite !length_mixStep; reflexivity|]. exact M3.
  - intros <- <-. eexists. split; [reflexivity|]. cbn [length fold_left].
    intros i Hi. rewrite M3 by exact Hi.
    destruct (Finiteness.finite_inv _ (@Finiteness.allFinite_get a i Fa Hi)) as [x ->].
    unfold ofZ, ofQ. cbn [nadd nmul].
    rewrite !ndiv_fin by (intros E; apply (f_equal (fun q => Qnum (this q))) in E;
                          discriminate).
    cbn [nadd]. f_equal.
    replace (Q2Qc (5 # 9)) with (Q2Qc (inject_Z 5) / Q2Qc (inject_Z 9))%Qc
      by (apply Qc_is_canon; reflexivity).
    replace (Q2Qc (inject_Z 9)) with (Q2Qc (inject_Z 3) * Q2Qc (inject_Z 3))%Qc
      by (apply Qc_is_canon; reflexivity).
    replace (Q2Qc (inject_Z 5)) with (Q2Qc 1 + Q2Qc 1 + Q2Qc 1 + Q2Qc 1 + Q2Qc 1)%Qc
      by (apply Qc_is_canon; reflexivity).
    replace (Q2Qc (inject_Z 3)) with (Q2Qc 1 + Q2Qc 1 + Q2Qc 1)%Qc
      by (apply Qc_is_canon; reflexivity).
    field.
    split; intros E; apply (f_equal (fun q => Qnum (this q))) in E; discriminate.
Qed.

Lemma mixDown_weights_witness :
  let a := map ofQ [1 # 2; (-1) # 4; 9 # 10]%Q in
  (exists m, Energy.mixDown [a; a] = Some m /\ length m = length a /\
             forall i, i < length a ->
                       get m i = ((get a i + get a i) / ofZ 2)%num) /\
  (exists m, Energy.mixDown [a; a; a] = Some m /\ length m = length a /\
             forall i, i < length a ->
                       get m i = ((get a i + get a i) / ofZ 9 + get a i / ofZ 3)%num) /\
  (a = a -> a = a ->
   exists m, Energy.mixDown [a; a; a] = Some m /\
             forall i, i < length a -> get m i = (ofQ (5 # 9) * get a i)%num).
Proof.
  intros a. apply (@mixDown_weights a a a); try reflexivity; repeat constructor.
Defined.

End Mixdown.

(** ** The escape helpers of ffmpegs.js *)

Module EscapeFacts.

Import Ascii String.
Import Ffmpegs Quoting.

Lemma append_assoc (a b c : string) : append (append a b) c = append a (append b c).
Proof. induction a as [|x a IH]; cbn [append]; [reflexivity|]. rewrite IH. reflexivity. Qed.

Lemma eachChar_app (f : ascii -> string) (s t : string) :
  eachChar f (append s t) = append (eachChar f s) (eachChar f t).
Proof.
  induction s as [|c s IH]; cbn [append eachChar]; [reflexivity|].
  rewrite IH. symmetry. apply append_assoc.
Qed.

(** A replacement of one character is a pass over the characters. *)
Lemma replaceAll_eachChar (c : ascii) (r s : string) :
  replaceAll c r s = eachChar (fun x => if Ascii.eqb x c then r else str1 x) s.
Proof.
  induction s as [|x s IH]; cbn [replaceAll eachChar]; [reflexivity|].
  rewrite IH. destruct (Ascii.eqb x c); reflexivity.
Qed.

Lemma eachChar_eachChar (f g : ascii -> string) (s : string) :
  eachChar g (eachChar f s) = eachChar (fun x => eachChar g (f x)) s.
Proof.
  induction s as [|x s IH]; cbn [eachChar]; [reflexivity|].
  rewrite eachChar_app, IH. reflexivity.
Qed.

Lemma eachChar_ext (f g : ascii -> string) (s : string) :
  (forall x, f x = g x) -> eachChar f s = eachChar g s.
Proof.
  intros H. induction s as [|x s IH]; cbn [eachChar]; [reflexivity|].
  rewrite H, IH. reflexivity.
Qed.

Lemma eqb_false (x c : ascii) : x <> c -> Ascii.eqb x c = false.
Proof. intros H. apply Ascii.eqb_neq. exact H. Qed.

(** The five replacements of [escText], seen on one character. *)
Lemma escText_char (x : ascii) :
  replaceAll rbracket (escaped rbracket)
    (replaceAll lbracket (escaped lbracket)
       (replaceAll quote (escaped quote)
          (replaceAll colon (escaped colon)
             (if Ascii.eqb x backslash then escaped backslash else str1 x))))
  = escapeChar x.
Proof.
  unfold escapeChar, special.
  destruct (Ascii.eqb_spec x backslash) as [->|H1]; [reflexivity|].
  destruct (Ascii.eqb_spec x colon) as [->|H2]; [reflexivity|].
  destruct (Ascii.eqb_spec x quote) as [->|H3]; [reflexivity|].
  destruct (Ascii.eqb_spec x lbracket) as [->|H4]; [reflexivity|].
  destruct (Ascii.eqb_spec x rbracket) as [->|H5]; [reflexivity|].
  cbn [orb str1 replaceAll].
  rewrite (eqb_false H2). cbn [replaceAll].
  rewrite (eqb_false H3). cbn [replaceAll].
  rewrite (eqb_false H4). cbn [replaceAll].
  rewrite (eqb_false H5). reflexivity.
Qed.

Lemma escText_one_pass (t : string) : escText t = eachChar escapeChar t.
Proof.
  unfold escText.
  rewrite (replaceAll_eachChar backslash).
  rewrite (replaceAll_eachChar colon), eachChar_eachChar.
  rewrite (replaceAll_eachChar quote), eachChar_eachChar.
  rewrite (replaceAll_eachChar lbracket), eachChar_eachChar.
  rewrite (replaceAll_eachChar rbracket), eachChar_eachChar.
  apply eachChar_ext. intros x.
  rewrite <- !replaceAll_eachChar. apply escText_char.
Qed.

Lemma special_backslash : special backslash = true.
Proof. reflexivity. Qed.

Lemma not_special_not_backslash (x : ascii) :
  special x = false -> Ascii.eqb x backslash = false.
Proof.
  unfold special. destruct (Ascii.eqb x backslash); [discriminate|reflexivity].
Qed.

(** X19.  The five chained replacements of [escText] amount to one pass
    that puts a backslash before every backslash, colon, single quote
    and square bracket: in the result none of these characters stands
    unescaped, and reading the escapes back gives the text again, so
    that two different texts are never escaped to the same string. *)
Theorem escText_escapes_in_one_pass (t : string) :
  escText t = eachChar escapeChar t /\
  wellEscaped special false (escText t) = true /\
  unescape false (escText t) = t /\
  (forall t', escText t' = escText t -> t' = t).
Proof.
  assert (W : forall s, wellEscaped special false (eachChar escapeChar s) = true).
  { induction s as [|x s IH]; [reflexivity|].
    cbn [eachChar]. unfold escapeChar at 1. destruct (special x) eqn:E.
    - cbn [escaped str1 append wellEscaped].
      change (Ascii.eqb backslash backslash) with true. cbv iota.
      rewrite E, IH. reflexivity.
    - cbn [str1 append wellEscaped].
      rewrite (not_special_not_backslash x E), E, IH. reflexivity. }
  assert (U : forall s, unescape false (eachChar escapeChar s) = s).
  { induction s as [|x s IH]; [reflexivity|].
    cbn [eachChar]. unfold escapeChar at 1. destruct (special x) eqn:E.
    - cbn [escaped str1 append unescape].
      change (Ascii.eqb backslash backslash) with true. cbv iota.
      rewrite IH. reflexivity.
    - cbn [str1 append unescape].
      rewrite (not_special_not_backslash x E), IH. reflexivity. }
  split; [apply escText_one_pass|]. rewrite escText_one_pass.
  split; [apply W|]. split; [apply U|].
  intros t' H. rewrite escText_one_pass in H.
  rewrite <- (U t'), H. apply U.
Qed.

(** The three replacements of [escPathForFilter], seen on one character. *)
Lemma escPath_char (x : ascii) :
  replaceAll quote (escaped quote)
    (replaceAll colon (escaped colon)
       (if Ascii.eqb x backslash then str1 slash else str1 x))
  = pathChar x.
Proof.
  unfold pathChar, pathSpecial.
  destruct (Ascii.eqb_spec x backslash) as [->|H1]; [reflexivity|].
  destruct (Ascii.eqb_spec x colon) as [->|H2]; [reflexivity|].
  destruct (Ascii.eqb_spec x quote) as [->|H3]; [reflexivity|].
  cbn [orb str1 replaceAll].
  rewrite (eqb_false H2). cbn [replaceAll].
  rewrite (eqb_false H3). reflexivity.
Qed.

(** X20.  [escPathForFilter] wraps in single quotes one pass over the
    path that turns every backslash into a slash and puts a backslash
    before every colon and single quote: between the two quotes no
    colon and no quote stands unescaped, and every backslash is
    followed by one of them.  Reading the escapes back gives the path
    with slashes for backslashes. *)
Theorem escPathForFilter_quotes_the_path (p : string) :
  let body := eachChar pathChar p in
  escPathForFilter p = String quote (append body (str1 quote)) /\
  wellEscaped pathSpecial false body = true /\
  unescape false body = replaceAll backslash (str1 slash) p.
Proof.
  cbv zeta.
  assert (E : replaceAll quote (escaped quote)
                (replaceAll colon (escaped colon)
                   (replaceAll backslash (str1 slash) p))
              = eachChar pathChar p).
  { rewrite (replaceAll_eachChar backslash).
    rewrite (replaceAll_eachChar colon), eachChar_eachChar.
    rewrite (replaceAll_eachChar quote), eachChar_eachChar.
    apply eachChar_ext. intros x.
    rewrite <- !replaceAll_eachChar. apply escPath_char. }
  split; [unfold escPathForFilter; rewrite E; reflexivity|].
  clear E. split.
  - induction p as [|x p IH]; [reflexivity|].
    cbn [eachChar]. unfold pathChar at 1.
    destruct (Ascii.eqb_spec x backslash) as [->|H1].
    + cbn [str1 append wellEscaped].
      change (Ascii.eqb slash backslash) with false.
      change (pathSpecial slash) with false. cbv iota. cbn [negb andb].
      apply IH.
    + destruct (pathSpecial x) eqn:Es.
      * cbn [escaped str1 append wellEscaped].
        change (Ascii.eqb backslash backslash) with true. cbv iota.
        rewrite Es. cbn [andb]. apply IH.
      * cbn [str1 append wellEscaped].
        rewrite (eqb_false H1), Es. cbn [negb andb]. apply IH.
  - induction p as [|x p IH]; [reflexivity|].
    cbn [eachChar replaceAll]. unfold pathChar at 1.
    destruct (Ascii.eqb_spec x backslash) as [->|H1].
    + cbn [str1 append unescape].
      change (Ascii.eqb slash backslash) with false. cbv iota.
      rewrite IH. reflexivity.
    + destruct (pathSpecial x) eqn:Es.
      * cbn [escaped str1 append unescape].
        change (Ascii.eqb backslash backslash) with true. cbv iota.
        rewrite IH. reflexivity.
      * cbn [str1 append unescape].
        rewrite (eqb_false H1), IH. reflexivity.
Qed.

End EscapeFacts.

(** ** The sparkline of the debug output *)

Module SparkFacts.

Import Spec NumFacts Bounds Steps Order Quoting.
Local Open Scope nat_scope.

Local Abbreviation finite x := (isFinite x = true).

(** The index of the bar: [min(7, max(0, floor(t * 7)))]. *)
Lemma bar_index (t : num) :
  finite t ->
  exists k, k < 8 /\
    Index.sparkAt (nmin (ofZ 7) (nmax zero (nfloor (t * ofZ 7)%num))) = Index.bar k.
Proof.
  intros Ht. destruct (Finiteness.finite_inv _ Ht) as [q ->].
  change (Fin q * ofZ 7)%num with (Fin (q * Q2Qc (inject_Z 7))%Qc).
  change (nfloor (Fin ?x)) with (ofZ (Qfloor x)).
  unfold zero. rewrite RepetitionRange.nmax_ofZ, RepetitionRange.nmin_ofZ.
  set (z := Z.min 7 (Z.max 0 (Qfloor (q * Q2Qc (inject_Z 7))%Qc))).
  exists (Z.to_nat z). split; [unfold z; lia|].
  unfold Index.sparkAt. rewrite RepetitionRange.indexOf_ofZ by (unfold z; lia).
  destruct (Nat.ltb_spec (Z.to_nat z) 8); [reflexivity|unfold z in *; lia].
Qed.

Lemma strided_count (len step : nat) :
  1 <= step ->
  forall fuel i,
    length (strided fuel len step i) * step <= (len - i) + step - 1 /\
    (len <= i -> strided fuel len step i = []).
Proof.
  intros Hs. induction fuel as [|fuel IH]; intros i; cbn [strided].
  - split; [simpl; lia|reflexivity].
  - destruct (Nat.ltb_spec i len) as [H|H].
    + split; [|lia]. cbn [length].
      destruct (IH (i + step)) as [I1 I2].
      destruct (Nat.le_gt_cases len (i + step)) as [Hc|Hc].
      * rewrite (I2 Hc). simpl. lia.
      * nia.
    + split; [simpl; lia|reflexivity].
Qed.

Lemma strided_bound (len w : nat) :
  1 <= w -> 1 <= len ->
  let step := Nat.max 1 (len / w) in
  1 <= length (strided len len step 0) <= 2 * w - 1.
Proof.
  intros Hw Hlen step.
  assert (Hs : 1 <= step) by (unfold step; lia).
  destruct (@strided_count len step Hs len 0) as [Hc _].
  rewrite Nat.sub_0_r in Hc.
  split.
  - destruct len as [|len]; [lia|]. cbn [strided].
    destruct (Nat.ltb_spec 0 (S len)); [simpl; lia|lia].
  - set (c := length (strided len len step 0)) in *.
    pose proof (Nat.div_mod len w ltac:(lia)) as Hd.
    pose proof (Nat.mod_upper_bound len w ltac:(lia)) as Hm.
    set (d := len / w) in *. set (m := len mod w) in *.
    destruct (Nat.le_gt_cases c (2 * w - 1)) as [Hok|Hbad]; [exact Hok|exfalso].
    assert (step = 1 /\ d = 0 \/ step = d /\ 1 <= d) by (unfold step; lia).
    destruct H as [[E1 E2]|[E1 E2]].
    + rewrite E1 in Hc. rewrite E2 in Hd. lia.
    + rewrite E1 in Hc. nia.
Qed.

Lemma strided_unit_step (len : nat) :
  forall fuel i, length (strided fuel len 1 i) = Nat.min fuel (len - i).
Proof.
  induction fuel as [|fuel IH]; intros i; cbn [strided]; [reflexivity|].
  destruct (Nat.ltb_spec i len) as [H|H]; cbn [length]; [rewrite IH|]; lia.
Qed.

Lemma sparkLoop_bars (arr : list num) (mn rng : num) (step : nat) :
  allFinite arr -> finite mn -> finite rng -> truthy rng = true ->
  forall fuel i,
    exists ks,
      Index.sparkLoop fuel arr mn rng (ofNat step) (ofNat i) = bars ks /\
      length ks = length (strided fuel (length arr) step i) /\
      Forall (fun k => k < 8) ks.
Proof.
  intros Ha Hmn Hr Ht. induction fuel as [|fuel IH]; intros i;
    cbn [Index.sparkLoop strided].
  - exists []. split; [reflexivity|]. split; [reflexivity|constructor].
  - unfold ofNat at 1 2. rewrite nlt_ofZ.
    destruct (Z.ltb_spec (Z.of_nat i) (Z.of_nat (length arr))) as [H|H];
      destruct (Nat.ltb_spec i (length arr)) as [H'|H']; try lia.
    + fold (ofNat i). rewrite WindowScan.getAt_ofNat, WindowScan.ofNat_add.
      destruct (IH (i + step)) as (ks & E & L & F). rewrite E.
      destruct (@bar_index ((get arr i - mn) / rng)%num) as (k & Hk & Ek).
      { apply Finiteness.finite_div; [|exact Hr|exact Ht].
        apply Finiteness.finite_sub; [|exact Hmn].
        apply Finiteness.allFinite_get; assumption. }
      rewrite Ek. exists (k :: ks). split; [reflexivity|].
      split; [cbn [length]; rewrite L; reflexivity|]. constructor; assumption.
    + exists []. split; [reflexivity|]. split; [reflexivity|constructor].
Qed.

Lemma spark_step (len w : nat) :
  1 <= w ->
  nmax one (nfloor (ofNat len / ofNat w)%num) = ofNat (Nat.max 1 (len / w)).
Proof.
  intros Hw. unfold ofNat at 1 2. unfold ofZ at 1 2.
  rewrite ndiv_fin.
  2:{ intros E. apply (proj1 (Q2Qc_eq_iff _ _)) in E.
      apply (proj1 (inject_Z_injective _ 0)) in E. lia. }
  change (nfloor (Fin ?x)) with (ofZ (Qfloor x)).
  assert (E : Qfloor (Q2Qc (inject_Z (Z.of_nat len)) / Q2Qc (inject_Z (Z.of_nat w)))%Qc
              = (Z.of_nat len / Z.of_nat w)%Z).
  { rewrite Zdiv_Qdiv. apply Qfloor_comp.
    unfold Qcdiv, Qcmult, Qcinv. rewrite !this_Q2Qc. reflexivity. }
  rewrite E. unfold one. rewrite RepetitionRange.nmax_ofZ. unfold ofNat. f_equal.
  rewrite Nat2Z.inj_max, Nat2Z.inj_div. reflexivity.
Qed.

(** X21.  On a finite, non-empty array and a width of [w >= 1], [spark]
    draws nothing but bars (never the text "undefined"), at least one and
    at most [2 w - 1] of them, and no more than there are values.  The
    step is rounded down, so [w] is not a bound: [2 w - 1] values give
    [2 w - 1] bars. *)
Theorem spark_is_a_row_of_bars (arr : list num) (w : nat) :
  allFinite arr -> arr <> [] -> 1 <= w ->
  exists ks,
    Index.spark arr (ofNat w) = bars ks /\
    Forall (fun k => k < 8) ks /\
    1 <= length ks <= 2 * w - 1 /\
    length ks <= length arr /\
    (length arr = 2 * w - 1 -> length ks = 2 * w - 1).
Proof.
  intros Ha Hne Hw.
  destruct (WindowScan.allFinite_map Ha) as (qs & E).
  destruct qs as [|x l]; [subst arr; contradiction|].
  destruct (minMax_spec x l) as (mn & mx & EM & Hb & Hmn & _).
  assert (Hle : (mn <= mx)%Qc) by (apply (Hb mn Hmn)).
  destruct (range_pos Hle) as (r & Er & Hr & _).
  assert (Hlen : 1 <= length arr) by (subst arr; simpl; lia).
  assert (Es : Index.spark arr (ofNat w)
               = Index.sparkLoop (length arr) arr (Fin mn) (Fin r)
                   (ofNat (Nat.max 1 (length arr / w))) (ofNat 0)).
  { rewrite <- (@spark_step (length arr) w Hw), <- Er. subst arr.
    unfold Index.spark. cbn [map].
    change (fold_left _ (Fin x :: map Fin l) (PosInf, NegInf))
      with (fold_left mmStep (map Fin (x :: l)) (PosInf, NegInf)).
    rewrite EM. reflexivity. }
  destruct (@sparkLoop_bars arr (Fin mn) (Fin r) (Nat.max 1 (length arr / w)) Ha
              eq_refl eq_refl (proj2 (truthy_fin r) (qc_pos_neq Hr)) (length arr) 0)
    as (ks & Ek & Lk & Fk).
  exists ks. rewrite Es. split; [exact Ek|]. split; [exact Fk|].
  rewrite Lk. split; [apply strided_bound; assumption|]. split.
  - destruct (@strided_count (length arr) (Nat.max 1 (length arr / w)) ltac:(lia)
                (length arr) 0) as [Hc _].
    nia.
  - intros Hfull.
    assert (Ed : length arr / w = 1).
    { symmetry. apply (Nat.div_unique (length arr) w 1 (w - 1)); lia. }
    rewrite Ed. change (Nat.max 1 1) with 1. rewrite strided_unit_step. lia.
Qed.

Lemma spark_is_a_row_of_bars_witness :
  exists ks,
    Index.spark (map ofQ [1 # 10; 2 # 10; 9 # 10; 8 # 10; 3 # 10]%Q) (ofNat 2) = bars ks /\
    Forall (fun k => k < 8) ks /\
    1 <= length ks <= 2 * 2 - 1 /\
    length ks <= length (map ofQ [1 # 10; 2 # 10; 9 # 10; 8 # 10; 3 # 10]%Q) /\
    (length (map ofQ [1 # 10; 2 # 10; 9 # 10; 8 # 10; 3 # 10]%Q) = 2 * 2 - 1 ->
     length ks = 2 * 2 - 1).
Proof.
  apply (@spark_is_a_row_of_bars (map ofQ [1 # 10; 2 # 10; 9 # 10; 8 # 10; 3 # 10]%Q) 2).
  - repeat constructor.
  - discriminate.
  - lia.
Defined.

End SparkFacts.

(** ** The command line: guard rails, and the two selectors *)

Module CommandLine.

Import Spec NumFacts Bounds Steps Order.
Local Open Scope nat_scope.

Local Abbreviation finite x := (isFinite x = true).

Lemma duration_nonneg (len : nat) (sampleRate : Z) :
  (0 < sampleRate)%Z ->
  exists A, (ofNat len / ofZ sampleRate)%num = Fin A /\ (Q2Qc 0 <= A)%Qc.
Proof.
  intros Hsr. unfold ofNat, ofZ. rewrite ndiv_fin.
  2:{ intros E. apply (proj1 (Q2Qc_eq_iff _ _)) in E.
      apply (proj1 (inject_Z_injective _ 0)) in E. lia. }
  eexists. split; [reflexivity|].
  apply Finiteness.qc_div_nonneg; unfold Qcle; rewrite !this_Q2Qc;
    rewrite <- (Zle_Qle 0); lia.
Qed.

(** X22.  The guard rails of [main], on a start and a duration that are
    finite and not negative, the start a double, and a positive sample
    rate: the start they give is not negative, never later than the one
    they got, and never after the end of the track; and when neither the
    sum nor the difference they form is rounded, the clip ends inside the
    track, unless the track is shorter than the clip, in which case the
    clip starts at 0. *)
Theorem guardRails_keeps_start_inside (startSec duration : num) (len : nat)
        (sampleRate : Z) :
  nonneg startSec = true -> round64 startSec = startSec ->
  nonneg duration = true -> (0 < sampleRate)%Z ->
  let approxDur := round64 (ofNat len / ofZ sampleRate)%num in
  let r := Index.guardRails startSec duration len sampleRate in
  nonneg r = true /\
  (r <=? startSec)%num = true /\
  (r <=? approxDur)%num = true /\
  (round64 (startSec + duration)%num = (startSec + duration)%num ->
   round64 (approxDur - duration)%num = (approxDur - duration)%num ->
   (r + duration <=? approxDur)%num = true \/
   (r = zero /\ (approxDur <? duration)%num = true)).
Proof.
  intros Hs Hs64 Hd Hsr. cbv zeta.
  destruct (FrameFacts.nonneg_inv _ Hs) as (s & -> & Hs0).
  destruct (FrameFacts.nonneg_inv _ Hd) as (d & -> & Hd0).
  destruct (@duration_nonneg len sampleRate Hsr) as (A0 & EA & HA0).
  unfold Index.guardRails. rewrite EA.
  change (round64 (Fin A0)) with (Fin (roundQc 53 1074 A0)).
  set (A := roundQc 53 1074 A0).
  assert (HA : (Q2Qc 0 <= A)%Qc).
  { apply Rounding.round64_le in HA0.
    replace (roundQc 53 1074 (Q2Qc 0)) with (Q2Qc 0) in HA0
      by (apply Qc_is_canon; vm_compute; reflexivity).
    exact HA0. }
  assert (EAA : roundQc 53 1074 A = A).
  { apply fin_inj. apply (Rounding.round64_idem (Fin A0)). }
  assert (Ess : roundQc 53 1074 s = s) by (apply fin_inj; exact Hs64).
  cbn [nadd]. unfold nsub. cbn [nneg nadd].
  change (round64 (Fin (s + d)%Qc)) with (Fin (roundQc 53 1074 (s + d)%Qc)).
  change (round64 (Fin (A + - d)%Qc)) with (Fin (roundQc 53 1074 (A + - d)%Qc)).
  set (e := roundQc 53 1074 (s + d)%Qc).
  set (t := roundQc 53 1074 (A + - d)%Qc).
  unfold ngt.
  destruct (nlt (Fin A) (Fin e)) eqn:E.
  - apply nlt_fin in E.
    assert (H1 : (A < s + d)%Qc).
    { apply Qcnot_le_lt. intros H. apply Rounding.round64_le in H. fold e in H.
      rewrite EAA in H. revert E. apply Qcle_not_lt. exact H. }
    assert (Hts : (t <= s)%Qc).
    { rewrite <- Ess. apply Rounding.round64_le. qc2q. lra. }
    assert (HtA : (t <= A)%Qc).
    { rewrite <- EAA. apply Rounding.round64_le. qc2q. lra. }
    rewrite Averages.nmax_zero_fin.
    destruct (qltb (Q2Qc 0) t) eqn:E2.
    + apply qltb_lt in E2. split; [|split; [|split]].
      * apply PrefixSums.nonneg_fin. apply Qclt_le_weak. exact E2.
      * apply nle_fin. exact Hts.
      * apply nle_fin. exact HtA.
      * intros _ Et. left. apply fin_inj in Et. cbn [nadd]. apply nle_fin.
        rewrite Et. qc2q. lra.
    + apply WindowScan.qltb_false in E2. split; [|split; [|split]].
      * reflexivity.
      * apply nle_fin. exact Hs0.
      * apply nle_fin. exact HA.
      * intros _ Et. apply fin_inj in Et. rewrite Et in E2.
        destruct (nlt (Fin A) (Fin d)) eqn:E3.
        -- right. split; reflexivity.
        -- left. apply nlt_fin_false in E3. cbn [nadd]. apply nle_fin. qc2q. lra.
  - apply nlt_fin_false in E. split; [|split; [|split]].
    + apply PrefixSums.nonneg_fin. exact Hs0.
    + apply nle_fin. apply Qcle_refl.
    + apply nle_fin. eapply Qcle_trans; [|exact E].
      rewrite <- Ess. apply Rounding.round64_le. qc2q. lra.
    + intros Ee _. apply fin_inj in Ee. left. cbn [nadd]. apply nle_fin.
      rewrite <- Ee. exact E.
Qed.

Lemma guardRails_keeps_start_inside_witness :
  let approxDur := round64 (ofNat 100 / ofZ 10)%num in
  let r := Index.guardRails (ofZ 4) (ofZ 7) 100 10 in
  nonneg r = true /\
  (r <=? ofZ 4)%num = true /\
  (r <=? approxDur)%num = true /\
  ((r + ofZ 7 <=? approxDur)%num = true \/
   (r = zero /\ (approxDur <? ofZ 7)%num = true)).
Proof.
  destruct (@guardRails_keeps_start_inside (ofZ 4) (ofZ 7) 100 10)
    as (H1 & H2 & H3 & H4).
  - reflexivity.
  - num_eq.
  - reflexivity.
  - lia.
  - split; [exact H1|]. split; [exact H2|]. split; [exact H3|].
    apply H4; num_eq.
Defined.

(** When the difference is rounded, the clip can end after the track by
    one unit in the last place: 1179339 samples at 22050 Hz, a clip of
    20.7 s and a start at 47.41514739229025 s give the start
    32.78476190476191, and 32.78476190476191 + 20.7 is more than the
    53.4847619047619 s of the track. *)
Lemma rounded_start_can_overshoot :
  let duration := ofQ (5826532017910579 # 281474976710656) in
  let startSec := ofQ (3336544376994305 # 70368744177664) in
  let approxDur := round64 (ofZ 1179339 / ofZ 22050)%num in
  let r := Index.guardRails startSec duration (Z.to_nat 1179339) 22050 in
  round64 startSec = startSec /\ round64 duration = duration /\
  approxDur = ofQ (7527311055758919 # 140737488355328) /\
  r = ofQ (2307022523401815 # 70368744177664) /\
  (approxDur <? r + duration)%num = true.
Proof.
  cbv zeta. split; [num_eq|]. split; [num_eq|]. split; [num_eq|].
  split; [num_eq|vm_compute; reflexivity].
Qed.

(** *** The two selectors on a track without a window *)

(** At 22050 Hz with a 17 s window, fewer than 376832 samples leave no
    window to [findBestHook]: the score is -Infinity. *)
Lemma short_track_hook {M : MathLib} {F : FFTLib}
      (samples : list num) (weights : Energy.Weights) :
  (Z.of_nat (length samples) < 376832)%Z ->
  exists a,
    Energy.findBestHook samples 22050 (ofZ 17) weights true = Some a /\
    Energy.score a = NegInf.
Proof.
  intros Hlen.
  assert (EN : Energy.nextPow2 (Energy.targetSize 22050 (Q2Qc (1 # 10))) = Some 4096%Z)
    by reflexivity.
  destruct (@ExtractFacts.extract_shape M F samples 22050 (Q2Qc (1 # 10)) 4096 EN)
    as (r & Er & _ & _ & Hn & Hfs & Le & Lc & Lz & _ & Ln).
  unfold Energy.findBestHook. rewrite Er. cbn [bind fst snd].
  eexists. split; [reflexivity|].
  assert (Hfr : (Z.to_nat (Energy.nFrames r) <= 182)).
  { rewrite Hn. unfold Energy.frameCount. change (4096 / 2)%Z with 2048%Z.
    assert ((Z.of_nat (length samples) - 4096) / 2048 + 1 <= 182)%Z; [|lia].
    assert ((Z.of_nat (length samples) - 4096) / 2048 < 182)%Z; [|lia].
    apply Z.div_lt_upper_bound; lia. }
  apply (@Degenerate.bestHookOf_no_window (Energy.features r) (Energy.frameSec r)
           (ofZ 17) weights).
  unfold Energy.commonLength, Energy.windowFrames.
  rewrite Le, Lc, Lz, Ln, !Nat.min_id, Hfs.
  change (4096 / 2)%Z with 2048%Z.
  assert (Ew : nmax one (nfloor (ofZ 17 / (ofZ 2048 / ofZ 22050))%num) = ofZ 183) by num_eq.
  rewrite Ew. unfold ofNat. rewrite ofZ_add, nle_ofZ.
  apply Z.leb_gt. lia.
Qed.

(** X23.  [scripts/eval.js] and the command line do not pick alike.  On
    a track too short for the window (fewer than 376832 samples at
    22050 Hz and 17 s), against any chorus hook with a finite score:
    eval.js compares the raw scores and reports chorus, while the [auto]
    branch of [main] normalizes the energy score -Infinity to NaN, so
    that its comparison fails and energy is chosen, with a [normScore]
    of NaN. *)
Theorem eval_and_main_disagree_on_short_tracks {M : MathLib} {F : FFTLib}
        (samples : list num) (weights : Energy.Weights) (b : Sections.ChorusHook) :
  (Z.of_nat (length samples) < 376832)%Z ->
  finite (Sections.score b) ->
  exists a,
    Energy.findBestHook samples 22050 (ofZ 17) weights true = Some a /\
    Eval.pick a b = Index.chorus /\
    let chosen := Index.selectAuto (Index.ofEnergy a) (Some (Index.ofChorus b)) in
    Index.method chosen = Index.energy /\ Index.normScore chosen = Some NaN.
Proof.
  intros Hlen Hb.
  destruct (@short_track_hook M F samples weights Hlen) as (a & Ea & Es).
  exists a. split; [exact Ea|].
  destruct (Finiteness.finite_inv _ Hb) as [q Eb].
  split.
  - unfold Eval.pick. rewrite Es, Eb. reflexivity.
  - cbv zeta. unfold Index.selectAuto, Index.normOf, Index.norm, Index.ofEnergy.
    cbn [Index.c_score Index.c_scoreMin Index.c_scoreMax nullish].
    rewrite Es. cbn. split; reflexivity.
Qed.

Lemma eval_and_main_disagree_on_short_tracks_witness :
  exists a,
    Energy.findBestHook (M := Runtime.math) (F := Runtime.fft)
      (map ofQ [1 # 2; (-1) # 2; 1 # 4]%Q) 22050 (ofZ 17)
      (Energy.genrePresets Energy.hiphop) true = Some a /\
    Eval.pick a (Sections.safeDefault one []) = Index.chorus /\
    let chosen := Index.selectAuto (Index.ofEnergy a)
                    (Some (Index.ofChorus (Sections.safeDefault one []))) in
    Index.method chosen = Index.energy /\ Index.normScore chosen = Some NaN.
Proof.
  apply (@eval_and_main_disagree_on_short_tracks Runtime.math Runtime.fft
           (map ofQ [1 # 2; (-1) # 2; 1 # 4]%Q) (Energy.genrePresets Energy.hiphop)
           (Sections.safeDefault one [])).
  - simpl. lia.
  - reflexivity.
Defined.

End CommandLine.

(** ** A frame step of zero *)

Module LagLoop.

Import Spec NumFacts Bounds Steps Order.
Local Open Scope nat_scope.

Local Abbreviation finite x := (isFinite x = true).


Lemma over_zero (x : num) :
  (zero <? x)%num = true -> finite x -> nmax one (nround (x / zero)%num) = PosInf.
Proof.
  intros Hpos Hx. destruct (Finiteness.finite_inv _ Hx) as [q ->].
  apply nlt_fin in Hpos. unfold zero, ofZ. cbn [ndiv].
  change (qsign (Q2Qc (inject_Z 0))) with Eq. cbv iota.
  unfold qsign. rewrite (proj1 (Qcgt_alt q (Q2Qc 0)) Hpos). reflexivity.
Qed.

(** X24.  With a frame step of 0 (and positive lag bounds and lag step)
    the lag loop of [repetitionScore] never ends: all three of the lag
    bounds and the lag step are +Infinity, [d <= maxLag] stays true, and
    on a non-empty matrix the function does not return. *)
Theorem zero_frame_step_never_returns (S : list (list num)) (w : num)
        (opts : Sections.Opts) :
  Sections.o_frameSec opts = Some zero ->
  (zero <? nullish (Sections.o_minLagSec opts) (ofZ 6))%num = true ->
  (zero <? nullish (Sections.o_maxLagSec opts) (ofZ 45))%num = true ->
  (zero <? nullish (Sections.o_lagStepSec opts) (ofQ (25 # 100)))%num = true ->
  finite (nullish (Sections.o_minLagSec opts) (ofZ 6)) ->
  finite (nullish (Sections.o_maxLagSec opts) (ofZ 45)) ->
  finite (nullish (Sections.o_lagStepSec opts) (ofQ (25 # 100))) ->
  S <> [] ->
  Sections.lagsOf opts = None /\ Sections.repetitionScore S w opts = None.
Proof.
  intros Ef P1 P2 P3 F1 F2 F3 HS.
  assert (EL : Sections.lagsOf opts = None).
  { unfold Sections.lagsOf. rewrite Ef. cbn [nullish].
    rewrite (over_zero _ P1 F1), (over_zero _ P3 F3).
    destruct (Finiteness.finite_inv _ F2) as [q E2]. rewrite E2 in *.
    apply nlt_fin in P2. unfold zero at 1, ofZ at 1. cbn [ndiv].
    change (qsign (Q2Qc (inject_Z 0))) with Eq. cbv iota.
    unfold qsign. rewrite (proj1 (Qcgt_alt q (Q2Qc 0)) P2). reflexivity. }
  split; [exact EL|].
  unfold Sections.repetitionScore, Sections.repetitionRaw.
  destruct S as [|row S']; [contradiction|]. cbn [length]. rewrite EL. reflexivity.
Qed.

Lemma zero_frame_step_never_returns_witness :
  let opts := {| Sections.o_frameSec := Some zero; Sections.o_minLagSec := None;
                 Sections.o_maxLagSec := None; Sections.o_lagStepSec := None;
                 Sections.o_bidirectional := None |} in
  Sections.lagsOf opts = None /\ Sections.repetitionScore ones10 (ofZ 3) opts = None.
Proof.
  intros opts. apply (@zero_frame_step_never_returns ones10 (ofZ 3) opts);
    try reflexivity. discriminate.
Defined.

End LagLoop.

(** ** Chroma *)

Module ChromaFacts.

Import Spec NumFacts Bounds Steps Order.
Local Open Scope nat_scope.

Local Abbreviation finite x := (isFinite x = true).


Section WithMath.
Context {M : MathLib}.

Lemma length_addAt (chroma : list num) (cls : option nat) (m : num) :
  length (Sections.addAt chroma cls m) = length chroma.
Proof. destruct cls; [apply Smoothing.length_imap|reflexivity]. Qed.

Lemma addAt_zero (n : nat) (cls : option nat) :
  Sections.addAt (zeros n) cls zero = zeros n.
Proof.
  destruct cls as [c|]; [|reflexivity]. unfold Sections.addAt.
  rewrite (Smoothing.imap_seq _ NaN). unfold zeros. rewrite repeat_length.
  assert (G : forall s m, s + m <= n ->
              map (fun i => if (i =? c)%nat then (nth i (repeat zero n) NaN + zero)%num
                            else nth i (repeat zero n) NaN) (seq s m) = repeat zero m).
  { intros s m. revert s. induction m as [|m IH]; intros s Hm; [reflexivity|].
    cbn [seq map repeat]. rewrite IH by lia. f_equal.
    assert (E : nth s (repeat zero n) NaN = zero).
    { apply (@FrameFacts.get_repeat zero n s). lia. }
    rewrite E. destruct (s =? c)%nat; [num_eq|reflexivity]. }
  apply G. lia.
Qed.

(** X25.  A chroma vector always has 12 entries, one per pitch class,
    whatever the spectrum and the runtime's functions; the chroma of an
    all-zero spectrum is the zero vector. *)
Theorem chroma_has_twelve_classes (mag : list num) (sampleRate : Z) :
  length (Sections.chromaFromMag mag sampleRate) = 12 /\
  ((forall m, In m mag -> m = zero) -> Sections.chromaFromMag mag sampleRate = zeros 12).
Proof.
  unfold Sections.chromaFromMag.
  set (step := fun chroma k =>
                 let freq := ((ofNat k * ofZ sampleRate) / (ofZ 2 * ofNat (length mag)))%num in
                 if (freq <? ofZ 80)%num || (freq >? ofZ 5000)%num then chroma
                 else
                   let pitch := (ofZ 69 + ofZ 12 * Math_log2 (freq / ofZ 440))%num in
                   Sections.addAt chroma (Sections.pitchClass pitch) (get mag k)).
  split.
  - rewrite length_map.
    assert (G : forall l chroma, length (fold_left step l chroma) = length chroma).
    { induction l as [|k l IH]; intros chroma; cbn [fold_left]; [reflexivity|].
      rewrite IH. unfold step. cbv zeta.
      destruct ((_ <? _)%num || (_ >? _)%num); [reflexivity|apply length_addAt]. }
    rewrite G. reflexivity.
  - intros Hz.
    assert (G : forall l, (forall k, In k l -> 1 <= k < length mag) ->
                          fold_left step l (zeros 12) = zeros 12).
    { induction l as [|k l IH]; intros Hl; cbn [fold_left]; [reflexivity|].
      assert (E : step (zeros 12) k = zeros 12).
      { unfold step. cbv zeta.
        destruct ((_ <? _)%num || (_ >? _)%num); [reflexivity|].
        rewrite (Hz (get mag k)); [apply addAt_zero|].
        apply nth_In. apply (Hl k). left. reflexivity. }
      rewrite E. apply IH. intros j Hj. apply Hl. right. exact Hj. }
    rewrite G by (intros k Hk; apply in_seq in Hk; lia).
    assert (Es : fold_left (fun s x => (s + x * x)%num) (zeros 12) zero = zero) by num_eq.
    rewrite Es.
    assert (D : (zero / orElse (Math_sqrt zero) one)%num = zero)
      by (apply Similarity.ndiv_zero_truthy, Similarity.truthy_orElse_one).
    unfold zeros. cbn [repeat map]. rewrite D. reflexivity.
Qed.

End WithMath.

End ChromaFacts.

(** ** The unified extraction, below the wrap-around *)

Module ExtractionRange.

Import Spec NumFacts Bounds Steps Order.
Local Open Scope nat_scope.

Local Abbreviation finite x := (isFinite x = true).


Lemma allFinite_bounds (l : list num) :
  allFinite l -> exists lo hi, allBetween (Fin lo) (Fin hi) l.
Proof.
  intros Hl. destruct (WindowScan.allFinite_map Hl) as (qs & ->).
  destruct qs as [|x qs].
  - exists (Q2Qc 0), (Q2Qc 0). constructor.
  - destruct (minMax_spec x qs) as (mn & mx & _ & Hb & _).
    exists mn, mx. apply ChorusHookFacts.allBetween_of_map. exact Hb.
Qed.



End ExtractionRange.

(** ** The window each search returns

    Each of the three searches returns the earliest window of the
    greatest value, among the values it computes; and those are the
    values of the windows added up directly when no sum is rounded. *)

Module BestWindow.

Import Spec NumFacts Bounds Steps Order.
Local Open Scope nat_scope.

Local Abbreviation finite x := (isFinite x = true).

Lemma nonneg_finite (x : num) : nonneg x = true -> finite x.
Proof. unfold nonneg. intros H. apply andb_true_iff in H. apply H. Qed.

(** The per-frame scores and the normalized novelty of [findBestHook]
    are in [0, 1]. *)
Lemma hook_scores_between (f : Energy.Features) (weights : Energy.Weights) :
  allFinite (Energy.energy f) -> allFinite (Energy.centroid f) ->
  allFinite (Energy.zcr f) -> allFinite (Energy.novelty f) ->
  convex weights ->
  let L := Energy.commonLength f in
  let N := Energy.normalize (firstn L (Energy.novelty f)) in
  let scores :=
    Energy.frameScores weights
      (Energy.normalize (firstn L (Energy.energy f)))
      (Energy.normalize (firstn L (Energy.centroid f)))
      (Energy.normalize (firstn L (Energy.zcr f))) N L in
  allBetween zero one scores /\ allBetween zero one N /\
  length scores = L /\ length N = L.
Proof.
  intros He Hc Hz Hn Hcv L N scores.
  destruct (HookScan.length_firstn_common f) as (Le & Lc & Lz & Ln).
  fold L in Le, Lc, Lz, Ln.
  assert (BN : allBetween zero one N)
    by (apply Scaling.normalize_between, HookScan.allFinite_firstn; exact Hn).
  assert (LN : length N = L) by (unfold N; rewrite HookScan.length_normalize; exact Ln).
  split; [|split; [exact BN|split; [|exact LN]]].
  - apply EnergyHookFacts.frameScores_between; try assumption;
      try (apply Scaling.normalize_between, HookScan.allFinite_firstn; assumption);
      rewrite HookScan.length_normalize; assumption.
  - unfold scores, Energy.frameScores. rewrite length_map. apply length_seq.
Qed.

(** The running sum of [bestWindowStartSec] is finite on a finite series. *)
Lemma runningSum_finite (series : list num) (w k : nat) :
  allFinite series -> k <= length series -> finite (runningSum series w k).
Proof.
  intros Hs. induction k as [|k IH]; intros Hk; [reflexivity|].
  rewrite WindowScan.runningSum_S.
  assert (H1 : finite (round64 (runningSum series w k + get series k)%num)).
  { rewrite Rounding.round64_finite. apply Finiteness.finite_add; [apply IH; lia|].
    apply Finiteness.allFinite_get; [exact Hs|lia]. }
  destruct (w <=? k); [|exact H1].
  rewrite Rounding.round64_finite. apply Finiteness.finite_sub; [exact H1|].
  apply Finiteness.allFinite_get; [exact Hs|lia].
Qed.







End BestWindow.
